(** * prefect.utilities.collections: merge_dicts, DotDict, to_dotdict,
      dict_to_flatdict and flatdict_to_dict

    A shallow embedding of [src/prefect/utilities/collections.py].

    Python objects are modelled as trees ([value]); a [dict] is the list of
    its entries in insertion order, the order in which Python iterates it.
    Operations that can raise return a [res]; the exception classes are the
    ones the interpreter or the source raises at that point.  The three
    recursive functions take the number of calls the interpreter still lets
    nest and raise [RecursionError] where it is used up.  [merge_dicts]
    has a second model, over a store of mapping objects addressed by
    reference, which is what a statement about mutation of the arguments
    needs.  The definitions end with the notions the statements are written
    in; the properties follow. *)

From Stdlib Require Import List String ZArith Bool Lia PeanoNat.
Import ListNotations.
Local Open Scope string_scope.
Local Open Scope list_scope.

Set Implicit Arguments.
Set Warnings "-register-all".

(* ================================================================== *)
(** ** Keys and values *)
(* ================================================================== *)

(** Hashable objects used as dictionary keys.  [CompoundKey] is the source's
    [class CompoundKey(tuple)]: a tuple with its own type tag. *)
Inductive key : Type :=
| KNone
| KInt (n : Z)
| KStr (s : string)
| KTuple (ks : list key)
| CompoundKey (ks : list key).

(** Python objects.  [VCompoundKey] is a [CompoundKey] instance met as a value
    (its elements need not be hashable there); [VSet] lists the elements of a
    set in iteration order; [VDict] and [VDotDict] list the entries of a plain
    [dict] and of the [__dict__] of a [DotDict] in insertion order. *)
Inductive value : Type :=
| VNone
| VInt (n : Z)
| VStr (s : string)
| VTuple (vs : list value)
| VCompoundKey (vs : list value)
| VList (vs : list value)
| VSet (vs : list value)
| VDict (items : list (key * value))
| VDotDict (items : list (key * value)).

Definition dict : Type := list (key * value).

Section All2.
Variable eqb : key -> key -> bool.
Fixpoint all2 (l r : list key) : bool :=
  match l, r with
  | [], [] => true
  | x :: l', y :: r' => eqb x y && all2 l' r'
  | _, _ => false
  end.
End All2.

(** Python's [==] on keys, the equality a [dict] uses (with [hash]) to tell
    keys apart.  A [CompoundKey] inherits [tuple.__eq__] and
    [tuple.__hash__], so it equals the plain tuple with the same elements. *)
Fixpoint key_eqb (a b : key) {struct a} : bool :=
  match a with
  | KNone => match b with KNone => true | _ => false end
  | KInt m => match b with KInt n => Z.eqb m n | _ => false end
  | KStr s => match b with KStr t => String.eqb s t | _ => false end
  | KTuple l | CompoundKey l =>
      match b with
      | KTuple r | CompoundKey r => all2 key_eqb l r
      | _ => false
      end
  end.

(** The key with every [CompoundKey] tag replaced by the plain tuple tag:
    two keys are equal for Python exactly when these agree. *)
Fixpoint untag (k : key) : key :=
  match k with
  | KTuple l | CompoundKey l => KTuple (map untag l)
  | _ => k
  end.

(** [isinstance(v, dict)] *)
Definition isinstance_dict (v : value) : bool :=
  match v with VDict _ => true | _ => false end.

(** [isinstance(v, MutableMapping)]: [dict] is registered with the abstract
    class and [DotDict] derives from it. *)
Definition isinstance_MutableMapping (v : value) : bool :=
  match v with VDict _ | VDotDict _ => true | _ => false end.

(* ================================================================== *)
(** ** Results and exceptions *)
(* ================================================================== *)

Inductive exn : Type :=
| ValueError | TypeError | AttributeError | IndexError | KeyError
| RecursionError.

Inductive res (A : Type) : Type :=
| Ok (a : A)
| Raise (e : exn).
Arguments Raise {A} e.

Definition bind {A B : Type} (c : res A) (k : A -> res B) : res B :=
  match c with
  | Ok a => k a
  | Raise e => Raise e
  end.

Notation "x <- c ;; k" := (bind c (fun x => k))
  (at level 61, c at next level, right associativity).
Notation "' p <- c ;; k" := (bind c (fun x => let p := x in k))
  (at level 61, p pattern, c at next level, right associativity).

(* ================================================================== *)
(** ** Insertion-ordered dictionaries *)
(* ================================================================== *)

Section Entries.
Variable V : Type.

(** [d.get(k)] / the lookup behind [d[k]]. *)
Fixpoint dict_get (d : list (key * V)) (k : key) : option V :=
  match d with
  | [] => None
  | (k', v) :: d' => if key_eqb k' k then Some v else dict_get d' k
  end.

(** [d[k] = v]: an entry with an equal key keeps its place and its key
    object and gets the new value; otherwise the entry is appended. *)
Fixpoint dict_set (d : list (key * V)) (k : key) (v : V) : list (key * V) :=
  match d with
  | [] => [(k, v)]
  | (k', v') :: d' =>
      if key_eqb k' k then (k', v) :: d' else (k', v') :: dict_set d' k v
  end.

(** [del d[k]] on a present key. *)
Fixpoint dict_del (d : list (key * V)) (k : key) : list (key * V) :=
  match d with
  | [] => []
  | (k', v') :: d' => if key_eqb k' k then d' else (k', v') :: dict_del d' k
  end.

(** [dict(items)]: later pairs overwrite earlier ones with an equal key. *)
Definition dict_of_items (items : list (key * V)) : list (key * V) :=
  fold_left (fun d kv => dict_set d (fst kv) (snd kv)) items [].

Definition dict_keys (d : list (key * V)) : list key := map fst d.
End Entries.

(** No two keys of the list are equal for Python: what every [dict] has. *)
Fixpoint keys_unique (ks : list key) : bool :=
  match ks with
  | [] => true
  | k :: ks' => negb (existsb (key_eqb k) ks') && keys_unique ks'
  end.

(** Every dictionary inside the value has pairwise distinct keys. *)
Fixpoint wf_value (v : value) : bool :=
  match v with
  | VTuple vs | VCompoundKey vs | VList vs | VSet vs => forallb wf_value vs
  | VDict items | VDotDict items =>
      keys_unique (map fst items)
      && forallb (fun kv => wf_value (snd kv)) items
  | _ => true
  end.

(* ================================================================== *)
(** ** class DotDict(MutableMapping) *)
(* ================================================================== *)

(** The names [n] for which [hasattr(MutableMapping, n)] holds.  The class
    comes from Python's [collections.abc], not from this repository; the
    table is the one of CPython 3.11 (the attributes of the class and its
    bases, and those of its metaclass).  It holds the mapping methods
    "keys", "items", "values", "get", "update", "pop", "popitem", "clear"
    and "setdefault"; it does not hold "copy" or "__weakref__". *)
Definition MutableMapping_attrs : list string :=
  [ "_MutableMapping__marker"; "__abstractmethods__"; "__annotations__";
    "__base__"; "__bases__"; "__basicsize__"; "__call__"; "__class__";
    "__class_getitem__"; "__contains__"; "__delattr__"; "__delitem__";
    "__dict__"; "__dictoffset__"; "__dir__"; "__doc__"; "__eq__"; "__flags__";
    "__format__"; "__ge__"; "__getattribute__"; "__getitem__"; "__getstate__";
    "__gt__"; "__hash__"; "__init__"; "__init_subclass__";
    "__instancecheck__"; "__itemsize__"; "__iter__"; "__le__"; "__len__";
    "__lt__"; "__module__"; "__mro__"; "__name__"; "__ne__"; "__new__";
    "__or__"; "__prepare__"; "__qualname__"; "__reduce__"; "__reduce_ex__";
    "__repr__"; "__reversed__"; "__ror__"; "__setattr__"; "__setitem__";
    "__sizeof__"; "__slots__"; "__str__"; "__subclasscheck__";
    "__subclasses__"; "__subclasshook__"; "__text_signature__";
    "__weakrefoffset__"; "_abc_caches_clear"; "_abc_impl";
    "_abc_registry_clear"; "_dump_registry"; "clear"; "get"; "items"; "keys";
    "mro"; "pop"; "popitem"; "register"; "setdefault"; "update"; "values" ].

(** [hasattr(MutableMapping, name)] for a string [name]. *)
Definition hasattr_MutableMapping (name : string) : bool :=
  existsb (String.eqb name) MutableMapping_attrs.

(** The names an instance finds on its type when its own [__dict__] has no
    such entry: what the bases give ([dir(MutableMapping)]), and what the
    class statement adds, the method [copy] and the slot [__weakref__]. *)
Definition DotDict_type_attrs : list string :=
  [ "_MutableMapping__marker"; "__abstractmethods__"; "__annotations__";
    "__class__"; "__class_getitem__"; "__contains__"; "__delattr__";
    "__delitem__"; "__dict__"; "__dir__"; "__doc__"; "__eq__"; "__format__";
    "__ge__"; "__getattribute__"; "__getitem__"; "__getstate__"; "__gt__";
    "__hash__"; "__init__"; "__init_subclass__"; "__iter__"; "__le__";
    "__len__"; "__lt__"; "__module__"; "__ne__"; "__new__"; "__reduce__";
    "__reduce_ex__"; "__repr__"; "__reversed__"; "__setattr__"; "__setitem__";
    "__sizeof__"; "__slots__"; "__str__"; "__subclasshook__"; "__weakref__";
    "_abc_impl"; "clear"; "copy"; "get"; "items"; "keys"; "pop"; "popitem";
    "setdefault"; "update"; "values" ].

(** What reading an attribute of an instance gives: an object of the value
    universe, or a member of the type (a bound method, the class, ...) named
    by the attribute. *)
Inductive attribute : Type :=
| AValue (v : value)
| AMember (name : string).

Module DotDict.

(** An instance is its [__dict__]; every method below reads and writes
    only that. *)
Definition t : Type := dict.

Definition __getitem__ (self : t) (key : key) : res value :=
  match dict_get self key with
  | Some v => Ok v
  | None => Raise KeyError
  end.

(** [hasattr] wants a string and raises [TypeError] for anything else;
    a name found on [MutableMapping] is refused with
    [ValueError("no sir")]. *)
Definition __setitem__ (self : t) (key : key) (value : value) : res t :=
  match key with
  | KStr name =>
      if hasattr_MutableMapping name then Raise ValueError
      else Ok (dict_set self key value)
  | _ => Raise TypeError
  end.

Definition __setattr__ (self : t) (attr : string) (value : value) : res t :=
  __setitem__ self (KStr attr) value.

Definition __iter__ (self : t) : list key := dict_keys self.

Definition __delitem__ (self : t) (key : key) : res t :=
  match dict_get self key with
  | Some _ => Ok (dict_del self key)
  | None => Raise KeyError
  end.

Definition __len__ (self : t) : nat := List.length self.

(** Reading [self.name].  The class defines no [__getattr__], so this is
    [object.__getattribute__]: a data descriptor of the type first (the
    slots [__class__], [__dict__] and [__weakref__]; the last one reads
    [None] on an instance nobody holds a weak reference to), then the
    entry of the instance [__dict__], then any other attribute of the
    type, then [AttributeError]. *)
Definition __getattribute__ (self : t) (name : string) : res attribute :=
  if String.eqb name "__class__" then Ok (AMember name)
  else if String.eqb name "__dict__" then Ok (AValue (VDict self))
  else if String.eqb name "__weakref__" then Ok (AValue VNone)
  else match dict_get self (KStr name) with
       | Some v => Ok (AValue v)
       | None =>
           if existsb (String.eqb name) DotDict_type_attrs
           then Ok (AMember name)
           else Raise AttributeError
       end.

(** Looking up one of the methods in order to call it, [self.name(...)]:
    an entry of the instance [__dict__] hides the method, and no object of
    the value universe can be called. *)
Definition method (self : t) (name : string) : res unit :=
  match __getattribute__ self name with
  | Ok (AMember _) => Ok tt
  | Ok (AValue _) => Raise TypeError
  | Raise e => Raise e
  end.

(** [MutableMapping.update(self, other)] for a mapping [other], inherited:
    [for key in other: self[key] = other[key]].  The entries written
    before a refused one stay written, so the instance is returned
    together with the exception, if any. *)
Fixpoint update (self : t) (other : dict) : t * option exn :=
  match other with
  | [] => (self, None)
  | (key, value) :: other' =>
      match __setitem__ self key value with
      | Ok self' => update self' other'
      | Raise e => (self, Some e)
      end
  end.

(** The named parameters of [__init__(self, init_dict=None, **kwargs)]. *)
Definition parameters : list string := ["self"; "init_dict"].

(** A keyword argument that names a parameter which has its value
    already: the interpreter refuses the call ("got multiple values for
    argument") before the body runs. *)
Definition binds_parameter (kwargs : list (string * value)) : bool :=
  existsb (fun kv => existsb (String.eqb (fst kv)) parameters) kwargs.

(** [DotDict(init_dict, **kwargs)] on a fresh instance: [init_dict] is the
    object given for the parameter of that name ([None] when it is [None]
    or left out) and [kwargs] are the further keyword arguments of the
    call, which the interpreter collects in a [dict] once it has checked
    that none of them names [self] or [init_dict]. *)
Definition __init__ (init_dict : option dict)
    (kwargs : list (string * value)) : res t :=
  if binds_parameter kwargs then Raise TypeError else
  let self : t := [] in
  self <- match init_dict with
          | Some ((_ :: _) as d) =>
              match update self d with
              | (self', None) => Ok self'
              | (_, Some e) => Raise e
              end
          | _ => Ok self
          end ;;
  match update self (map (fun kv => (KStr (fst kv), snd kv)) kwargs) with
  | (self', None) => Ok self'
  | (_, Some e) => Raise e
  end.

(** [type(self)(self.__dict__.copy())] *)
Definition copy (self : t) : res t := __init__ (Some self) [].

(** Inherited from [MutableMapping]: [get], [setdefault], [pop],
    [popitem] and [clear], written there in terms of the methods above. *)
Definition get (self : t) (key : key) : option value := dict_get self key.

Definition setdefault (self : t) (key : key) (default : value)
    : res (t * value) :=
  match dict_get self key with
  | Some v => Ok (self, v)
  | None => self' <- __setitem__ self key default ;; Ok (self', default)
  end.

Definition pop (self : t) (key : key) : res (t * value) :=
  v <- __getitem__ self key ;;
  self' <- __delitem__ self key ;;
  Ok (self', v).

Definition popitem (self : t) : res (t * (key * value)) :=
  match __iter__ self with
  | [] => Raise KeyError
  | key :: _ =>
      v <- __getitem__ self key ;;
      self' <- __delitem__ self key ;;
      Ok (self', (key, v))
  end.

Definition clear (self : t) : t := [].

(** The instances a program can obtain through the class: built by the
    constructor and then changed only by the operations above. *)
Inductive reachable : t -> Prop :=
| reach_init init_dict kwargs self :
    __init__ init_dict kwargs = Ok self -> reachable self
| reach_setitem self key value self' :
    reachable self -> __setitem__ self key value = Ok self' ->
    reachable self'
| reach_setattr self attr value self' :
    reachable self -> __setattr__ self attr value = Ok self' ->
    reachable self'
| reach_delitem self key self' :
    reachable self -> __delitem__ self key = Ok self' -> reachable self'
| reach_update self other :
    reachable self -> reachable (fst (update self other))
| reach_setdefault self key default self' v :
    reachable self -> setdefault self key default = Ok (self', v) ->
    reachable self'
| reach_pop self key self' v :
    reachable self -> pop self key = Ok (self', v) -> reachable self'
| reach_popitem self self' kv :
    reachable self -> popitem self = Ok (self', kv) -> reachable self'
| reach_clear self :
    reachable self -> reachable (clear self)
| reach_copy self self' :
    reachable self -> copy self = Ok self' -> reachable self'.

End DotDict.

(** A key [__setitem__] lets through: a string that names no attribute of
    [MutableMapping]. *)
Definition writable (k : key) : Prop :=
  exists name, k = KStr name /\ hasattr_MutableMapping name = false.

(* ================================================================== *)
(** ** to_dotdict *)
(* ================================================================== *)

Section Traverse.
Variable f : value -> res value.

(** [[f(d) for d in obj]] *)
Fixpoint map_res (l : list value) : res (list value) :=
  match l with
  | [] => Ok []
  | d :: l' => d' <- f d ;; l'' <- map_res l' ;; Ok (d' :: l'')
  end.

(** [{k: f(v) for k, v in obj.items()}]; the keys are those of [obj], so
    no two of them collide. *)
Fixpoint map_res_items (items : dict) : res dict :=
  match items with
  | [] => Ok []
  | (k, v) :: items' =>
      v' <- f v ;; items'' <- map_res_items items' ;; Ok ((k, v') :: items'')
  end.
End Traverse.

(** [type(obj)([...])] rebuilds a list, a tuple, a [CompoundKey] or a set
    from the converted elements (those of a set are hashable, and converted
    to equal objects); [DotDict({...})] writes the converted entries of a
    [dict] through [__init__]; the test for mappings is
    [isinstance(obj, dict)], so a [DotDict] falls under "anything else".

    The function calls itself on every element and every value, whatever
    it is.  [fuel] is the number of calls of the function that the
    interpreter's recursion limit still lets nest, the call being made
    included: with none left the call raises [RecursionError], and the
    calls made from its body have one less.  (How many frames a call
    takes, and so how [fuel] compares with [sys.getrecursionlimit()],
    depends on the function and on the interpreter: here each level takes
    the frame of the call and, up to CPython 3.11, that of the
    comprehension.) *)
Fixpoint to_dotdict (fuel : nat) (obj : value) : res value :=
  match fuel with
  | O => Raise RecursionError
  | S fuel' =>
      match obj with
      | VList vs => vs' <- map_res (to_dotdict fuel') vs ;; Ok (VList vs')
      | VTuple vs => vs' <- map_res (to_dotdict fuel') vs ;; Ok (VTuple vs')
      | VCompoundKey vs =>
          vs' <- map_res (to_dotdict fuel') vs ;; Ok (VCompoundKey vs')
      | VSet vs => vs' <- map_res (to_dotdict fuel') vs ;; Ok (VSet vs')
      | VDict items =>
          items' <- map_res_items (to_dotdict fuel') items ;;
          self <- DotDict.__init__ (Some items') [] ;;
          Ok (VDotDict self)
      | _ => Ok obj
      end
  end.

(* ================================================================== *)
(** ** Calls on an object of unknown type *)
(* ================================================================== *)

(** [obj.items()], as a list in iteration order. *)
Definition call_items (obj : value) : res dict :=
  match obj with
  | VDict items => Ok items
  | VDotDict self => _ <- DotDict.method self "items" ;; Ok self
  | _ => Raise AttributeError
  end.

(** [obj.get(k)]; [None] of Python is [None] here. *)
Definition call_get (obj : value) (k : key) : res (option value) :=
  match obj with
  | VDict items => Ok (dict_get items k)
  | VDotDict self => _ <- DotDict.method self "get" ;; Ok (DotDict.get self k)
  | _ => Raise AttributeError
  end.

(** [obj.copy()]: lists and sets have the method too. *)
Definition call_copy (obj : value) : res value :=
  match obj with
  | VDict _ | VList _ | VSet _ => Ok obj
  | VDotDict self =>
      _ <- DotDict.method self "copy" ;;
      self' <- DotDict.copy self ;;
      Ok (VDotDict self')
  | _ => Raise AttributeError
  end.

(** [l[i] = v] on a list: an index from [-len(l)] up to [len(l) - 1]. *)
Fixpoint list_update (l : list value) (n : nat) (v : value) : list value :=
  match l, n with
  | [], _ => []
  | _ :: l', O => v :: l'
  | x :: l', S n' => x :: list_update l' n' v
  end.

Definition list_setitem (l : list value) (i : Z) (v : value)
    : res (list value) :=
  let n := Z.of_nat (List.length l) in
  let j := if (i <? 0)%Z then (i + n)%Z else i in
  if ((0 <=? j)%Z && (j <? n)%Z)%bool
  then Ok (list_update l (Z.to_nat j) v)
  else Raise IndexError.

(** [obj[k] = v], returning the object after the assignment. *)
Definition setitem (obj : value) (k : key) (v : value) : res value :=
  match obj with
  | VDict items => Ok (VDict (dict_set items k v))
  | VDotDict self =>
      self' <- DotDict.__setitem__ self k v ;; Ok (VDotDict self')
  | VList l =>
      match k with
      | KInt i => l' <- list_setitem l i v ;; Ok (VList l')
      | _ => Raise TypeError
      end
  | _ => Raise TypeError
  end.

(** [obj.setdefault(k, default)], returning the object after the call and
    the object the call returns, which is then the one stored under [k]. *)
Definition call_setdefault (obj : value) (k : key) (default : value)
    : res (value * value) :=
  match obj with
  | VDict items =>
      match dict_get items k with
      | Some v => Ok (obj, v)
      | None => Ok (VDict (dict_set items k default), default)
      end
  | VDotDict self =>
      _ <- DotDict.method self "setdefault" ;;
      '(self', v) <- DotDict.setdefault self k default ;;
      Ok (VDotDict self', v)
  | _ => Raise AttributeError
  end.

(** The mapping [obj] once the object it stores under [k] has become
    [child]: an update in place of a stored object, seen through [obj]. *)
Definition with_child (obj : value) (k : key) (child : value) : value :=
  match obj with
  | VDict items => VDict (dict_set items k child)
  | VDotDict self => VDotDict (dict_set self k child)
  | _ => obj
  end.

(* ================================================================== *)
(** ** dict_to_flatdict *)
(* ================================================================== *)

Section FlattenLoop.
(** the recursive call [dict_to_flatdict(v, parent=k_parent)] *)
Variable recurse : value -> list key -> res dict.
Variable parent : list key.

(** [for k, v in dct.items(): ...], over the entries still to visit, with
    the list [items] built so far. *)
Fixpoint flatten_loop (entries : dict) (items : list (key * value))
    : res (list (key * value)) :=
  match entries with
  | [] => Ok items
  | (k, v) :: entries' =>
      let k_parent := parent ++ [k] in
      match v with
      | VDict _ =>
          sub <- recurse v k_parent ;;
          flatten_loop entries' (items ++ sub)
      | _ => flatten_loop entries' (items ++ [(CompoundKey k_parent, v)])
      end
  end.
End FlattenLoop.

(** [parent] is [None] or the [CompoundKey] of the keys above [dct];
    [parent or CompoundKey()] makes both [None] and the empty key the empty
    path.  The function calls itself on every value that is a [dict];
    [fuel] bounds the nesting of these calls as in [to_dotdict]. *)
Fixpoint dict_to_flatdict (fuel : nat) (dct : value)
    (parent : option (list key)) {struct fuel} : res dict :=
  match fuel with
  | O => Raise RecursionError
  | S fuel' =>
      let parent := match parent with Some p => p | None => [] end in
      match dct with
      | VDict entries =>
          items <- flatten_loop
                     (fun v k_parent =>
                        dict_to_flatdict fuel' v (Some k_parent))
                     parent entries [] ;;
          Ok (dict_of_items items)
      | VDotDict self =>
          _ <- DotDict.method self "items" ;;
          items <- flatten_loop
                     (fun v k_parent =>
                        dict_to_flatdict fuel' v (Some k_parent))
                     parent self [] ;;
          Ok (dict_of_items items)
      | _ => Raise AttributeError
      end
  end.

(* ================================================================== *)
(** ** flatdict_to_dict *)
(* ================================================================== *)

(** The classes a caller can pass as [dct_class]. *)
Inductive mapping_class : Type := class_dict | class_DotDict.

(** [(dct_class or dict)()]; a class is never falsy. *)
Definition new_mapping (dct_class : option mapping_class) : value :=
  match dct_class with
  | Some class_DotDict => VDotDict []
  | _ => VDict []
  end.

(** [k[:-1]] and [k[-1]]; the latter raises [IndexError] on [()]. *)
Fixpoint split_last (ks : list key) : option (list key * key) :=
  match ks with
  | [] => None
  | [k] => Some ([], k)
  | k :: ks' =>
      match split_last ks' with
      | Some (init, last) => Some (k :: init, last)
      | None => None
      end
  end.

Section Unflatten.
Variable dct_class : option mapping_class.

(** [for ki in path: current_dict = current_dict.setdefault(ki, ...)] and
    then [current_dict[last] = v], returning [current_dict] as it is
    afterwards.  Each [setdefault] returns the object stored under [ki],
    so what is done to it further down is done to that entry. *)
Fixpoint set_path (current_dict : value) (path : list key) (last : key)
    (v : value) : res value :=
  match path with
  | [] => setitem current_dict last v
  | ki :: path' =>
      '(current', child) <-
        call_setdefault current_dict ki (new_mapping dct_class) ;;
      child' <- set_path child path' last v ;;
      Ok (with_child current' ki child')
  end.

(** The body of [for k, v in dct.items()]. *)
Definition unflatten_entry (result : value) (k : key) (v : value)
    : res value :=
  match k with
  | CompoundKey ks =>
      match split_last ks with
      | Some (init, last) => set_path result init last v
      | None => Raise IndexError
      end
  | _ => setitem result k v
  end.

Fixpoint unflatten_loop (result : value) (entries : dict) : res value :=
  match entries with
  | [] => Ok result
  | (k, v) :: entries' =>
      result' <- unflatten_entry result k v ;;
      unflatten_loop result' entries'
  end.
End Unflatten.

(** [dct_class] is [None] when the caller leaves the default. *)
Definition flatdict_to_dict (dct : value) (dct_class : option mapping_class)
    : res value :=
  let result := new_mapping dct_class in
  entries <- call_items dct ;;
  unflatten_loop dct_class result entries.

(* ================================================================== *)
(** ** merge_dicts *)
(* ================================================================== *)

Section MergeLoop.
(** the recursive call [merge_dicts(new_dict[k], d2[k])] *)
Variable recurse : value -> value -> res value.

(** [for k, v in d2.items(): ...] over the entries still to visit. *)
Fixpoint merge_loop (new_dict : value) (entries : dict) : res value :=
  match entries with
  | [] => Ok new_dict
  | (k, v) :: entries' =>
      old <- call_get new_dict k ;;
      new_dict' <-
        match old with
        | Some old_v =>
            if (isinstance_MutableMapping old_v
                && isinstance_MutableMapping v)%bool
            then merged <- recurse old_v v ;; setitem new_dict k merged
            else setitem new_dict k v
        | None => setitem new_dict k v
        end ;;
      merge_loop new_dict' entries'
  end.
End MergeLoop.

(** The function calls itself where both the copy of [d1] and [d2] hold a
    mapping under a key; [fuel] bounds the nesting of these calls as in
    [to_dotdict]. *)
Fixpoint merge_dicts (fuel : nat) (d1 d2 : value) {struct fuel} : res value :=
  match fuel with
  | O => Raise RecursionError
  | S fuel' =>
      new_dict <- call_copy d1 ;;
      match d2 with
      | VDict entries => merge_loop (merge_dicts fuel') new_dict entries
      | VDotDict self =>
          _ <- DotDict.method self "items" ;;
          merge_loop (merge_dicts fuel') new_dict self
      | _ => Raise AttributeError
      end
  end.

(* ================================================================== *)
(** ** merge_dicts over a store of mapping objects *)
(* ================================================================== *)

(** Mappings are objects with identity: two entries, or an argument and an
    entry, can hold the same mapping, and an assignment to it is seen through
    all of them.  Here a mapping is an object of a store, named by its index;
    an entry holds either a reference to such an object or a [Leaf], any
    object that is not a [MutableMapping] and that [merge_dicts] only passes
    on.  A store can be cyclic; the recursion is bounded by [fuel] as
    above. *)
Section Store.
Variable leaf : Type.

Inductive slot : Type :=
| Leaf (x : leaf)
| Ref (l : nat).

Record object : Type := Object
  { class_of : mapping_class;
    entries_of : list (key * slot) }.

Definition store : Type := list object.

(** A new object, placed after all existing ones. *)
Definition alloc (s : store) (o : object) : store * nat :=
  (s ++ [o], List.length s).

Fixpoint store_update (s : store) (l : nat) (o : object) : store :=
  match s, l with
  | [], _ => []
  | _ :: s', O => o :: s'
  | x :: s', S l' => x :: store_update s' l' o
  end.

(** [isinstance(x, MutableMapping)] *)
Definition is_mapping (s : store) (x : option slot) : option nat :=
  match x with
  | Some (Ref l) =>
      match nth_error s l with Some _ => Some l | None => None end
  | _ => None
  end.

(** [o.name(...)] finds the method, unless an entry of a [DotDict]
    instance hides it. *)
Definition method_of (o : object) (name : string) : res unit :=
  match class_of o with
  | class_dict => Ok tt
  | class_DotDict =>
      match dict_get (entries_of o) (KStr name) with
      | Some _ => Raise TypeError
      | None => Ok tt
      end
  end.

(** [o[k] = x], with the test of [DotDict.__setitem__] for a [DotDict]. *)
Definition object_setitem (o : object) (k : key) (x : slot) : res object :=
  match class_of o with
  | class_dict => Ok (Object class_dict (dict_set (entries_of o) k x))
  | class_DotDict =>
      match k with
      | KStr name =>
          if hasattr_MutableMapping name then Raise ValueError
          else Ok (Object class_DotDict (dict_set (entries_of o) k x))
      | _ => Raise TypeError
      end
  end.

(** [self.update(init_dict)] of [DotDict.__init__] *)
Fixpoint object_update (o : object) (entries : list (key * slot))
    : res object :=
  match entries with
  | [] => Ok o
  | (k, x) :: entries' =>
      o' <- object_setitem o k x ;; object_update o' entries'
  end.

(** [o.copy()]: the entries of a [dict] are copied as they are, those of a
    [DotDict] are written one by one into a fresh instance. *)
Definition object_copy (o : object) : res object :=
  _ <- method_of o "copy" ;;
  match class_of o with
  | class_dict => Ok o
  | class_DotDict => object_update (Object class_DotDict []) (entries_of o)
  end.

Section MergeLoopIn.
(** the recursive call, on the store as it is at that point *)
Variable recurse : store -> nat -> nat -> store * res nat.
(** the location of [new_dict] *)
Variable new_dict : nat.

Fixpoint merge_loop_in (s : store) (entries : list (key * slot))
    : store * res unit :=
  match entries with
  | [] => (s, Ok tt)
  | (k, v) :: entries' =>
      match nth_error s new_dict with
      | None => (s, Raise AttributeError)
      | Some o =>
          match method_of o "get" with
          | Raise e => (s, Raise e)
          | Ok _ =>
              let old := dict_get (entries_of o) k in
              match is_mapping s old, is_mapping s (Some v) with
              | Some old_l, Some v_l =>
                  match recurse s old_l v_l with
                  | (s', Raise e) => (s', Raise e)
                  | (s', Ok merged) =>
                      match nth_error s' new_dict with
                      | None => (s', Raise AttributeError)
                      | Some o' =>
                          match object_setitem o' k (Ref merged) with
                          | Raise e => (s', Raise e)
                          | Ok o'' =>
                              merge_loop_in
                                (store_update s' new_dict o'') entries'
                          end
                      end
                  end
              | _, _ =>
                  match object_setitem o k v with
                  | Raise e => (s, Raise e)
                  | Ok o' =>
                      merge_loop_in (store_update s new_dict o') entries'
                  end
              end
          end
      end
  end.
End MergeLoopIn.

(** [merge_dicts(d1, d2)] on the objects at [d1] and [d2]: the store
    afterwards, and the location of the returned mapping or the exception.
    A location outside the store names no object; the call then stops
    with the store as it is. *)
Fixpoint merge_dicts_in (fuel : nat) (s : store) (d1 d2 : nat)
    : store * res nat :=
  match fuel with
  | O => (s, Raise RecursionError)
  | S fuel' =>
      match nth_error s d1, nth_error s d2 with
      | Some o1, Some o2 =>
          match object_copy o1 with
          | Raise e => (s, Raise e)
          | Ok c =>
              let (s1, new_dict) := alloc s c in
              match method_of o2 "items" with
              | Raise e => (s1, Raise e)
              | Ok _ =>
                  match merge_loop_in (merge_dicts_in fuel') new_dict
                          s1 (entries_of o2) with
                  | (s2, Ok _) => (s2, Ok new_dict)
                  | (s2, Raise e) => (s2, Raise e)
                  end
              end
          end
      | _, _ => (s, Raise AttributeError)
      end
  end.
End Store.

(* ================================================================== *)
(** ** to_dotdict, by its description *)
(* ================================================================== *)

(** The conversion as the specification words it: a mapping becomes a
    [DotDict] holding the converted values under the same keys, a list,
    tuple or set becomes a container of the same type holding the converted
    elements, and anything else is returned as it is. *)
Fixpoint to_attribute_mapping (obj : value) : value :=
  match obj with
  | VList vs => VList (map to_attribute_mapping vs)
  | VTuple vs => VTuple (map to_attribute_mapping vs)
  | VCompoundKey vs => VCompoundKey (map to_attribute_mapping vs)
  | VSet vs => VSet (map to_attribute_mapping vs)
  | VDict items | VDotDict items =>
      VDotDict (map (fun kv => (fst kv, to_attribute_mapping (snd kv))) items)
  | _ => obj
  end.

(** The same, with a [DotDict] counted among the values returned as they
    are: what [to_dotdict] returns when it returns. *)
Fixpoint converted (obj : value) : value :=
  match obj with
  | VList vs => VList (map converted vs)
  | VTuple vs => VTuple (map converted vs)
  | VCompoundKey vs => VCompoundKey (map converted vs)
  | VSet vs => VSet (map converted vs)
  | VDict items =>
      VDotDict (map (fun kv => (fst kv, converted (snd kv))) items)
  | _ => obj
  end.

(** [writable], decided. *)
Definition writableb (k : key) : bool :=
  match k with
  | KStr name => negb (hasattr_MutableMapping name)
  | _ => false
  end.

(** Every key of every plain [dict] the conversion visits (through the
    elements of lists, tuples and sets and the values of plain dicts) is one
    that [DotDict.__setitem__] lets through. *)
Fixpoint convertible (obj : value) : bool :=
  match obj with
  | VList vs | VTuple vs | VCompoundKey vs | VSet vs => forallb convertible vs
  | VDict items =>
      forallb (fun kv => convertible (snd kv)) items
      && forallb (fun kv => writableb (fst kv)) items
  | _ => true
  end.

(** No [DotDict] among the objects the conversion visits. *)
Fixpoint plain (obj : value) : bool :=
  match obj with
  | VList vs | VTuple vs | VCompoundKey vs | VSet vs => forallb plain vs
  | VDict items => forallb (fun kv => plain (snd kv)) items
  | VDotDict _ => false
  | _ => true
  end.

(* ================================================================== *)
(** ** Leaves and paths of a nested dictionary *)
(* ================================================================== *)

(** [leaf_at entries path v]: following [path] from the dictionary with
    these entries, through plain dictionaries only, ends at the value [v],
    and [v] is not a plain dictionary. *)
Inductive leaf_at : dict -> list key -> value -> Prop :=
| leaf_here entries k v :
    In (k, v) entries -> isinstance_dict v = false ->
    leaf_at entries [k] v
| leaf_below entries k sub path v :
    In (k, VDict sub) entries -> leaf_at sub path v ->
    leaf_at entries (k :: path) v.

(** The leaves below the entry [(k, v)] of a dictionary found at [parent],
    each with its path from the root, in the order of a depth-first walk. *)
Fixpoint entry_leaves (parent : list key) (k : key) (v : value) {struct v}
    : list (list key * value) :=
  match v with
  | VDict sub =>
      flat_map (fun kv => entry_leaves (parent ++ [k]) (fst kv) (snd kv)) sub
  | _ => [(parent ++ [k], v)]
  end.

Definition leaves (parent : list key) (entries : dict)
    : list (list key * value) :=
  flat_map (fun kv => entry_leaves parent (fst kv) (snd kv)) entries.

(** A path and its leaf as an entry of the flat dictionary. *)
Definition flat_entry (pv : list key * value) : key * value :=
  (CompoundKey (fst pv), snd pv).

(** The entry [(k, v)] without the plain dictionaries that hold no leaf:
    nothing is left of it when [v] is such a dictionary. *)
Fixpoint prune_entry (k : key) (v : value) {struct v} : list (key * value) :=
  match v with
  | VDict sub =>
      match flat_map (fun kv => prune_entry (fst kv) (snd kv)) sub with
      | [] => []
      | sub' => [(k, VDict sub')]
      end
  | _ => [(k, v)]
  end.

Definition prune (entries : dict) : dict :=
  flat_map (fun kv => prune_entry (fst kv) (snd kv)) entries.

(** No plain dictionary met from [v] through plain dictionaries is empty. *)
Fixpoint no_empty_dict (v : value) : bool :=
  match v with
  | VDict sub =>
      match sub with [] => false | _ => true end
      && forallb (fun kv => no_empty_dict (snd kv)) sub
  | _ => true
  end.

(** A path one level further down, below the key [k]. *)
Definition below (k : key) (pv : list key * value) : list key * value :=
  (k :: fst pv, snd pv).

(* ================================================================== *)
(** ** Flat dictionaries that flatdict_to_dict accepts *)
(* ================================================================== *)

(** The path a flat entry is stored at: the sequence of a [CompoundKey],
    the key alone for any other key. *)
Definition key_path (k : key) : list key :=
  match k with
  | CompoundKey ks => ks
  | _ => [k]
  end.

(** [p] is an initial part of [q], keys compared as Python compares them. *)
Fixpoint is_prefix (p q : list key) : bool :=
  match p, q with
  | [], _ => true
  | a :: p', b :: q' => key_eqb a b && is_prefix p' q'
  | _ :: _, [] => false
  end.

(** [p] is an initial part of [q] and shorter than [q]. *)
Definition proper_prefix (p q : list key) : bool :=
  match split_last q with
  | Some (init, _) => is_prefix p init
  | None => false
  end.

(** No path is empty, and no path properly extends the path of an entry
    that comes before it ([seen] holds the paths of the entries before). *)
Fixpoint prefix_free (seen : list (list key)) (entries : dict) : bool :=
  match entries with
  | [] => true
  | (k, _) :: entries' =>
      match key_path k with [] => false | _ => true end
      && forallb (fun p => negb (proper_prefix p (key_path k))) seen
      && prefix_free (key_path k :: seen) entries'
  end.

(** Following [q] from [obj] meets plain dictionaries only, as far as it
    gets, so that an entry can be written at [q] or below. *)
Fixpoint open_at (obj : value) (q : list key) : Prop :=
  exists d,
    obj = VDict d
    /\ match q with
       | [] => True
       | k :: q' =>
           match dict_get d k with
           | Some child => open_at child q'
           | None => True
           end
       end.

(** An object in which nothing can be stored: it is neither a mapping nor
    a list, so it has no [setdefault] and refuses item assignment. *)
Definition sealed (v : value) : bool :=
  match v with
  | VDict _ | VDotDict _ | VList _ => false
  | _ => true
  end.

(** A plain dictionary whose values are sealed objects or dictionaries of
    the same kind: what [flatdict_to_dict] builds from sealed values. *)
Fixpoint dict_tree (v : value) : bool :=
  match v with
  | VDict d => forallb (fun kv => sealed (snd kv) || dict_tree (snd kv)) d
  | _ => false
  end.

(** Following [p] from [obj] through plain dictionaries meets a sealed
    object, at the end of [p] or before. *)
Fixpoint hits_sealed (obj : value) (p : list key) {struct p} : Prop :=
  match p, obj with
  | k :: p', VDict d =>
      match dict_get d k with
      | Some child => sealed child = true \/ hits_sealed child p'
      | None => False
      end
  | _, _ => False
  end.

(* ================================================================== *)
(** ** What merge_dicts returns *)
(* ================================================================== *)

(** The value a mapping holds under [k], if any. *)
Definition mapping_get (m : value) (k : key) : option value :=
  match m with
  | VDict items | VDotDict items => dict_get items k
  | _ => None
  end.

(** [type(m)] for a mapping. *)
Definition class_of_mapping (m : value) : option mapping_class :=
  match m with
  | VDict _ => Some class_dict
  | VDotDict _ => Some class_DotDict
  | _ => None
  end.

(** [x] is what the result is to hold under a key of the second argument:
    the merge of the two values when both are mappings, the value of the
    second argument otherwise.  [fuel] is that of the call made from the
    loop. *)
Definition entry_merged (fuel : nat) (old : option value) (v2 x : value)
    : Prop :=
  match old with
  | Some v1 =>
      if (isinstance_MutableMapping v1 && isinstance_MutableMapping v2)%bool
      then merge_dicts fuel v1 v2 = Ok x
      else x = v2
  | None => x = v2
  end.

Definition is_some (A : Type) (o : option A) : bool :=
  match o with Some _ => true | None => false end.

(** No [DotDict] among the mappings met from [v] through plain
    dictionaries. *)
Fixpoint all_dict (v : value) : bool :=
  match v with
  | VDict items => forallb (fun kv => all_dict (snd kv)) items
  | VDotDict _ => false
  | _ => true
  end.

(* ================================================================== *)
(** ** Objects and values in a store *)
(* ================================================================== *)

(** The objects of [s] at the locations below [n] are in [s'], unchanged,
    and [s'] has not fewer objects than [s]. *)
Definition unchanged_below (leaf : Type) (n : nat) (s s' : store leaf)
    : Prop :=
  List.length s <= List.length s'
  /\ forall l, l < n -> nth_error s' l = nth_error s l.

(** Every reference held by an object of the store names an object of the
    store. *)
Definition closed (leaf : Type) (s : store leaf) : Prop :=
  forall l o k l',
    nth_error s l = Some o -> In (k, Ref leaf l') (entries_of o) ->
    l' < List.length s.

Section ValueAt.
Variable read : nat -> option value.

(** The entries of an object as entries of a [dict], given the values of
    the objects they refer to. *)
Fixpoint read_entries (entries : list (key * slot value)) : option dict :=
  match entries with
  | [] => Some []
  | (k, x) :: entries' =>
      match match x with Leaf v => Some v | Ref _ l => read l end,
            read_entries entries' with
      | Some v, Some d => Some ((k, v) :: d)
      | _, _ => None
      end
  end.
End ValueAt.

(** The value of the mapping at [l], as a tree: the structure that [==]
    compares.  [None] when [fuel] does not reach the leaves. *)
Fixpoint value_at (fuel : nat) (s : store value) (l : nat) : option value :=
  match fuel with
  | O => None
  | S fuel' =>
      match nth_error s l with
      | None => None
      | Some o =>
          match read_entries (value_at fuel' s) (entries_of o) with
          | None => None
          | Some d =>
              Some (match class_of o with
                    | class_dict => VDict d
                    | class_DotDict => VDotDict d
                    end)
          end
      end
  end.

(* ================================================================== *)
(** ** How deep the calls nest *)
(* ================================================================== *)

(** [sys.getrecursionlimit()] of an interpreter started with its
    defaults.  Every call takes a frame, so whatever else is on the stack
    no function nests more calls than this: the fuel of a call is at most
    this number.  The examples take it as the fuel of the outermost call;
    those that return nest at most four calls. *)
Definition recursion_limit : nat := 1000.

(** The number of nested calls [to_dotdict(obj)] comes to: one for [obj],
    and below it the calls for the elements of a list, tuple or set and
    for the values of a plain [dict]. *)
Fixpoint conversion_depth (obj : value) : nat :=
  match obj with
  | VList vs | VTuple vs | VCompoundKey vs | VSet vs =>
      S (list_max (map conversion_depth vs))
  | VDict items =>
      S (list_max (map (fun kv => conversion_depth (snd kv)) items))
  | _ => 1
  end.

(** The number of plain dictionaries nested in one another at [v], [v]
    included: the number of nested calls [dict_to_flatdict(v)] comes to
    for a [dict] [v]. *)
Fixpoint dict_depth (v : value) : nat :=
  match v with
  | VDict items => S (list_max (map (fun kv => dict_depth (snd kv)) items))
  | _ => 0
  end.

(** The same with every mapping counted, a [DotDict] as well as a
    [dict]. *)
Fixpoint mapping_depth (v : value) : nat :=
  match v with
  | VDict items | VDotDict items =>
      S (list_max (map (fun kv => mapping_depth (snd kv)) items))
  | _ => 0
  end.

(** [leaf] under the key "a", [n] dictionaries deep:
    [{"a": {"a": ... leaf}}]. *)
Fixpoint nested (n : nat) (leaf : value) : value :=
  match n with
  | O => leaf
  | S n' => VDict [(KStr "a", nested n' leaf)]
  end.

(* ================================================================== *)
(** ** Notions for the further properties *)
(* ================================================================== *)

(** [isinstance(k, CompoundKey)] *)
Definition is_CompoundKey (k : key) : bool :=
  match k with CompoundKey _ => true | _ => false end.

(** No path of the list is an initial part of another one of the list. *)
Fixpoint antichain (paths : list (list key)) : bool :=
  match paths with
  | [] => true
  | p :: paths' =>
      forallb (fun q => negb (is_prefix p q) && negb (is_prefix q p)) paths'
      && antichain paths'
  end.

(** [obj[k1][k2]...] along [path], through mappings; [None] where a key
    is missing or a non-mapping is met before the end. *)
Fixpoint get_path (obj : value) (path : list key) : option value :=
  match path with
  | [] => Some obj
  | k :: path' =>
      match mapping_get obj k with
      | Some child => get_path child path'
      | None => None
      end
  end.

(** The value with every plain dictionary met through plain dictionaries
    turned into a [DotDict] with the same keys. *)
Fixpoint dot_spine (v : value) : value :=
  match v with
  | VDict sub => VDotDict (map (fun kv => (fst kv, dot_spine (snd kv))) sub)
  | _ => v
  end.

(** Every key of every plain dictionary met through plain dictionaries is
    one that [DotDict.__setitem__] lets through. *)
Fixpoint spine_writable (v : value) : bool :=
  match v with
  | VDict sub =>
      forallb (fun kv => writableb (fst kv) && spine_writable (snd kv)) sub
  | _ => true
  end.

Definition dot_entries (entries : dict) : dict :=
  map (fun kv => (fst kv, dot_spine (snd kv))) entries.

(** The entries of a mapping, in iteration order. *)
Definition entries_of_mapping (m : value) : dict :=
  match m with
  | VDict items | VDotDict items => items
  | _ => []
  end.

(** What [merge_dicts] leaves under a key of its result, given the slots
    [old] of [d1] and [new] of [d2] under that key in the store [s] of the
    call: the slot of [d1] itself where [d2] has no entry, a reference to an
    object allocated after the result (at a location above [n]) where both
    hold a mapping, and the slot of [d2] itself otherwise. *)
Definition merged_slot (leaf : Type) (s : store leaf) (n : nat)
    (old new result : option (slot leaf)) : Prop :=
  match new with
  | None => result = old
  | Some v =>
      match is_mapping s old, is_mapping s (Some v) with
      | Some _, Some _ => exists m, result = Some (Ref leaf m) /\ n < m
      | _, _ => result = Some v
      end
  end.

(* ================================================================== *)
(** * Properties *)
(* ================================================================== *)

Unset Implicit Arguments.

(** ** Equality of keys *)

(** Induction on a key with the hypothesis for every element of a tuple. *)
Lemma key_nested_ind (P : key -> Prop) :
  P KNone ->
  (forall n, P (KInt n)) ->
  (forall s, P (KStr s)) ->
  (forall ks, Forall P ks -> P (KTuple ks)) ->
  (forall ks, Forall P ks -> P (CompoundKey ks)) ->
  forall k, P k.
Proof.
  intros HN HI HS HT HC.
  fix IH 1.
  intros [ | n | s | ks | ks ];
    [ exact HN | apply HI | apply HS | apply HT | apply HC ];
    induction ks as [ | k ks IHks ]; constructor;
    [ apply IH | exact IHks | apply IH | exact IHks ].
Qed.

Lemma all2_untag (l : list key) :
  Forall (fun a => forall b, key_eqb a b = true <-> untag a = untag b) l ->
  forall r, all2 key_eqb l r = true <-> map untag l = map untag r.
Proof.
  induction 1 as [ | a l Ha _ IH ]; intros [ | b r ]; simpl;
    try (split; congruence).
  rewrite andb_true_iff, Ha, IH. split.
  - intros [-> ->]. reflexivity.
  - intros E. injection E. auto.
Qed.

Lemma key_eqb_untag (a b : key) :
  key_eqb a b = true <-> untag a = untag b.
Proof.
  revert b. induction a as [ | m | s | l IH | l IH ] using key_nested_ind;
    intros [ | n | t | r | r ]; simpl; try (split; congruence);
    try (rewrite Z.eqb_eq; split; congruence);
    try (rewrite String.eqb_eq; split; congruence);
    rewrite (all2_untag _ IH); split; congruence.
Qed.

Lemma key_eqb_refl (k : key) : key_eqb k k = true.
Proof. apply key_eqb_untag. reflexivity. Qed.

Lemma key_eqb_sym (a b : key) : key_eqb a b = key_eqb b a.
Proof.
  destruct (key_eqb a b) eqn:E1, (key_eqb b a) eqn:E2; trivial.
  - apply key_eqb_untag in E1. symmetry in E1.
    apply key_eqb_untag in E1. congruence.
  - apply key_eqb_untag in E2. symmetry in E2.
    apply key_eqb_untag in E2. congruence.
Qed.

Lemma key_eqb_trans (a b c : key) :
  key_eqb a b = true -> key_eqb b c = true -> key_eqb a c = true.
Proof. rewrite !key_eqb_untag. congruence. Qed.

(** Equal keys are interchangeable on the right of a comparison. *)
Lemma key_eqb_congr (a b c : key) :
  key_eqb a b = true -> key_eqb c a = key_eqb c b.
Proof.
  intros E. destruct (key_eqb c a) eqn:E1, (key_eqb c b) eqn:E2; trivial.
  - rewrite (key_eqb_trans _ _ _ E1 E) in E2. discriminate.
  - rewrite key_eqb_sym in E.
    rewrite (key_eqb_trans _ _ _ E2 E) in E1. discriminate.
Qed.

(** ** Lookup and assignment in a dictionary *)

Section EntriesFacts.
Variable V : Type.
Implicit Types (d : list (key * V)) (k : key) (v : V).

Lemma dict_get_congr d k k' :
  key_eqb k k' = true -> dict_get d k = dict_get d k'.
Proof.
  intros E. induction d as [ | [j w] d IH ]; simpl; trivial.
  rewrite (key_eqb_congr _ _ j E), IH. reflexivity.
Qed.

Lemma dict_get_set_same d k v : dict_get (dict_set d k v) k = Some v.
Proof.
  induction d as [ | [j w] d IH ]; simpl.
  - rewrite key_eqb_refl. reflexivity.
  - destruct (key_eqb j k) eqn:E; simpl; rewrite E; auto.
Qed.

Lemma dict_get_set_other d k k' v :
  key_eqb k k' = false -> dict_get (dict_set d k v) k' = dict_get d k'.
Proof.
  intros N. induction d as [ | [j w] d IH ]; simpl.
  - rewrite N. reflexivity.
  - destruct (key_eqb j k) eqn:E; simpl.
    + assert (key_eqb j k' = false) as ->.
      { destruct (key_eqb j k') eqn:E'; trivial.
        rewrite key_eqb_sym in E.
        rewrite (key_eqb_trans _ _ _ E E') in N. discriminate. }
      reflexivity.
    + rewrite IH. reflexivity.
Qed.

Lemma dict_get_set d k k' v :
  dict_get (dict_set d k v) k' =
  if key_eqb k k' then Some v else dict_get d k'.
Proof.
  destruct (key_eqb k k') eqn:E.
  - rewrite <- (dict_get_congr _ _ _ E). apply dict_get_set_same.
  - apply dict_get_set_other, E.
Qed.

Lemma dict_get_none_existsb d k :
  dict_get d k = None <-> existsb (key_eqb k) (map fst d) = false.
Proof.
  induction d as [ | [j w] d IH ]; simpl.
  - tauto.
  - rewrite (key_eqb_sym k j). destruct (key_eqb j k); simpl.
    + split; discriminate.
    + exact IH.
Qed.

(** Assigning to an absent key appends the entry. *)
Lemma dict_set_absent d k v :
  dict_get d k = None -> dict_set d k v = d ++ [(k, v)].
Proof.
  induction d as [ | [j w] d IH ]; simpl; trivial.
  destruct (key_eqb j k); [ discriminate | ].
  intros H. rewrite (IH H). reflexivity.
Qed.

Lemma dict_set_set d k v v' :
  dict_set (dict_set d k v) k v' = dict_set d k v'.
Proof.
  induction d as [ | [j w] d IH ]; simpl.
  - rewrite key_eqb_refl. reflexivity.
  - destruct (key_eqb j k) eqn:E; simpl; rewrite E; congruence.
Qed.

Lemma dict_set_keys d k v :
  map fst (dict_set d k v) =
  if existsb (key_eqb k) (map fst d) then map fst d else map fst d ++ [k].
Proof.
  induction d as [ | [j w] d IH ]; simpl; trivial.
  rewrite (key_eqb_sym k j).
  destruct (key_eqb j k); simpl; trivial.
  rewrite IH. destruct (existsb (key_eqb k) (map fst d)); reflexivity.
Qed.
End EntriesFacts.

(* ================================================================== *)
(** ** DotDict *)
(* ================================================================== *)

Lemma setitem_ok_inv (self self' : DotDict.t) (k : key) (v : value) :
  DotDict.__setitem__ self k v = Ok self' ->
  writable k /\ self' = dict_set self k v.
Proof.
  unfold DotDict.__setitem__, writable.
  destruct k as [ | n | name | ks | ks ]; try discriminate.
  destruct (hasattr_MutableMapping name) eqn:E; try discriminate.
  intros [= <-]. eauto.
Qed.

Lemma setitem_writable (self : DotDict.t) (k : key) (v : value) :
  writable k -> DotDict.__setitem__ self k v = Ok (dict_set self k v).
Proof.
  intros (name & -> & E). unfold DotDict.__setitem__. rewrite E. reflexivity.
Qed.

Lemma dict_set_keys_Forall (P : key -> Prop) (d : dict) (k : key) (v : value) :
  P k -> Forall P (dict_keys d) -> Forall P (dict_keys (dict_set d k v)).
Proof.
  unfold dict_keys. intros Hk Hd. rewrite dict_set_keys.
  destruct (existsb _ _); trivial.
  apply Forall_app. split; auto.
Qed.

Lemma dict_del_keys_Forall (P : key -> Prop) (d : dict) (k : key) :
  Forall P (dict_keys d) -> Forall P (dict_keys (dict_del d k)).
Proof.
  unfold dict_keys. induction d as [ | [j w] d IH ]; simpl; trivial.
  intros H. inversion H; subst.
  destruct (key_eqb j k); simpl; auto.
Qed.

Lemma update_keys (other : dict) :
  forall self : DotDict.t,
    Forall writable (dict_keys self) ->
    Forall writable (dict_keys (fst (DotDict.update self other))).
Proof.
  induction other as [ | [k v] other IH ]; intros self H; simpl; trivial.
  destruct (DotDict.__setitem__ self k v) as [ self' | e ] eqn:E; trivial.
  apply IH. apply setitem_ok_inv in E as [Hk ->].
  apply dict_set_keys_Forall; assumption.
Qed.

Lemma init_keys (init_dict : option dict) (kwargs : list (string * value))
    (self : DotDict.t) :
  DotDict.__init__ init_dict kwargs = Ok self ->
  Forall writable (dict_keys self).
Proof.
  unfold DotDict.__init__.
  destruct (DotDict.binds_parameter kwargs); [ discriminate | ].
  set (kw := map _ kwargs). clearbody kw.
  assert (forall s0 : DotDict.t, Forall writable (dict_keys s0) ->
            match DotDict.update s0 kw with
            | (self', None) => Ok self'
            | (_, Some e) => Raise e
            end = Ok self -> Forall writable (dict_keys self)) as Hkw.
  { intros s0 H0 E. pose proof (update_keys kw s0 H0) as H.
    destruct (DotDict.update s0 kw) as [s1 [e | ]]; simpl in *;
      try discriminate.
    inversion E; subst. exact H. }
  destruct init_dict as [ [ | kv d ] | ].
  - apply Hkw. constructor.
  - pose proof (update_keys (kv :: d) [] (Forall_nil _)) as H.
    destruct (DotDict.update [] (kv :: d)) as [s1 [e | ]]; unfold bind.
    + discriminate.
    + apply Hkw. exact H.
  - apply Hkw. constructor.
Qed.

(** Every instance obtained through the class holds only keys that
    [__setitem__] lets through. *)
Lemma reachable_keys (self : DotDict.t) :
  DotDict.reachable self -> Forall writable (dict_keys self).
Proof.
  induction 1 as
    [ init_dict kwargs self E
    | self k v self' _ IH E
    | self attr v self' _ IH E
    | self k self' _ IH E
    | self other _ IH
    | self k dflt self' v _ IH E
    | self k self' v _ IH E
    | self self' kv _ IH E
    | self _ IH
    | self self' _ IH E ].
  - eapply init_keys, E.
  - apply setitem_ok_inv in E as [Hk ->].
    apply dict_set_keys_Forall; assumption.
  - unfold DotDict.__setattr__ in E.
    apply setitem_ok_inv in E as [Hk ->].
    apply dict_set_keys_Forall; assumption.
  - unfold DotDict.__delitem__ in E.
    destruct (dict_get self k); try discriminate.
    inversion E; subst. apply dict_del_keys_Forall, IH.
  - apply update_keys, IH.
  - unfold DotDict.setdefault in E.
    destruct (dict_get self k).
    + inversion E; subst. exact IH.
    + destruct (DotDict.__setitem__ self k dflt) as [s1 | e] eqn:E1;
        simpl in E; try discriminate.
      inversion E; subst.
      apply setitem_ok_inv in E1 as [Hk ->].
      apply dict_set_keys_Forall; assumption.
  - unfold DotDict.pop, DotDict.__getitem__, DotDict.__delitem__ in E.
    destruct (dict_get self k); simpl in E; try discriminate.
    inversion E; subst. apply dict_del_keys_Forall, IH.
  - unfold DotDict.popitem, DotDict.__getitem__, DotDict.__delitem__ in E.
    destruct (DotDict.__iter__ self) as [ | k ks ]; try discriminate.
    destruct (dict_get self k); simpl in E; try discriminate.
    inversion E; subst. apply dict_del_keys_Forall, IH.
  - constructor.
  - unfold DotDict.copy in E. eapply init_keys, E.
Qed.

Lemma dict_get_In_keys (V : Type) (d : list (key * V)) (k : key) (v : V) :
  dict_get d k = Some v ->
  exists k', In k' (map fst d) /\ key_eqb k' k = true.
Proof.
  induction d as [ | [j w] d IH ]; simpl; try discriminate.
  destruct (key_eqb j k) eqn:E.
  - intros _. exists j. auto.
  - intros H. destruct (IH H) as (k' & Hin & Hk). eauto.
Qed.

Lemma key_eqb_KStr (k : key) (name : string) :
  key_eqb k (KStr name) = true -> k = KStr name.
Proof.
  destruct k; simpl; try discriminate.
  rewrite String.eqb_eq. congruence.
Qed.

(** A name present in a reachable instance is not one of [MutableMapping]. *)
Lemma reachable_present (self : DotDict.t) (name : string) (v : value) :
  DotDict.reachable self ->
  dict_get self (KStr name) = Some v ->
  hasattr_MutableMapping name = false.
Proof.
  intros R G. apply reachable_keys in R.
  destruct (dict_get_In_keys _ _ _ _ G) as (k' & Hin & Hk).
  apply key_eqb_KStr in Hk. subst k'.
  rewrite Forall_forall in R.
  destruct (R _ Hin) as (n & [= <-] & Hn). exact Hn.
Qed.

(** C4: setting a key named like an attribute of [MutableMapping], for
    instance "keys", "items", "get" or "update", fails with the error of
    [__setitem__], [ValueError("no sir")] (the specification's
    [ReservedKeyError]); attribute assignment goes the same way. *)
Theorem reserved_key_raises (self : DotDict.t) (name : string) (v : value) :
  hasattr_MutableMapping name = true
  \/ In name ["keys"; "items"; "get"; "update"] ->
  DotDict.__setitem__ self (KStr name) v = Raise ValueError
  /\ DotDict.__setattr__ self name v = Raise ValueError.
Proof.
  intros H.
  assert (hasattr_MutableMapping name = true) as E.
  { destruct H as [ H | H ]; trivial.
    simpl in H. intuition (subst; reflexivity). }
  unfold DotDict.__setattr__, DotDict.__setitem__. rewrite E. auto.
Qed.

(** [m["items"] = 1] raises, on the empty instance. *)
Lemma reserved_key_raises_items :
  DotDict.__setitem__ [] (KStr "items") (VInt 1) = Raise ValueError
  /\ DotDict.__setattr__ [] "items" (VInt 1) = Raise ValueError.
Proof.
  apply (reserved_key_raises [] "items" (VInt 1)).
  right. simpl. auto.
Defined.

(** C9: [__setitem__] raises its [ValueError] exactly for the strings that
    name an attribute of [MutableMapping], and accepts every other string;
    "copy", which [DotDict] defines and [MutableMapping] does not, is
    accepted on every instance, and afterwards both [m["copy"]] and
    [m.copy] are the stored value, so the method can no longer be called on
    that instance. *)
Theorem setitem_rejects_MutableMapping_attrs :
  (forall (self : DotDict.t) (k : key) (v : value),
      DotDict.__setitem__ self k v = Raise ValueError <->
      exists name, k = KStr name /\ hasattr_MutableMapping name = true)
  /\ (forall (self : DotDict.t) (name : string) (v : value),
      hasattr_MutableMapping name = false ->
      DotDict.__setitem__ self (KStr name) v
      = Ok (dict_set self (KStr name) v))
  /\ hasattr_MutableMapping "copy" = false
  /\ DotDict.__getattribute__ [] "copy" = Ok (AMember "copy")
  /\ (forall (self : DotDict.t) (v : value),
      exists self',
        DotDict.__setitem__ self (KStr "copy") v = Ok self'
        /\ DotDict.__getitem__ self' (KStr "copy") = Ok v
        /\ DotDict.__getattribute__ self' "copy" = Ok (AValue v)
        /\ DotDict.method self' "copy" = Raise TypeError).
Proof.
  split; [ | split; [ | split; [ | split ] ] ].
  - intros self k v. unfold DotDict.__setitem__. split.
    + destruct k as [ | n | name | ks | ks ]; try discriminate.
      destruct (hasattr_MutableMapping name) eqn:E; try discriminate.
      eauto.
    + intros (name & -> & ->). reflexivity.
  - intros self name v E. unfold DotDict.__setitem__. rewrite E. reflexivity.
  - reflexivity.
  - reflexivity.
  - intros self v. exists (dict_set self (KStr "copy") v).
    assert (dict_get (dict_set self (KStr "copy") v) (KStr "copy") = Some v)
      as G by apply dict_get_set_same.
    unfold DotDict.method, DotDict.__getattribute__, DotDict.__getitem__.
    simpl. rewrite G. auto.
Qed.

(** On an instance holding [a], the key "copy" is written and read back and
    the key "update" is refused. *)
Lemma setitem_rejects_MutableMapping_attrs_witness :
  DotDict.__setitem__ [(KStr "a", VInt 1)] (KStr "copy") (VInt 2)
  = Ok [(KStr "a", VInt 1); (KStr "copy", VInt 2)]
  /\ DotDict.__setitem__ [(KStr "a", VInt 1)] (KStr "update") (VInt 2)
     = Raise ValueError.
Proof.
  destruct setitem_rejects_MutableMapping_attrs as (Hiff & Hok & _).
  split.
  - apply (Hok [(KStr "a", VInt 1)] "copy" (VInt 2)). reflexivity.
  - apply (Hiff [(KStr "a", VInt 1)] (KStr "update") (VInt 2)).
    exists "update". split; reflexivity.
Defined.

(** C10: a write with a key that is not a string raises ([TypeError], from
    [hasattr]); the constructor, [update] and the other operations write
    through [__setitem__] only, so every instance obtained through the class
    holds string keys only. *)
Theorem DotDict_keys_are_strings :
  (forall (self : DotDict.t) (k : key) (v : value),
      (forall name, k <> KStr name) ->
      DotDict.__setitem__ self k v = Raise TypeError
      /\ fst (DotDict.update self [(k, v)]) = self
      /\ DotDict.__init__ (Some [(k, v)]) [] = Raise TypeError)
  /\ (forall self : DotDict.t,
      DotDict.reachable self ->
      forall k, In k (DotDict.__iter__ self) -> exists name, k = KStr name).
Proof.
  split.
  - intros self k v H.
    assert (forall s : DotDict.t, DotDict.__setitem__ s k v = Raise TypeError)
      as E.
    { intros s. destruct k as [ | n | name | ks | ks ]; try reflexivity.
      destruct (H name). reflexivity. }
    split; [ apply E | ].
    unfold DotDict.__init__. simpl. rewrite !E. auto.
  - intros self R k Hin. apply reachable_keys in R.
    rewrite Forall_forall in R.
    destruct (R k Hin) as (name & -> & _). eauto.
Qed.

(** [m[1] = 2] raises on the instance built by [DotDict(a=1)], whose only
    key is the string "a". *)
Lemma DotDict_keys_are_strings_witness :
  DotDict.__setitem__ [(KStr "a", VInt 1)] (KInt 1) (VInt 2) = Raise TypeError
  /\ (forall k, In k (DotDict.__iter__ [(KStr "a", VInt 1)]) ->
      exists name, k = KStr name).
Proof.
  destruct DotDict_keys_are_strings as (Hraise & Hreach).
  split.
  - apply (Hraise [(KStr "a", VInt 1)] (KInt 1) (VInt 2)).
    intros name. discriminate.
  - apply (Hreach [(KStr "a", VInt 1)]).
    apply (@DotDict.reach_init None [("a", VInt 1)]). reflexivity.
Defined.

Lemma getattribute_entry (self : DotDict.t) (name : string) (v : value) :
  name <> "__class__" -> name <> "__dict__" -> name <> "__weakref__" ->
  dict_get self (KStr name) = Some v ->
  DotDict.__getattribute__ self name = Ok (AValue v).
Proof.
  intros H1 H2 H3 G. unfold DotDict.__getattribute__.
  apply String.eqb_neq in H1, H2, H3. rewrite H1, H2, H3, G. reflexivity.
Qed.

(** C5, as the code has it: in every instance obtained through the class,
    for every key present other than "__weakref__", the field and the entry
    read the same value; assigning the field is assigning the entry, and
    after either both reads give the value written.  In particular after
    [m.foo = 5] both [m["foo"]] and [m.foo] are 5, and after [m["bar"] = 6]
    [m.bar] is 6. *)
Theorem field_and_entry_agree :
  (forall (self : DotDict.t) (name : string) (v : value),
      DotDict.reachable self -> name <> "__weakref__" ->
      DotDict.__getitem__ self (KStr name) = Ok v ->
      DotDict.__getattribute__ self name = Ok (AValue v))
  /\ (forall (self : DotDict.t) (attr : string) (v : value),
      DotDict.__setattr__ self attr v = DotDict.__setitem__ self (KStr attr) v)
  /\ (forall (self self' : DotDict.t) (name : string) (v : value),
      name <> "__weakref__" ->
      DotDict.__setattr__ self name v = Ok self' ->
      DotDict.__getitem__ self' (KStr name) = Ok v
      /\ DotDict.__getattribute__ self' name = Ok (AValue v))
  /\ (forall self : DotDict.t,
      exists self',
        DotDict.__setattr__ self "foo" (VInt 5) = Ok self'
        /\ DotDict.__getitem__ self' (KStr "foo") = Ok (VInt 5)
        /\ DotDict.__getattribute__ self' "foo" = Ok (AValue (VInt 5)))
  /\ (forall self : DotDict.t,
      exists self',
        DotDict.__setitem__ self (KStr "bar") (VInt 6) = Ok self'
        /\ DotDict.__getattribute__ self' "bar" = Ok (AValue (VInt 6))).
Proof.
  assert (forall (self self' : DotDict.t) (name : string) (v : value),
      name <> "__weakref__" ->
      DotDict.__setattr__ self name v = Ok self' ->
      DotDict.__getitem__ self' (KStr name) = Ok v
      /\ DotDict.__getattribute__ self' name = Ok (AValue v)) as Hset.
  { intros self self' name v Hw E. unfold DotDict.__setattr__ in E.
    apply setitem_ok_inv in E as [(n & [= <-] & Hn) ->].
    assert (dict_get (dict_set self (KStr name) v) (KStr name) = Some v)
      as G by apply dict_get_set_same.
    split.
    - unfold DotDict.__getitem__. rewrite G. reflexivity.
    - apply getattribute_entry; trivial; intros ->; discriminate. }
  split; [ | split; [ | split; [ | split ] ] ].
  - intros self name v R Hw G. unfold DotDict.__getitem__ in G.
    destruct (dict_get self (KStr name)) as [ w | ] eqn:E; try discriminate.
    inversion G; subst w.
    pose proof (reachable_present _ _ _ R E) as Hn.
    apply getattribute_entry; trivial; intros ->; discriminate.
  - reflexivity.
  - exact Hset.
  - intros self. exists (dict_set self (KStr "foo") (VInt 5)).
    assert (DotDict.__setattr__ self "foo" (VInt 5)
            = Ok (dict_set self (KStr "foo") (VInt 5))) as E by reflexivity.
    split; trivial. apply (Hset self); trivial. discriminate.
  - intros self. exists (dict_set self (KStr "bar") (VInt 6)).
    split; [ reflexivity | ].
    apply (Hset self _ "bar" (VInt 6)); [ discriminate | reflexivity ].
Qed.

(** On the instance built by [DotDict(a=34)], [m.a] is [m["a"]]. *)
Lemma field_and_entry_agree_witness :
  DotDict.__getattribute__ [(KStr "a", VInt 34)] "a" = Ok (AValue (VInt 34)).
Proof.
  apply (proj1 field_and_entry_agree [(KStr "a", VInt 34)] "a" (VInt 34)).
  - apply (@DotDict.reach_init None [("a", VInt 34)]). reflexivity.
  - discriminate.
  - reflexivity.
Defined.

(** C5 as stated fails for the key "__weakref__": [m["__weakref__"] = 5] is
    accepted on a fresh instance, the entry then reads 5, and the field
    [m.__weakref__] reads [None]. *)
Lemma weakref_field_is_not_the_entry :
  DotDict.__init__ None [] = Ok []
  /\ DotDict.__setitem__ [] (KStr "__weakref__") (VInt 5)
     = Ok [(KStr "__weakref__", VInt 5)]
  /\ DotDict.reachable [(KStr "__weakref__", VInt 5)]
  /\ DotDict.__getitem__ [(KStr "__weakref__", VInt 5)] (KStr "__weakref__")
     = Ok (VInt 5)
  /\ DotDict.__getattribute__ [(KStr "__weakref__", VInt 5)] "__weakref__"
     = Ok (AValue VNone)
  /\ ~ (forall (self : DotDict.t) (name : string) (v : value),
         DotDict.reachable self ->
         DotDict.__getitem__ self (KStr name) = Ok v ->
         DotDict.__getattribute__ self name = Ok (AValue v)).
Proof.
  assert (DotDict.reachable [(KStr "__weakref__", VInt 5)]) as R.
  { apply (@DotDict.reach_setitem [] (KStr "__weakref__") (VInt 5)).
    - apply (@DotDict.reach_init None []). reflexivity.
    - reflexivity. }
  repeat split; trivial.
  intros H.
  specialize (H [(KStr "__weakref__", VInt 5)] "__weakref__" (VInt 5) R
                eq_refl).
  discriminate H.
Qed.

(* ================================================================== *)
(** ** Induction on values *)
(* ================================================================== *)

Lemma value_nested_ind (P : value -> Prop) :
  P VNone ->
  (forall n, P (VInt n)) ->
  (forall s, P (VStr s)) ->
  (forall vs, Forall P vs -> P (VTuple vs)) ->
  (forall vs, Forall P vs -> P (VCompoundKey vs)) ->
  (forall vs, Forall P vs -> P (VList vs)) ->
  (forall vs, Forall P vs -> P (VSet vs)) ->
  (forall items, Forall (fun kv => P (snd kv)) items -> P (VDict items)) ->
  (forall items, Forall (fun kv => P (snd kv)) items -> P (VDotDict items)) ->
  forall v, P v.
Proof.
  intros HN HI HS HT HC HL HSet HD HDD.
  fix IH 1.
  intros [ | n | s | vs | vs | vs | vs | items | items ].
  - exact HN.
  - apply HI.
  - apply HS.
  - apply HT. induction vs as [ | v vs IHvs ]; constructor;
      [ apply IH | exact IHvs ].
  - apply HC. induction vs as [ | v vs IHvs ]; constructor;
      [ apply IH | exact IHvs ].
  - apply HL. induction vs as [ | v vs IHvs ]; constructor;
      [ apply IH | exact IHvs ].
  - apply HSet. induction vs as [ | v vs IHvs ]; constructor;
      [ apply IH | exact IHvs ].
  - apply HD. induction items as [ | [k v] items IHitems ]; constructor;
      [ apply IH | exact IHitems ].
  - apply HDD. induction items as [ | [k v] items IHitems ]; constructor;
      [ apply IH | exact IHitems ].
Qed.

(* ================================================================== *)
(** ** to_dotdict *)
(* ================================================================== *)

Lemma writableb_spec (k : key) : writableb k = true <-> writable k.
Proof.
  unfold writable. destruct k as [ | n | name | ks | ks ]; simpl;
    try (split; [ discriminate | intros (n' & [=] & _) ]).
  rewrite negb_true_iff. split.
  - eauto.
  - intros (n' & [= <-] & E). exact E.
Qed.

Lemma setitem_not_writable (self : DotDict.t) (k : key) (v : value) :
  writableb k = false ->
  exists e, DotDict.__setitem__ self k v = Raise e
            /\ (e = ValueError \/ e = TypeError).
Proof.
  unfold DotDict.__setitem__.
  destruct k as [ | n | name | ks | ks ]; simpl; eauto.
  rewrite negb_false_iff. intros ->. eauto.
Qed.

Lemma keys_unique_mid (l1 l2 : list key) (k : key) :
  keys_unique (l1 ++ k :: l2) = true -> existsb (key_eqb k) l1 = false.
Proof.
  induction l1 as [ | a l1 IH ]; simpl; trivial.
  rewrite andb_true_iff, negb_true_iff, existsb_app. simpl.
  intros [H1 H2].
  apply orb_false_iff in H1 as [_ H1].
  apply orb_false_iff in H1 as [H1 _].
  rewrite (key_eqb_sym k a), H1. simpl. auto.
Qed.

(** Writing entries with acceptable, pairwise distinct keys that the
    instance does not hold yet appends them in order. *)
Lemma update_fresh (other : dict) :
  forall self : DotDict.t,
    keys_unique (map fst self ++ map fst other) = true ->
    forallb (fun kv => writableb (fst kv)) other = true ->
    DotDict.update self other = (self ++ other, None).
Proof.
  induction other as [ | [k v] other IH ]; intros self U W; simpl.
  - rewrite app_nil_r. reflexivity.
  - simpl in W. apply andb_true_iff in W as [Wk W].
    rewrite setitem_writable by (apply writableb_spec, Wk).
    simpl in U.
    rewrite dict_set_absent
      by (apply dict_get_none_existsb, (keys_unique_mid _ _ _ U)).
    rewrite IH.
    + rewrite <- app_assoc. reflexivity.
    + rewrite map_app, <- app_assoc. exact U.
    + exact W.
Qed.

Lemma update_ok_writable (other : dict) :
  forall self self' : DotDict.t,
    DotDict.update self other = (self', None) ->
    forallb (fun kv => writableb (fst kv)) other = true.
Proof.
  induction other as [ | [k v] other IH ]; intros self self' E; simpl; trivial.
  simpl in E.
  destruct (DotDict.__setitem__ self k v) as [ s1 | e ] eqn:E1;
    try discriminate.
  apply setitem_ok_inv in E1 as [Hk _].
  apply writableb_spec in Hk. rewrite Hk. simpl. eapply IH, E.
Qed.

Lemma update_raises (other : dict) :
  forall (self self' : DotDict.t) (e : exn),
    DotDict.update self other = (self', Some e) ->
    e = ValueError \/ e = TypeError.
Proof.
  induction other as [ | [k v] other IH ]; intros self self' e E; simpl in E.
  - discriminate.
  - destruct (DotDict.__setitem__ self k v) as [ s1 | e1 ] eqn:E1.
    + eapply IH, E.
    + inversion E; subst.
      unfold DotDict.__setitem__ in E1.
      destruct k; try (inversion E1; auto).
      destruct (hasattr_MutableMapping s); inversion E1; auto.
Qed.

Lemma init_dict_fresh (items : dict) :
  keys_unique (map fst items) = true ->
  forallb (fun kv => writableb (fst kv)) items = true ->
  DotDict.__init__ (Some items) [] = Ok items.
Proof.
  intros U W. unfold DotDict.__init__.
  cbn [DotDict.binds_parameter existsb].
  destruct items as [ | kv items ]; [ reflexivity | ].
  rewrite (update_fresh (kv :: items) []) by assumption.
  reflexivity.
Qed.

Lemma init_dict_ok_writable (items self : dict) :
  DotDict.__init__ (Some items) [] = Ok self ->
  forallb (fun kv => writableb (fst kv)) items = true.
Proof.
  unfold DotDict.__init__.
  cbn [DotDict.binds_parameter existsb].
  destruct items as [ | kv items ]; [ reflexivity | ].
  destruct (DotDict.update [] (kv :: items)) as [s1 [ e | ]] eqn:E.
  - discriminate.
  - intros _. eapply update_ok_writable, E.
Qed.

Lemma init_dict_raises (items : dict) (e : exn) :
  DotDict.__init__ (Some items) [] = Raise e ->
  e = ValueError \/ e = TypeError.
Proof.
  unfold DotDict.__init__.
  cbn [DotDict.binds_parameter existsb].
  destruct items as [ | kv items ]; [ discriminate | ].
  destruct (DotDict.update [] (kv :: items)) as [s1 [ e1 | ]] eqn:E;
    unfold bind.
  - intros [= <-]. eapply update_raises, E.
  - simpl. discriminate.
Qed.

Section TraverseFacts.
Variables (f : value -> res value) (g : value -> value).

Lemma map_res_ok (l : list value) :
  Forall (fun v => f v = Ok (g v)) l -> map_res f l = Ok (map g l).
Proof.
  induction 1 as [ | v l Hv _ IH ]; simpl; trivial.
  rewrite Hv, IH. reflexivity.
Qed.

Lemma map_res_items_ok (items : dict) :
  Forall (fun kv => f (snd kv) = Ok (g (snd kv))) items ->
  map_res_items f items = Ok (map (fun kv => (fst kv, g (snd kv))) items).
Proof.
  induction 1 as [ | [k v] items Hv _ IH ]; simpl in *; trivial.
  rewrite Hv, IH. reflexivity.
Qed.

Lemma map_res_inv (l l' : list value) :
  map_res f l = Ok l' -> Forall (fun v => exists r, f v = Ok r) l.
Proof.
  revert l'. induction l as [ | v l IH ]; intros l'; simpl; [ constructor | ].
  destruct (f v) as [ r | e ] eqn:E; simpl; try discriminate.
  destruct (map_res f l) as [ l1 | e ]; simpl; try discriminate.
  intros _. constructor; eauto.
Qed.

Lemma map_res_items_inv (items items' : dict) :
  map_res_items f items = Ok items' ->
  Forall (fun kv => exists r, f (snd kv) = Ok r) items
  /\ map fst items' = map fst items.
Proof.
  revert items'.
  induction items as [ | [k v] items IH ]; intros items'; simpl.
  - intros [= <-]. split; [ constructor | reflexivity ].
  - destruct (f v) as [ r | e ] eqn:E; simpl; try discriminate.
    destruct (map_res_items f items) as [ l1 | e ]; simpl; try discriminate.
    intros [= <-]. destruct (IH l1 eq_refl) as [IH1 IH2]. split.
    + constructor; simpl; eauto.
    + simpl. congruence.
Qed.

Lemma map_res_raise (l : list value) (e : exn) :
  map_res f l = Raise e -> exists v, In v l /\ f v = Raise e.
Proof.
  induction l as [ | v l IH ]; simpl; try discriminate.
  destruct (f v) as [ r | e1 ] eqn:E; simpl.
  - destruct (map_res f l) as [ l1 | e2 ]; simpl; try discriminate.
    intros [= <-]. destruct (IH eq_refl) as (w & Hin & Hw). eauto.
  - intros [= <-]. eauto.
Qed.

Lemma map_res_items_raise (items : dict) (e : exn) :
  map_res_items f items = Raise e ->
  exists kv, In kv items /\ f (snd kv) = Raise e.
Proof.
  induction items as [ | [k v] items IH ]; simpl; try discriminate.
  destruct (f v) as [ r | e1 ] eqn:E; simpl.
  - destruct (map_res_items f items) as [ l1 | e2 ]; simpl; try discriminate.
    intros [= <-]. destruct (IH eq_refl) as (w & Hin & Hw). eauto.
  - intros [= <-]. exists (k, v). eauto.
Qed.
End TraverseFacts.

(** ** The depth of nesting *)

Lemma list_max_map_le (A : Type) (f : A -> nat) (l : list A) (n : nat) :
  list_max (map f l) <= n <-> (forall x, In x l -> f x <= n).
Proof.
  rewrite list_max_le, Forall_map, Forall_forall. reflexivity.
Qed.

Lemma list_max_map_In (A : Type) (f : A -> nat) (l : list A) (x : A) :
  In x l -> f x <= list_max (map f l).
Proof.
  intros Hin.
  apply (proj1 (list_max_map_le A f l (list_max (map f l))) (le_n _) x Hin).
Qed.

Lemma list_max_map_lt (A : Type) (f : A -> nat) (l : list A) (n : nat) :
  n < list_max (map f l) -> exists x, In x l /\ n < f x.
Proof.
  induction l as [ | a l IH ]; simpl; [ lia | ].
  intros H. destruct (Nat.lt_ge_cases n (f a)) as [ Ha | Ha ].
  - exists a. auto.
  - destruct IH as (x & Hin & Hx); [ lia | eauto ].
Qed.

Lemma conversion_depth_pos (obj : value) : 1 <= conversion_depth obj.
Proof. destruct obj; simpl; lia. Qed.

(** ** to_dotdict: what it returns and what it raises *)

(** On an input whose dictionaries have acceptable keys, nested no deeper
    than the calls may nest, the conversion returns, and returns the
    converted object. *)
Lemma to_dotdict_convertible (fuel : nat) :
  forall obj : value,
    conversion_depth obj <= fuel ->
    wf_value obj = true -> convertible obj = true ->
    to_dotdict fuel obj = Ok (converted obj).
Proof.
  induction fuel as [ | fuel IH ]; intros obj D W C.
  - pose proof (conversion_depth_pos obj). lia.
  - assert (forall vs,
               list_max (map conversion_depth vs) <= fuel ->
               forallb wf_value vs = true ->
               forallb convertible vs = true ->
               map_res (to_dotdict fuel) vs = Ok (map converted vs)) as L.
    { intros vs Dv Wv Cv. apply map_res_ok. apply Forall_forall.
      intros v Hin. rewrite forallb_forall in Wv, Cv.
      apply IH; auto.
      apply (proj1 (list_max_map_le _ _ _ _) Dv v Hin). }
    destruct obj as [ | n | s | vs | vs | vs | vs | items | items ];
      simpl in *; trivial;
      try (rewrite L by (trivial; lia); reflexivity).
    apply andb_true_iff in W as [U W]. apply andb_true_iff in C as [C K].
    rewrite (map_res_items_ok _ converted).
    + simpl. rewrite init_dict_fresh; trivial.
      * rewrite map_map. simpl. exact U.
      * rewrite forallb_forall in *. intros kv Hin.
        apply in_map_iff in Hin as (kv0 & <- & Hin). simpl. auto.
    + apply Forall_forall. intros kv Hin.
      rewrite forallb_forall in W, C. apply IH; auto.
      apply (proj1 (list_max_map_le _ (fun kv => conversion_depth (snd kv))
                      items fuel)); trivial; lia.
Qed.

(** When the conversion returns, every key it has visited is acceptable,
    and the calls have not nested deeper than they may. *)
Lemma to_dotdict_ok_convertible (fuel : nat) :
  forall obj r,
    to_dotdict fuel obj = Ok r ->
    convertible obj = true /\ conversion_depth obj <= fuel.
Proof.
  induction fuel as [ | fuel IH ]; intros obj r E; [ discriminate | ].
  assert (forall vs vs',
             map_res (to_dotdict fuel) vs = Ok vs' ->
             forallb convertible vs = true
             /\ list_max (map conversion_depth vs) <= fuel) as L.
  { intros vs vs' E1. apply map_res_inv in E1.
    rewrite Forall_forall in E1. split.
    - apply forallb_forall. intros v Hin.
      destruct (E1 v Hin) as (r1 & Hr1). apply (IH _ _ Hr1).
    - apply list_max_map_le. intros v Hin.
      destruct (E1 v Hin) as (r1 & Hr1). apply (IH _ _ Hr1). }
  destruct obj as [ | n | s | vs | vs | vs | vs | items | items ];
    simpl in *; try (split; [ reflexivity | lia ]).
  1-4: destruct (map_res (to_dotdict fuel) vs) as [ vs' | e ] eqn:E1;
       try discriminate;
       destruct (L _ _ E1) as [L1 L2]; split; [ exact L1 | lia ].
  destruct (map_res_items (to_dotdict fuel) items) as [ items' | e ] eqn:E1;
    try discriminate.
  simpl in E.
  destruct (DotDict.__init__ (Some items') []) as [ self | e ] eqn:E2;
    try discriminate.
  apply map_res_items_inv in E1 as [E1 Hkeys].
  apply init_dict_ok_writable in E2.
  rewrite Forall_forall in E1.
  split; [ apply andb_true_iff; split | ].
  - apply forallb_forall. intros kv Hin.
    destruct (E1 kv Hin) as (r1 & Hr1). apply (IH _ _ Hr1).
  - assert (forall l : dict,
              forallb (fun kv => writableb (fst kv)) l
              = forallb writableb (map fst l)) as F.
    { intros l. induction l as [ | kv l IHl ]; simpl; congruence. }
    rewrite F in *. rewrite <- Hkeys. exact E2.
  - apply le_n_S.
    apply (list_max_map_le _ (fun kv => conversion_depth (snd kv))).
    intros kv Hin. destruct (E1 kv Hin) as (r1 & Hr1). apply (IH _ _ Hr1).
Qed.

(** The conversion raises the two errors of [__setitem__], and
    [RecursionError] where the input is nested deeper than the calls may
    nest; nothing else. *)
Lemma to_dotdict_raises (fuel : nat) :
  forall obj e,
    to_dotdict fuel obj = Raise e ->
    (e = ValueError \/ e = TypeError)
    \/ (e = RecursionError /\ fuel < conversion_depth obj).
Proof.
  induction fuel as [ | fuel IH ]; intros obj e E.
  - right. simpl in E. inversion E; subst.
    pose proof (conversion_depth_pos obj). split; [ reflexivity | lia ].
  - assert (forall vs,
               map_res (to_dotdict fuel) vs = Raise e ->
               (e = ValueError \/ e = TypeError)
               \/ (e = RecursionError
                   /\ S fuel < S (list_max (map conversion_depth vs)))) as L.
    { intros vs E1. apply map_res_raise in E1 as (v & Hin & Hv).
      destruct (IH _ _ Hv) as [ H | [H1 H2] ]; [ left; exact H | right ].
      split; trivial.
      pose proof (list_max_map_In _ conversion_depth vs v Hin). lia. }
    destruct obj as [ | n | s | vs | vs | vs | vs | items | items ];
      simpl in *; try discriminate.
    1-4: destruct (map_res (to_dotdict fuel) vs) as [ vs' | e1 ] eqn:E1;
         try discriminate; simpl in E; inversion E; subst; apply L, E1.
    destruct (map_res_items (to_dotdict fuel) items) as [ items' | e1 ] eqn:E1;
      simpl in E.
    + destruct (DotDict.__init__ (Some items') []) as [ self | e2 ] eqn:E2;
        simpl in E; try discriminate.
      inversion E; subst. left. eapply init_dict_raises, E2.
    + inversion E; subst.
      apply map_res_items_raise in E1 as (kv & Hin & Hv).
      destruct (IH _ _ Hv) as [ H | [H1 H2] ]; [ left; exact H | right ].
      split; trivial.
      pose proof (list_max_map_In _ (fun kv => conversion_depth (snd kv))
                    items kv Hin). simpl in *. lia.
Qed.

(** With acceptable keys everywhere, [__init__] cannot refuse. *)
Lemma update_writable_ok (other : dict) :
  forall self : DotDict.t,
    forallb (fun kv => writableb (fst kv)) other = true ->
    snd (DotDict.update self other) = None.
Proof.
  induction other as [ | [k v] other IH ]; intros self K; simpl; trivial.
  simpl in K. apply andb_true_iff in K as [Kk K].
  rewrite setitem_writable by (apply writableb_spec, Kk).
  apply IH, K.
Qed.

Lemma init_dict_writable_ok (items : dict) (e : exn) :
  forallb (fun kv => writableb (fst kv)) items = true ->
  DotDict.__init__ (Some items) [] <> Raise e.
Proof.
  intros K. unfold DotDict.__init__.
  cbn [DotDict.binds_parameter existsb].
  destruct items as [ | kv items ]; [ discriminate | ].
  pose proof (update_writable_ok (kv :: items) [] K) as H.
  destruct (DotDict.update [] (kv :: items)) as [s1 [ e1 | ]];
    simpl in *; discriminate.
Qed.

(** With acceptable keys everywhere, the conversion can raise nothing but
    [RecursionError]. *)
Lemma to_dotdict_raises_convertible (fuel : nat) :
  forall obj e,
    to_dotdict fuel obj = Raise e -> convertible obj = true ->
    e = RecursionError.
Proof.
  induction fuel as [ | fuel IH ]; intros obj e E C.
  - simpl in E. inversion E; reflexivity.
  - destruct obj as [ | n | s | vs | vs | vs | vs | items | items ];
      simpl in *; try discriminate.
    1-4: destruct (map_res (to_dotdict fuel) vs) as [ vs' | e1 ] eqn:E1;
         try discriminate; simpl in E; inversion E; subst;
         apply map_res_raise in E1 as (v & Hin & Hv);
         rewrite forallb_forall in C; apply (IH v e Hv (C v Hin)).
    apply andb_true_iff in C as [C K].
    destruct (map_res_items (to_dotdict fuel) items) as [ items' | e1 ]
      eqn:E1; simpl in E.
    + destruct (DotDict.__init__ (Some items') []) as [ self | e2 ] eqn:E2;
        simpl in E; try discriminate.
      apply map_res_items_inv in E1 as [_ Hkeys].
      assert (forall l : dict,
                 forallb (fun kv => writableb (fst kv)) l
                 = forallb writableb (map fst l)) as F.
      { intros l. induction l as [ | kv l IHl ]; simpl; congruence. }
      rewrite F, <- Hkeys, <- F in K.
      destruct (init_dict_writable_ok items' e2 K E2).
    + inversion E; subst.
      apply map_res_items_raise in E1 as (kv & Hin & Hv).
      rewrite forallb_forall in C. apply (IH (snd kv) e Hv (C kv Hin)).
Qed.

Lemma converted_plain (obj : value) :
  plain obj = true -> converted obj = to_attribute_mapping obj.
Proof.
  induction obj as [ | n | s | vs IH | vs IH | vs IH | vs IH | items IH
                   | items IH ] using value_nested_ind;
    intros Hp; simpl in *; trivial; try discriminate.
  1-4: f_equal; apply map_ext_in; intros v Hin;
       rewrite Forall_forall in IH; apply IH; trivial;
       rewrite forallb_forall in Hp; auto.
  f_equal. apply map_ext_in. intros kv Hin.
  rewrite Forall_forall in IH. rewrite forallb_forall in Hp.
  rewrite IH; auto.
Qed.

(** C8, as the code has it: on an input in which every key of every plain
    [dict] visited is a string that names no attribute of [MutableMapping],
    and which is nested no deeper than the calls of [to_dotdict] may nest,
    [to_dotdict] returns the converted object: a [DotDict] for a plain
    [dict], with the converted values under the same keys; a list, tuple or
    set of the same type with the converted elements; any other object,
    among them a [DotDict], as it is.  On any other input nested no deeper
    it raises [ValueError] or [TypeError]; on an input nested deeper it
    does not return, and raises [RecursionError] if the keys are
    acceptable.  Where the input holds no [DotDict] the result is the one
    the specification describes, and [to_dotdict({"a": [{"b": 1}, 2]})]
    has a [DotDict] with [.b == 1] as the first element of the list and
    the plain 2 as the second. *)
Theorem to_dotdict_converts :
  (forall (fuel : nat) (obj : value),
      conversion_depth obj <= fuel ->
      wf_value obj = true -> convertible obj = true ->
      to_dotdict fuel obj = Ok (converted obj))
  /\ (forall (fuel : nat) (obj : value),
      conversion_depth obj <= fuel ->
      convertible obj = false ->
      exists e, to_dotdict fuel obj = Raise e
                /\ (e = ValueError \/ e = TypeError))
  /\ (forall (fuel : nat) (obj : value),
      fuel < conversion_depth obj ->
      exists e, to_dotdict fuel obj = Raise e
                /\ (convertible obj = true -> e = RecursionError))
  /\ (forall obj : value,
      plain obj = true -> converted obj = to_attribute_mapping obj)
  /\ (forall (fuel : nat) (self : dict),
      to_dotdict (S fuel) (VDotDict self) = Ok (VDotDict self))
  /\ (forall fuel : nat,
      to_dotdict (4 + fuel)
        (VDict [(KStr "a", VList [VDict [(KStr "b", VInt 1)]; VInt 2])])
      = Ok (VDotDict
              [(KStr "a", VList [VDotDict [(KStr "b", VInt 1)]; VInt 2])]))
  /\ DotDict.__getattribute__ [(KStr "b", VInt 1)] "b" = Ok (AValue (VInt 1)).
Proof.
  split; [ | split; [ | split; [ | split; [ | split; [ | split ] ] ] ] ].
  - exact to_dotdict_convertible.
  - intros fuel obj D C. destruct (to_dotdict fuel obj) as [ r | e ] eqn:E.
    + apply to_dotdict_ok_convertible in E as [E _]. congruence.
    + exists e. split; trivial.
      destruct (to_dotdict_raises _ _ _ E) as [ H | [_ H] ]; [ exact H | lia ].
  - intros fuel obj D. destruct (to_dotdict fuel obj) as [ r | e ] eqn:E.
    + apply to_dotdict_ok_convertible in E as [_ E]. lia.
    + exists e. split; trivial. intros C.
      apply (to_dotdict_raises_convertible _ _ _ E C).
  - exact converted_plain.
  - reflexivity.
  - reflexivity.
  - reflexivity.
Qed.

(** The conversion of [{"x": (1, {"y": None})}], which takes four nested
    calls. *)
Lemma to_dotdict_converts_witness :
  to_dotdict recursion_limit
    (VDict [(KStr "x", VTuple [VInt 1; VDict [(KStr "y", VNone)]])])
  = Ok (VDotDict
          [(KStr "x", VTuple [VInt 1; VDotDict [(KStr "y", VNone)]])]).
Proof.
  apply (proj1 to_dotdict_converts recursion_limit
           (VDict [(KStr "x", VTuple [VInt 1; VDict [(KStr "y", VNone)]])]));
    [ unfold recursion_limit; simpl; lia | reflexivity | reflexivity ].
Defined.

(** C8 as stated fails: [to_dotdict({"items": 1})] and [to_dotdict({1: 2})]
    return nothing, they raise; and a [DotDict] given as input comes back
    with its values as they were, here a plain [dict] under "a". *)
Lemma to_dotdict_raises_or_keeps :
  to_dotdict recursion_limit (VDict [(KStr "items", VInt 1)])
  = Raise ValueError
  /\ to_dotdict recursion_limit (VDict [(KInt 1, VInt 2)]) = Raise TypeError
  /\ to_dotdict recursion_limit
       (VDotDict [(KStr "a", VDict [(KStr "b", VInt 1)])])
     = Ok (VDotDict [(KStr "a", VDict [(KStr "b", VInt 1)])])
  /\ to_attribute_mapping (VDotDict [(KStr "a", VDict [(KStr "b", VInt 1)])])
     = VDotDict [(KStr "a", VDotDict [(KStr "b", VInt 1)])]
  /\ ~ (forall obj : value,
          to_dotdict recursion_limit obj = Ok (to_attribute_mapping obj)).
Proof.
  repeat split.
  intros H. specialize (H (VDict [(KStr "items", VInt 1)])). discriminate H.
Qed.

(* ================================================================== *)
(** ** dict_to_flatdict *)
(* ================================================================== *)

Lemma keys_unique_app (l1 l2 : list key) :
  keys_unique (l1 ++ l2) = true <->
  keys_unique l1 = true /\ keys_unique l2 = true
  /\ (forall a b, In a l1 -> In b l2 -> key_eqb a b = false).
Proof.
  induction l1 as [ | k l1 IH ]; simpl.
  - intuition.
  - rewrite !andb_true_iff, !negb_true_iff, existsb_app, orb_false_iff, IH.
    split.
    + intros ((E1 & E2) & U1 & U2 & D). repeat split; trivial.
      intros a b [ <- | Ha ] Hb; [ | auto ].
      destruct (key_eqb k b) eqn:E; trivial.
      assert (existsb (key_eqb k) l2 = true) as X
        by (apply existsb_exists; eauto).
      congruence.
    + intros ((E1 & U1) & U2 & D). repeat split; trivial; [ | intuition ].
      destruct (existsb (key_eqb k) l2) eqn:E; trivial.
      apply existsb_exists in E as (b & Hb & E).
      rewrite D in E; auto.
Qed.

(** [dict(items)] of pairs with pairwise distinct keys is the same list. *)
Lemma dict_of_items_unique (V : Type) (items : list (key * V)) :
  keys_unique (map fst items) = true -> dict_of_items items = items.
Proof.
  unfold dict_of_items.
  assert (forall acc : list (key * V),
            keys_unique (map fst acc ++ map fst items) = true ->
            fold_left (fun d kv => dict_set d (fst kv) (snd kv)) items acc
            = acc ++ items) as G.
  { induction items as [ | [k v] items IH ]; intros acc U; simpl.
    - rewrite app_nil_r. reflexivity.
    - simpl in U.
      rewrite dict_set_absent
        by (apply dict_get_none_existsb, (keys_unique_mid _ _ _ U)).
      rewrite IH.
      + rewrite <- app_assoc. reflexivity.
      + rewrite map_app, <- app_assoc. exact U. }
  intros U. apply (G []). exact U.
Qed.

Lemma all2_prefix (p : list key) :
  forall (k k' : key) (r r' : list key),
    all2 key_eqb (p ++ k :: r) (p ++ k' :: r') = true ->
    key_eqb k k' = true.
Proof.
  induction p as [ | a p IH ]; simpl; intros k k' r r' E;
    apply andb_true_iff in E as [E1 E2]; eauto.
Qed.

(** Every path listed for the entry [(k, v)] goes through [k]. *)
Lemma entry_leaves_path (v : value) :
  forall parent k pv,
    In pv (entry_leaves parent k v) ->
    exists rest, fst pv = parent ++ k :: rest.
Proof.
  induction v as [ | n | s | vs IH | vs IH | vs IH | vs IH | sub IH
                 | sub IH ] using value_nested_ind;
    intros parent k pv Hin; simpl in Hin;
    try (destruct Hin as [ <- | [] ]; exists []; reflexivity).
  apply in_flat_map in Hin as ([k' v'] & Hin' & Hpv).
  rewrite Forall_forall in IH.
  destruct (IH _ Hin' _ _ _ Hpv) as (rest & ->).
  exists (k' :: rest). simpl. rewrite <- app_assoc. reflexivity.
Qed.

(** The flat keys of a well-formed dictionary are pairwise distinct. *)
Lemma leaves_unique_entries (parent : list key) (entries : dict) :
  Forall (fun kv => forall parent k,
            wf_value (snd kv) = true ->
            keys_unique (map fst (map flat_entry
                                    (entry_leaves parent k (snd kv))))
            = true) entries ->
  wf_value (VDict entries) = true ->
  keys_unique (map fst (map flat_entry (leaves parent entries))) = true.
Proof.
  unfold leaves.
  induction 1 as [ | [k v] entries Hv _ IH ]; intros W; trivial.
  simpl in W. apply andb_true_iff in W as [U W].
  apply andb_true_iff in U as [Uk U]. apply andb_true_iff in W as [Wv W].
  simpl. rewrite !map_app. apply keys_unique_app. repeat split.
  - apply Hv, Wv.
  - apply IH. simpl. rewrite U, W. reflexivity.
  - intros a b Ha Hb.
    apply in_map_iff in Ha as ([ka va] & <- & Ha).
    apply in_map_iff in Ha as (pa & [= <- <-] & Ha).
    apply in_map_iff in Hb as ([kb vb] & <- & Hb).
    apply in_map_iff in Hb as (pb & [= <- <-] & Hb).
    apply in_flat_map in Hb as ([k' v'] & Hin' & Hb).
    apply entry_leaves_path in Ha as (ra & ->).
    apply entry_leaves_path in Hb as (rb & ->).
    simpl. destruct (all2 key_eqb _ _) eqn:E; trivial.
    apply all2_prefix in E. simpl in E.
    apply negb_true_iff in Uk.
    assert (existsb (key_eqb k) (map fst entries) = true) as X.
    { apply existsb_exists. exists k'. split; trivial.
      apply in_map_iff. exists (k', v'). auto. }
    congruence.
Qed.

Lemma entry_leaves_unique (v : value) :
  forall parent k,
    wf_value v = true ->
    keys_unique (map fst (map flat_entry (entry_leaves parent k v))) = true.
Proof.
  induction v as [ | n | s | vs IH | vs IH | vs IH | vs IH | sub IH
                 | sub IH ] using value_nested_ind;
    intros parent k W; trivial.
  apply (leaves_unique_entries (parent ++ [k]) sub); trivial.
Qed.

Lemma leaves_unique (parent : list key) (entries : dict) :
  wf_value (VDict entries) = true ->
  keys_unique (map fst (map flat_entry (leaves parent entries))) = true.
Proof.
  apply leaves_unique_entries. apply Forall_forall.
  intros kv _ p k. apply entry_leaves_unique.
Qed.

(** The loop of [dict_to_flatdict] appends the leaves of the entries it
    visits, given that the recursive calls return those of the nested
    dictionaries. *)
Lemma flatten_loop_leaves (recurse : value -> list key -> res dict)
    (parent : list key) (entries : dict) :
  Forall (fun kv => forall sub, snd kv = VDict sub ->
            recurse (snd kv) (parent ++ [fst kv])
            = Ok (map flat_entry (leaves (parent ++ [fst kv]) sub)))
         entries ->
  forall items,
    flatten_loop recurse parent entries items
    = Ok (items ++ map flat_entry (leaves parent entries)).
Proof.
  unfold leaves.
  induction 1 as [ | [k v] entries Hv _ IH ]; intros items; simpl.
  - rewrite app_nil_r. reflexivity.
  - rewrite map_app, app_assoc. simpl in Hv.
    destruct v; try (rewrite IH; reflexivity).
    rewrite (Hv _ eq_refl). simpl. rewrite IH. reflexivity.
Qed.

Lemma dict_depth_entry (entries : dict) (k : key) (sub : dict)
    (fuel : nat) :
  dict_depth (VDict entries) <= S fuel -> In (k, VDict sub) entries ->
  dict_depth (VDict sub) <= fuel.
Proof.
  intros D Hin.
  pose proof (list_max_map_In _ (fun kv => dict_depth (snd kv)) entries
                (k, VDict sub) Hin) as H.
  change (dict_depth (VDict entries))
    with (S (list_max (map (fun kv => dict_depth (snd kv)) entries))) in D.
  cbv beta in H. cbn [snd] in H. lia.
Qed.

(** A nested [dict] no deeper than the calls may nest is flattened to its
    leaves. *)
Lemma dict_to_flatdict_leaves (fuel : nat) :
  forall (entries : dict) (parent : list key),
    dict_depth (VDict entries) <= fuel ->
    wf_value (VDict entries) = true ->
    dict_to_flatdict fuel (VDict entries) (Some parent)
    = Ok (map flat_entry (leaves parent entries)).
Proof.
  induction fuel as [ | fuel IH ]; intros entries parent D W.
  - simpl in D. lia.
  - cbn [dict_to_flatdict]. rewrite flatten_loop_leaves.
    + simpl. rewrite dict_of_items_unique; trivial.
      apply leaves_unique, W.
    + simpl in W. apply andb_true_iff in W as [_ W].
      rewrite forallb_forall in W. apply Forall_forall.
      intros [k v] Hin sub Esub. simpl in Esub. subst v. simpl.
      apply IH.
      * apply (dict_depth_entry entries k sub fuel D Hin).
      * apply (W _ Hin).
Qed.

(** The loop returns only if every recursive call it makes does, and
    raises only what one of them raises. *)
Lemma flatten_loop_ok_inv (recurse : value -> list key -> res dict)
    (parent : list key) (entries : dict) :
  forall items items',
    flatten_loop recurse parent entries items = Ok items' ->
    forall k sub, In (k, VDict sub) entries ->
                  exists flat, recurse (VDict sub) (parent ++ [k]) = Ok flat.
Proof.
  induction entries as [ | [k0 v0] entries IH ]; intros items items' E k sub
    Hin; [ destruct Hin | ].
  simpl in E.
  assert (forall its, flatten_loop recurse parent entries its = Ok items' ->
                      In (k, VDict sub) entries ->
                      exists flat, recurse (VDict sub) (parent ++ [k])
                                   = Ok flat) as Rest
    by (intros its E1 H1; apply (IH its items' E1 k sub H1)).
  destruct Hin as [ [= -> ->] | Hin ].
  - destruct (recurse (VDict sub) (parent ++ [k])) as [ flat | e ];
      [ eauto | discriminate ].
  - destruct v0; try (apply (Rest _ E Hin)).
    destruct (recurse (VDict items0) (parent ++ [k0])) as [ flat | e ];
      simpl in E; [ apply (Rest _ E Hin) | discriminate ].
Qed.

Lemma flatten_loop_raise_inv (recurse : value -> list key -> res dict)
    (parent : list key) (entries : dict) (e : exn) :
  forall items,
    flatten_loop recurse parent entries items = Raise e ->
    exists k sub, In (k, VDict sub) entries
                  /\ recurse (VDict sub) (parent ++ [k]) = Raise e.
Proof.
  induction entries as [ | [k0 v0] entries IH ]; intros items E;
    [ discriminate | ].
  simpl in E.
  assert (forall its, flatten_loop recurse parent entries its = Raise e ->
                      exists k sub,
                        In (k, VDict sub) ((k0, v0) :: entries)
                        /\ recurse (VDict sub) (parent ++ [k]) = Raise e)
    as Rest.
  { intros its E1. destruct (IH its E1) as (k & sub & Hin & Hr).
    exists k, sub. split; [ right; exact Hin | exact Hr ]. }
  destruct v0; try (apply (Rest _ E)).
  destruct (recurse (VDict items0) (parent ++ [k0])) as [ flat | e1 ] eqn:R;
    simpl in E; [ apply (Rest _ E) | ].
  inversion E; subst. exists k0, items0. split; [ left; reflexivity | exact R ].
Qed.

(** When [dict_to_flatdict] returns for a [dict], its calls have nested no
    deeper than they may. *)
Lemma dict_to_flatdict_ok_depth (fuel : nat) :
  forall (entries : dict) (parent : option (list key)) (flat : dict),
    dict_to_flatdict fuel (VDict entries) parent = Ok flat ->
    dict_depth (VDict entries) <= fuel.
Proof.
  induction fuel as [ | fuel IH ]; intros entries parent flat E;
    [ discriminate | ].
  cbn [dict_to_flatdict] in E.
  match type of E with
  | bind ?c _ = _ => destruct c as [ items | e ] eqn:L
  end; [ | discriminate ].
  change (dict_depth (VDict entries))
    with (S (list_max (map (fun kv => dict_depth (snd kv)) entries))).
  apply le_n_S. apply list_max_map_le. intros [k v] Hin. simpl.
  destruct v; simpl; try lia.
  destruct (flatten_loop_ok_inv _ _ _ _ _ L k items0 Hin) as (flat1 & E1).
  apply (IH _ _ _ E1).
Qed.

(** For a [dict], [dict_to_flatdict] raises nothing but
    [RecursionError]. *)
Lemma dict_to_flatdict_raises (fuel : nat) :
  forall (entries : dict) (parent : option (list key)) (e : exn),
    dict_to_flatdict fuel (VDict entries) parent = Raise e ->
    e = RecursionError.
Proof.
  induction fuel as [ | fuel IH ]; intros entries parent e E.
  - simpl in E. inversion E; reflexivity.
  - cbn [dict_to_flatdict] in E.
    match type of E with
    | bind ?c _ = _ => destruct c as [ items | e1 ] eqn:L
    end; [ discriminate | ].
    simpl in E. inversion E; subst.
    apply flatten_loop_raise_inv in L as (k & sub & _ & R).
    apply (IH _ _ _ R).
Qed.

(** A [dict] nested deeper than the calls may nest is not flattened. *)
Lemma dict_to_flatdict_deep (fuel : nat) (entries : dict)
    (parent : option (list key)) :
  fuel < dict_depth (VDict entries) ->
  dict_to_flatdict fuel (VDict entries) parent = Raise RecursionError.
Proof.
  intros D.
  destruct (dict_to_flatdict fuel (VDict entries) parent) as [ flat | e ]
    eqn:E.
  - apply dict_to_flatdict_ok_depth in E. lia.
  - apply dict_to_flatdict_raises in E. subst e. reflexivity.
Qed.

(** A [dict] no deeper than the calls may nest is flattened, whatever its
    keys. *)
Lemma dict_to_flatdict_total (fuel : nat) (entries : dict)
    (parent : option (list key)) :
  dict_depth (VDict entries) <= fuel ->
  exists flat, dict_to_flatdict fuel (VDict entries) parent = Ok flat.
Proof.
  revert entries parent.
  induction fuel as [ | fuel IH ]; intros entries parent D.
  - simpl in D. lia.
  - cbn [dict_to_flatdict].
    match goal with
    | |- exists flat, bind ?c _ = _ => destruct c as [ items | e ] eqn:L
    end; [ simpl; eauto | ].
    apply flatten_loop_raise_inv in L as (k & sub & Hin & R).
    destruct (IH sub (Some ((match parent with Some p0 => p0 | None => [] end)
                              ++ [k]))
                (dict_depth_entry entries k sub fuel D Hin)) as (flat & E).
    congruence.
Qed.

Lemma entry_leaves_sound (v : value) :
  forall parent k pv,
    In pv (entry_leaves parent k v) ->
    (isinstance_dict v = false /\ pv = (parent ++ [k], v))
    \/ (exists sub path,
          v = VDict sub /\ fst pv = parent ++ k :: path
          /\ leaf_at sub path (snd pv)).
Proof.
  induction v as [ | n | s | vs IH | vs IH | vs IH | vs IH | sub IH
                 | sub IH ] using value_nested_ind;
    intros parent k pv Hin; simpl in Hin;
    try (destruct Hin as [ <- | [] ]; left; split; reflexivity).
  right. exists sub.
  apply in_flat_map in Hin as ([k' v'] & Hin' & Hpv).
  rewrite Forall_forall in IH. simpl in Hpv.
  destruct (IH _ Hin' _ _ _ Hpv) as [ [Hd ->] | (sub' & path & E & Hp & Hl) ];
    simpl in *.
  - exists [k']. repeat split.
    + rewrite <- app_assoc. reflexivity.
    + apply leaf_here; assumption.
  - exists (k' :: path). repeat split.
    + rewrite Hp, <- app_assoc. reflexivity.
    + subst v'. eapply leaf_below; eassumption.
Qed.

Lemma leaves_sound (parent : list key) (entries : dict) (pv : list key * value) :
  In pv (leaves parent entries) ->
  exists path, fst pv = parent ++ path /\ leaf_at entries path (snd pv).
Proof.
  unfold leaves. intros Hin.
  apply in_flat_map in Hin as ([k v] & Hin & Hpv). simpl in Hpv.
  destruct (entry_leaves_sound _ _ _ _ Hpv)
    as [ [Hd ->] | (sub & path & -> & Hp & Hl) ]; simpl in *.
  - exists [k]. split; trivial. apply leaf_here; assumption.
  - exists (k :: path). split; trivial. eapply leaf_below; eassumption.
Qed.

Lemma leaves_complete (entries : dict) (path : list key) (v : value) :
  leaf_at entries path v ->
  forall parent, In (parent ++ path, v) (leaves parent entries).
Proof.
  unfold leaves.
  induction 1 as [ entries k v Hin Hd | entries k sub path v Hin _ IH ];
    intros parent; apply in_flat_map.
  - exists (k, v). split; trivial.
    destruct v; simpl in *; auto; discriminate.
  - exists (k, VDict sub). split; trivial. simpl.
    specialize (IH (parent ++ [k])). rewrite <- app_assoc in IH. exact IH.
Qed.

(** C7, as the code has it: the flat mapping returned for a nested [dict]
    that is no deeper than the calls of [dict_to_flatdict] may nest holds
    exactly the leaves reached through plain dictionaries, a leaf being a
    value that is not a plain [dict] (a [DotDict] is kept whole, as a
    leaf), each under the [CompoundKey] of the keys from the root to it;
    no two of its keys are equal.  A [dict] nested deeper is not
    flattened: the call raises [RecursionError].  [flatten({"a": {}})] is
    empty and [flatten({"a": {"b": 1}, "e": 3})] holds [("a","b") -> 1]
    and [("e",) -> 3]. *)
Theorem dict_to_flatdict_leaves_exactly :
  (forall (fuel : nat) (entries : dict),
      dict_depth (VDict entries) <= fuel ->
      wf_value (VDict entries) = true ->
      exists flat,
        dict_to_flatdict fuel (VDict entries) None = Ok flat
        /\ (forall (key : key) (v : value),
              In (key, v) flat <->
              exists path, key = CompoundKey path /\ leaf_at entries path v)
        /\ keys_unique (map fst flat) = true)
  /\ (forall (fuel : nat) (entries : dict),
      fuel < dict_depth (VDict entries) ->
      dict_to_flatdict fuel (VDict entries) None = Raise RecursionError)
  /\ (forall fuel : nat,
      dict_to_flatdict (2 + fuel) (VDict [(KStr "a", VDict [])]) None
      = Ok [])
  /\ (forall fuel : nat,
      dict_to_flatdict (2 + fuel)
        (VDict [(KStr "a", VDict [(KStr "b", VInt 1)]); (KStr "e", VInt 3)])
        None
      = Ok [(CompoundKey [KStr "a"; KStr "b"], VInt 1);
            (CompoundKey [KStr "e"], VInt 3)]).
Proof.
  split; [ | split; [ | split; reflexivity ] ].
  - intros fuel entries D W.
    exists (map flat_entry (leaves [] entries)).
    assert (dict_to_flatdict fuel (VDict entries) None
            = dict_to_flatdict fuel (VDict entries) (Some []))
      as -> by (destruct fuel; reflexivity).
    split; [ | split ].
    + apply dict_to_flatdict_leaves; trivial.
    + intros key v. split.
      * intros Hin. apply in_map_iff in Hin as (pv & [= <- <-] & Hin).
        apply leaves_sound in Hin as (path & Hp & Hl). simpl in Hp.
        exists path. rewrite Hp. auto.
      * intros (path & -> & Hl). apply in_map_iff.
        exists (path, v). split; trivial.
        apply (leaves_complete _ _ _ Hl []).
    + apply leaves_unique, W.
  - intros fuel entries D. apply dict_to_flatdict_deep, D.
Qed.

(** The flat form of [{"x": {"y": {"z": None}}}] has the one entry
    [("x","y","z") -> None]. *)
Lemma dict_to_flatdict_leaves_exactly_witness :
  exists flat,
    dict_to_flatdict recursion_limit
      (VDict [(KStr "x", VDict [(KStr "y", VDict [(KStr "z", VNone)])])])
      None = Ok flat
    /\ (forall (key : key) (v : value),
          In (key, v) flat <->
          exists path,
            key = CompoundKey path
            /\ leaf_at [(KStr "x", VDict [(KStr "y", VDict [(KStr "z", VNone)])])]
                 path v)
    /\ keys_unique (map fst flat) = true.
Proof.
  apply (proj1 dict_to_flatdict_leaves_exactly recursion_limit
           [(KStr "x", VDict [(KStr "y", VDict [(KStr "z", VNone)])])]);
    [ unfold recursion_limit; simpl; lia | reflexivity ].
Defined.

(** C7 as stated fails: a [DotDict] found as a value is a mapping, and
    [flatten({"a": DotDict(b=1)})] keeps it as the value of [("a",)]
    instead of going into it. *)
Lemma dict_to_flatdict_keeps_DotDict :
  dict_to_flatdict recursion_limit
    (VDict [(KStr "a", VDotDict [(KStr "b", VInt 1)])]) None
  = Ok [(CompoundKey [KStr "a"], VDotDict [(KStr "b", VInt 1)])]
  /\ isinstance_MutableMapping (VDotDict [(KStr "b", VInt 1)]) = true
  /\ ~ (forall (entries flat : dict) (key : key) (v : value),
          dict_to_flatdict recursion_limit (VDict entries) None = Ok flat ->
          In (key, v) flat -> isinstance_MutableMapping v = false).
Proof.
  repeat split.
  intros H.
  specialize (H [(KStr "a", VDotDict [(KStr "b", VInt 1)])] _
                (CompoundKey [KStr "a"]) (VDotDict [(KStr "b", VInt 1)])
                eq_refl (or_introl eq_refl)).
  discriminate H.
Qed.

(* ================================================================== *)
(** ** flatdict_to_dict *)
(* ================================================================== *)

Lemma dict_set_same_value (V : Type) (d : list (key * V)) (k : key) (v : V) :
  dict_get d k = Some v -> dict_set d k v = d.
Proof.
  induction d as [ | [j w] d IH ]; simpl; try discriminate.
  destruct (key_eqb j k).
  - intros [= ->]. reflexivity.
  - intros H. rewrite (IH H). reflexivity.
Qed.

Lemma dict_get_app (V : Type) (d1 d2 : list (key * V)) (k : key) :
  dict_get (d1 ++ d2) k =
  match dict_get d1 k with
  | Some v => Some v
  | None => dict_get d2 k
  end.
Proof.
  induction d1 as [ | [j w] d1 IH ]; simpl; trivial.
  destruct (key_eqb j k); trivial.
Qed.

Lemma split_last_cons (k : key) (path init : list key) (last : key) :
  split_last path = Some (init, last) ->
  split_last (k :: path) = Some (k :: init, last).
Proof.
  intros E. simpl. rewrite E. destruct path; [ discriminate | reflexivity ].
Qed.

Lemma unflatten_loop_app (dct_class : option mapping_class)
    (l1 l2 : dict) :
  forall result,
    unflatten_loop dct_class result (l1 ++ l2) =
    (result' <- unflatten_loop dct_class result l1 ;;
     unflatten_loop dct_class result' l2).
Proof.
  induction l1 as [ | [k v] l1 IH ]; intros result; simpl; trivial.
  destruct (unflatten_entry dct_class result k v); simpl; trivial.
Qed.

Lemma unflatten_loop_cons (dct_class : option mapping_class)
    (result : value) (k : key) (v : value) (l : dict) :
  unflatten_loop dct_class result ((k, v) :: l) =
  (result' <- unflatten_entry dct_class result k v ;;
   unflatten_loop dct_class result' l).
Proof. reflexivity. Qed.

(** One entry whose path starts with [k], where [k] leads to [child]. *)
Lemma unflatten_entry_below_present (dct_class : option mapping_class)
    (k : key) (d : dict) (child c1 : value) (path : list key) (v : value) :
  dict_get d k = Some child ->
  unflatten_entry dct_class child (CompoundKey path) v = Ok c1 ->
  unflatten_entry dct_class (VDict d) (CompoundKey (k :: path)) v
  = Ok (VDict (dict_set d k c1)).
Proof.
  intros G E. unfold unflatten_entry in *.
  destruct (split_last path) as [ [init last] | ] eqn:S; [ | discriminate ].
  rewrite (split_last_cons k _ _ _ S).
  simpl. rewrite G. simpl. rewrite E. reflexivity.
Qed.

(** The same where [k] leads nowhere yet and the default mapping type is
    used: a new [dict] is stored under [k] first. *)
Lemma unflatten_entry_below_absent (k : key) (d : dict) (c1 : value)
    (path : list key) (v : value) :
  dict_get d k = None ->
  unflatten_entry None (VDict []) (CompoundKey path) v = Ok c1 ->
  unflatten_entry None (VDict d) (CompoundKey (k :: path)) v
  = Ok (VDict (dict_set d k c1)).
Proof.
  intros G E. unfold unflatten_entry in *.
  destruct (split_last path) as [ [init last] | ] eqn:S; [ | discriminate ].
  rewrite (split_last_cons k _ _ _ S).
  simpl. rewrite G. simpl. rewrite E. simpl.
  rewrite dict_set_set. reflexivity.
Qed.

(** Entries whose paths all start with [k], where [k] already leads to
    [child]: the loop does to [child] what it would do to it with the paths
    shortened by [k], and leaves the rest of the dictionary alone. *)
Lemma unflatten_below_present (dct_class : option mapping_class) (k : key)
    (es : list (list key * value)) :
  forall (d : dict) (child child' : value),
    dict_get d k = Some child ->
    unflatten_loop dct_class child (map flat_entry es) = Ok child' ->
    unflatten_loop dct_class (VDict d) (map flat_entry (map (below k) es))
    = Ok (VDict (dict_set d k child')).
Proof.
  induction es as [ | [path v] es IH ]; intros d child child' G E.
  - simpl in *. injection E as <-. rewrite dict_set_same_value; trivial.
  - change (map flat_entry ((path, v) :: es))
      with ((CompoundKey path, v) :: map flat_entry es) in E.
    change (map flat_entry (map (below k) ((path, v) :: es)))
      with ((CompoundKey (k :: path), v)
              :: map flat_entry (map (below k) es)).
    rewrite unflatten_loop_cons in *.
    destruct (unflatten_entry dct_class child (CompoundKey path) v)
      as [ c1 | e ] eqn:E1; [ | discriminate ].
    rewrite (unflatten_entry_below_present _ _ _ _ _ _ _ G E1).
    simpl in *. rewrite (IH _ c1 child'); trivial.
    + rewrite dict_set_set. reflexivity.
    + apply dict_get_set_same.
Qed.

(** The same where [k] leads nowhere yet: the first entry creates the
    dictionary under [k]. *)
Lemma unflatten_below_absent (k : key) (es : list (list key * value)) :
  forall (d : dict) (child' : value),
    es <> [] ->
    dict_get d k = None ->
    unflatten_loop None (VDict []) (map flat_entry es) = Ok child' ->
    unflatten_loop None (VDict d) (map flat_entry (map (below k) es))
    = Ok (VDict (d ++ [(k, child')])).
Proof.
  intros d child' N G E.
  destruct es as [ | [path v] es ]; [ congruence | ].
  change (map flat_entry ((path, v) :: es))
    with ((CompoundKey path, v) :: map flat_entry es) in E.
  change (map flat_entry (map (below k) ((path, v) :: es)))
    with ((CompoundKey (k :: path), v)
            :: map flat_entry (map (below k) es)).
  rewrite unflatten_loop_cons in *.
  destruct (unflatten_entry None (VDict []) (CompoundKey path) v)
    as [ c1 | e ] eqn:E1; [ | discriminate ].
  rewrite (unflatten_entry_below_absent _ _ _ _ _ G E1).
  simpl in *.
  rewrite (unflatten_below_present None k es _ c1 child'); trivial.
  - rewrite dict_set_set, dict_set_absent; trivial.
  - apply dict_get_set_same.
Qed.

Lemma entry_leaves_below (v : value) :
  forall (p parent : list key) (k : key),
    entry_leaves (p ++ parent) k v
    = map (fun pv => (p ++ fst pv, snd pv)) (entry_leaves parent k v).
Proof.
  induction v as [ | n | s | vs IH | vs IH | vs IH | vs IH | sub IH
                 | sub IH ] using value_nested_ind;
    intros p parent k; simpl; try (rewrite <- app_assoc; reflexivity).
  induction IH as [ | [k' v'] sub Hv _ IHsub ]; simpl in *; trivial.
  rewrite map_app, <- IHsub. f_equal.
  rewrite <- app_assoc. apply Hv.
Qed.

Lemma leaves_below (k : key) (sub : dict) :
  leaves [k] sub = map (below k) (leaves [] sub).
Proof.
  unfold leaves. induction sub as [ | [k' v'] sub IH ]; simpl; trivial.
  rewrite map_app, <- IH. f_equal.
  apply (entry_leaves_below v' [k] [] k').
Qed.

Lemma flat_map_nil (A B : Type) (f : A -> list B) (l : list A) :
  flat_map f l = [] <-> Forall (fun x => f x = []) l.
Proof.
  induction l as [ | x l IH ]; simpl.
  - split; auto.
  - split.
    + intros E. apply app_eq_nil in E as [E1 E2]. constructor; tauto.
    + intros H. inversion H; subst. rewrite H2. simpl. tauto.
Qed.

(** Nothing is left of an entry exactly when it holds no leaf. *)
Lemma prune_entry_nil (v : value) :
  forall (parent : list key) (k : key),
    prune_entry k v = [] <-> entry_leaves parent k v = [].
Proof.
  induction v as [ | n | s | vs IH | vs IH | vs IH | vs IH | sub IH
                 | sub IH ] using value_nested_ind;
    intros parent k; simpl; try (split; discriminate).
  assert (flat_map (fun kv => prune_entry (fst kv) (snd kv)) sub = [] <->
          flat_map (fun kv => entry_leaves (parent ++ [k]) (fst kv) (snd kv))
                   sub = []) as X.
  { rewrite !flat_map_nil. rewrite Forall_forall in IH.
    rewrite !Forall_forall. split; intros H kv Hin.
    - apply IH; auto.
    - apply (IH kv Hin (parent ++ [k])); auto. }
  rewrite <- X.
  destruct (flat_map (fun kv => prune_entry (fst kv) (snd kv)) sub);
    split; try discriminate; reflexivity.
Qed.

Lemma prune_entry_shape (k : key) (v : value) :
  prune_entry k v = [] \/ exists v', prune_entry k v = [(k, v')].
Proof.
  destruct v; simpl; eauto.
  destruct (flat_map _ items); eauto.
Qed.

(** Rebuilding from the leaves of well-formed entries, into a dictionary
    that has none of their keys, appends the entries without their
    leafless dictionaries. *)
Lemma unflatten_leaves_entries (entries : dict) :
  Forall (fun kv => forall k acc,
            dict_get acc k = None -> wf_value (snd kv) = true ->
            unflatten_loop None (VDict acc)
              (map flat_entry (entry_leaves [] k (snd kv)))
            = Ok (VDict (acc ++ prune_entry k (snd kv)))) entries ->
  forall acc,
    (forall kv, In kv entries -> dict_get acc (fst kv) = None) ->
    wf_value (VDict entries) = true ->
    unflatten_loop None (VDict acc) (map flat_entry (leaves [] entries))
    = Ok (VDict (acc ++ prune entries)).
Proof.
  unfold leaves, prune.
  induction 1 as [ | [k v] entries Hv _ IH ]; intros acc G W; simpl.
  - rewrite app_nil_r. reflexivity.
  - simpl in W. apply andb_true_iff in W as [U W].
    apply andb_true_iff in U as [Uk U]. apply andb_true_iff in W as [Wv W].
    rewrite map_app, unflatten_loop_app. simpl in Hv.
    rewrite Hv; trivial; [ | apply (G (k, v)); left; reflexivity ].
    simpl. rewrite IH.
    + rewrite app_assoc. reflexivity.
    + intros kv Hin. rewrite dict_get_app, G by (right; exact Hin).
      apply negb_true_iff in Uk.
      assert (key_eqb k (fst kv) = false) as Nk.
      { destruct (key_eqb k (fst kv)) eqn:E; trivial.
        assert (existsb (key_eqb k) (map fst entries) = true) as X.
        { apply existsb_exists. exists (fst kv). split; trivial.
          apply in_map, Hin. }
        congruence. }
      destruct (prune_entry_shape k v) as [ -> | (v' & ->) ]; simpl; trivial.
      rewrite Nk. reflexivity.
    + simpl. rewrite U, W. reflexivity.
Qed.

Lemma entry_leaves_dict (parent : list key) (k : key) (sub : dict) :
  entry_leaves parent k (VDict sub) = leaves (parent ++ [k]) sub.
Proof. reflexivity. Qed.

Lemma prune_entry_dict (k : key) (sub : dict) :
  prune_entry k (VDict sub) =
  match prune sub with
  | [] => []
  | sub' => [(k, VDict sub')]
  end.
Proof. reflexivity. Qed.

Lemma unflatten_entry_leaves (v : value) :
  forall k acc,
    dict_get acc k = None -> wf_value v = true ->
    unflatten_loop None (VDict acc) (map flat_entry (entry_leaves [] k v))
    = Ok (VDict (acc ++ prune_entry k v)).
Proof.
  induction v as [ | n | s | vs IH | vs IH | vs IH | vs IH | sub IH
                 | sub IH ] using value_nested_ind;
    intros k acc G W;
    try (simpl; rewrite dict_set_absent by exact G; reflexivity).
  pose proof (unflatten_leaves_entries sub IH []
                (fun _ _ => eq_refl) W) as Q.
  rewrite entry_leaves_dict, prune_entry_dict. simpl app in *.
  rewrite leaves_below.
  destruct (leaves [] sub) as [ | e es ] eqn:L.
  - simpl in *. injection Q as <-. rewrite app_nil_r. reflexivity.
  - rewrite (unflatten_below_absent k (e :: es) acc (VDict (prune sub)));
      trivial; try discriminate.
    destruct (prune sub) eqn:P; trivial.
    exfalso.
    assert (prune_entry k (VDict sub) = []) as X
      by (rewrite prune_entry_dict, P; reflexivity).
    apply (prune_entry_nil (VDict sub) [] k) in X.
    rewrite entry_leaves_dict in X. simpl app in X.
    rewrite leaves_below, L in X. discriminate.
Qed.

(** [flatdict_to_dict(dict_to_flatdict(m))] is [m] without the plain
    dictionaries that hold no leaf. *)
Lemma unflatten_flatten (fuel : nat) (entries : dict) :
  dict_depth (VDict entries) <= fuel ->
  wf_value (VDict entries) = true ->
  dict_to_flatdict fuel (VDict entries) None
  = Ok (map flat_entry (leaves [] entries))
  /\ flatdict_to_dict (VDict (map flat_entry (leaves [] entries))) None
     = Ok (VDict (prune entries)).
Proof.
  intros D W. split.
  - assert (dict_to_flatdict fuel (VDict entries) None
            = dict_to_flatdict fuel (VDict entries) (Some []))
      as -> by (destruct fuel; reflexivity).
    apply dict_to_flatdict_leaves; trivial.
  - unfold flatdict_to_dict. simpl.
    apply (unflatten_leaves_entries entries); trivial.
    apply Forall_forall. intros kv _. apply unflatten_entry_leaves.
Qed.

Lemma prune_entry_full (v : value) :
  forall k, no_empty_dict v = true -> prune_entry k v = [(k, v)].
Proof.
  induction v as [ | n | s | vs IH | vs IH | vs IH | vs IH | sub IH
                 | sub IH ] using value_nested_ind;
    intros k N; simpl in *; trivial.
  apply andb_true_iff in N as [N1 N2].
  assert (flat_map (fun kv => prune_entry (fst kv) (snd kv)) sub = sub) as ->.
  { clear N1. induction IH as [ | [k' v'] sub Hv _ IHsub ]; simpl in *;
      trivial.
    apply andb_true_iff in N2 as [Nv N2].
    rewrite Hv, IHsub; trivial. }
  destruct sub; [ discriminate | reflexivity ].
Qed.

Lemma prune_full (entries : dict) :
  forallb (fun kv => no_empty_dict (snd kv)) entries = true ->
  prune entries = entries.
Proof.
  unfold prune. induction entries as [ | [k v] entries IH ]; simpl; trivial.
  intros N. apply andb_true_iff in N as [Nv N].
  rewrite prune_entry_full, IH; trivial.
Qed.

(** An instance obtained through the class hides none of the mapping
    methods. *)
Lemma reachable_method (self : DotDict.t) (name : string) :
  DotDict.reachable self ->
  In name ["items"; "get"; "setdefault"; "keys"; "values"; "update"] ->
  DotDict.method self name = Ok tt.
Proof.
  intros R Hin.
  assert (dict_get self (KStr name) = None) as G.
  { destruct (dict_get self (KStr name)) as [ v | ] eqn:G; trivial.
    pose proof (reachable_present _ _ _ R G) as H.
    simpl in Hin. intuition (subst; discriminate). }
  unfold DotDict.method, DotDict.__getattribute__. rewrite G.
  simpl in Hin. intuition (subst; reflexivity).
Qed.

Lemma dict_to_flatdict_DotDict (fuel : nat) (self : DotDict.t)
    (parent : option (list key)) :
  DotDict.method self "items" = Ok tt ->
  dict_to_flatdict fuel (VDotDict self) parent
  = dict_to_flatdict fuel (VDict self) parent.
Proof. intros H. destruct fuel; simpl; [ | rewrite H ]; reflexivity. Qed.

(** C1, as the code has it: for a nested mapping [m], a [dict] or a
    [DotDict] obtained through its class, none of whose nested plain
    dictionaries is empty and whose plain dictionaries are nested no deeper
    than the calls of [dict_to_flatdict] may nest, [dict_to_flatdict(m)]
    returns and [flatdict_to_dict] of the result, with the default mapping
    type, returns the [dict] that holds the entries of [m], in the same
    order at every level: [m] itself when [m] is a [dict], and a [dict]
    that [==] finds equal to [m] when [m] is a [DotDict].  (Neither tuple
    keys nor [CompoundKey] keys in [m] stand in the way.) *)
Theorem flatten_unflatten_roundtrip (fuel : nat) (m : value)
    (entries : dict) :
  m = VDict entries
  \/ (m = VDotDict entries /\ DotDict.reachable entries) ->
  wf_value m = true ->
  forallb (fun kv => no_empty_dict (snd kv)) entries = true ->
  dict_depth (VDict entries) <= fuel ->
  exists flat,
    dict_to_flatdict fuel m None = Ok (flat : dict)
    /\ flatdict_to_dict (VDict flat) None = Ok (VDict entries).
Proof.
  intros Hm W N D.
  assert (wf_value (VDict entries) = true) as W'
    by (destruct Hm as [ -> | [-> _] ]; exact W).
  assert (dict_to_flatdict fuel m None
          = dict_to_flatdict fuel (VDict entries) None) as ->.
  { destruct Hm as [ -> | [-> R] ]; trivial.
    apply dict_to_flatdict_DotDict, reachable_method; trivial.
    simpl. auto. }
  destruct (unflatten_flatten fuel entries D W') as [F U].
  exists (map flat_entry (leaves [] entries)). split; trivial.
  rewrite U, prune_full; trivial.
Qed.

(** [unflatten(flatten({"a": {"b": 1, "c": {"d": 2}}}))] *)
Lemma flatten_unflatten_roundtrip_witness :
  exists flat,
    dict_to_flatdict recursion_limit
      (VDict [(KStr "a", VDict [(KStr "b", VInt 1);
                                (KStr "c", VDict [(KStr "d", VInt 2)])])])
      None = Ok (flat : dict)
    /\ flatdict_to_dict (VDict flat) None
       = Ok (VDict [(KStr "a", VDict [(KStr "b", VInt 1);
                                      (KStr "c", VDict [(KStr "d", VInt 2)])])]).
Proof.
  apply (flatten_unflatten_roundtrip recursion_limit
           (VDict [(KStr "a", VDict [(KStr "b", VInt 1);
                                     (KStr "c", VDict [(KStr "d", VInt 2)])])])
           [(KStr "a", VDict [(KStr "b", VInt 1);
                              (KStr "c", VDict [(KStr "d", VInt 2)])])]).
  - left. reflexivity.
  - reflexivity.
  - reflexivity.
  - unfold recursion_limit. simpl. lia.
Defined.

(** C1 as stated fails on a mapping nested deeper than the calls may nest:
    [{"a": {"a": ... None}}] with one level more than the recursion limit
    has distinct keys and no empty nested mapping, and
    [dict_to_flatdict] raises [RecursionError] on it. *)
Lemma flatten_deep_raises :
  wf_value (nested (S recursion_limit) VNone) = true
  /\ no_empty_dict (nested (S recursion_limit) VNone) = true
  /\ dict_to_flatdict recursion_limit (nested (S recursion_limit) VNone) None
     = Raise RecursionError
  /\ ~ (forall m : value,
          isinstance_dict m = true -> wf_value m = true ->
          no_empty_dict m = true ->
          exists flat,
            dict_to_flatdict recursion_limit m None = Ok (flat : dict)
            /\ flatdict_to_dict (VDict flat) None = Ok m).
Proof.
  assert (dict_to_flatdict recursion_limit
            (nested (S recursion_limit) VNone) None
          = Raise RecursionError) as E by (vm_compute; reflexivity).
  split; [ vm_compute; reflexivity | ].
  split; [ vm_compute; reflexivity | ].
  split; [ exact E | ].
  intros H.
  destruct (H (nested (S recursion_limit) VNone)) as (flat & F & _);
    try (vm_compute; reflexivity).
  rewrite E in F. discriminate F.
Qed.

(* ================================================================== *)
(** ** Where flatdict_to_dict returns *)
(* ================================================================== *)

Lemma open_at_dict (obj : value) (q : list key) :
  open_at obj q -> exists d, obj = VDict d.
Proof. destruct q; simpl; intros (d & -> & _); eauto. Qed.

Lemma open_at_empty (q : list key) : open_at (VDict []) q.
Proof. destruct q; exists []; simpl; auto. Qed.

Lemma open_at_cons (d : dict) (k : key) (q : list key) :
  open_at (VDict d) (k :: q) <->
  match dict_get d k with
  | Some child => open_at child q
  | None => True
  end.
Proof.
  simpl. split.
  - intros (d' & [= <-] & H). exact H.
  - intros H. exists d. auto.
Qed.

Lemma split_last_app (path init : list key) (last : key) :
  split_last path = Some (init, last) -> path = init ++ [last].
Proof.
  revert init. induction path as [ | k path IH ]; intros init; simpl.
  - discriminate.
  - destruct path as [ | k' path' ].
    + intros [= <- <-]. reflexivity.
    + destruct (split_last (k' :: path')) as [ [i l] | ]; try discriminate.
      intros [= <- <-]. simpl. f_equal. apply IH. reflexivity.
Qed.

Lemma split_last_nonempty (path : list key) :
  path <> [] -> exists init last, split_last path = Some (init, last).
Proof.
  induction path as [ | k path IH ]; intros N; [ congruence | ].
  destruct path as [ | k' path' ].
  - simpl. eauto.
  - destruct IH as (i & l & E); [ discriminate | ].
    exists (k :: i), l. apply split_last_cons, E.
Qed.

(** The walk along a path that is open succeeds. *)
Lemma set_path_ok (init : list key) :
  forall (obj : value) (last : key) (v : value),
    open_at obj init -> exists obj', set_path None obj init last v = Ok obj'.
Proof.
  induction init as [ | k init IH ]; intros obj last v H.
  - destruct (open_at_dict _ _ H) as (d & ->). simpl. eauto.
  - destruct (open_at_dict _ _ H) as (d & ->).
    apply open_at_cons in H. simpl.
    destruct (dict_get d k) as [ child | ]; simpl.
    + destruct (IH child last v H) as (c' & ->). simpl. eauto.
    + destruct (IH (VDict []) last v (open_at_empty _)) as (c' & ->).
      simpl. eauto.
Qed.

(** After the walk, every path that the written one is not an initial part
    of is still open. *)
Lemma set_path_open (init : list key) :
  forall (obj obj' : value) (last : key) (v : value) (q : list key),
    set_path None obj init last v = Ok obj' ->
    open_at obj q ->
    is_prefix (init ++ [last]) q = false ->
    open_at obj' q.
Proof.
  induction init as [ | ki init IH ]; intros obj obj' last v q E H N.
  - destruct (open_at_dict _ _ H) as (d & ->).
    simpl in E. injection E as <-.
    destruct q as [ | k q ]; [ exists (dict_set d last v); simpl; auto | ].
    apply open_at_cons. apply open_at_cons in H.
    simpl in N. rewrite andb_true_r in N.
    rewrite dict_get_set, N. exact H.
  - destruct (open_at_dict _ _ H) as (d & ->).
    assert (exists child child',
               match dict_get d ki with
               | Some c => c
               | None => VDict []
               end = child
               /\ set_path None child init last v = Ok child'
               /\ obj' = VDict (dict_set d ki child')) as (c & c' & Ec & E1 & ->).
    { simpl in E. destruct (dict_get d ki) as [ c | ]; simpl in E.
      - destruct (set_path None c init last v) as [ c' | e ] eqn:E1;
          simpl in E; [ | discriminate ].
        injection E as <-. eauto.
      - destruct (set_path None (VDict []) init last v) as [ c' | e ] eqn:E1;
          simpl in E; [ | discriminate ].
        injection E as <-. rewrite dict_set_set. eauto. }
    destruct q as [ | k q ]; [ eexists; simpl; eauto | ].
    apply open_at_cons. apply open_at_cons in H.
    simpl in N. rewrite dict_get_set.
    destruct (key_eqb ki k) eqn:K; simpl in N.
    + apply (IH c c' last v q); trivial.
      rewrite <- (dict_get_congr _ _ _ _ K) in H.
      destruct (dict_get d ki); subst c; trivial. apply open_at_empty.
    + exact H.
Qed.

Lemma unflatten_entry_path (obj : value) (k : key) (v : value)
    (init : list key) (last : key) :
  split_last (key_path k) = Some (init, last) ->
  unflatten_entry None obj k v = set_path None obj init last v.
Proof.
  unfold unflatten_entry.
  destruct k; simpl; try (intros [= <- <-]; reflexivity).
  intros ->. reflexivity.
Qed.

(** The loop returns on entries none of which properly extends the path of
    one before it. *)
Lemma unflatten_loop_prefix_free (entries : dict) :
  forall (seen : list (list key)) (obj : value),
    (forall q, forallb (fun p => negb (is_prefix p q)) seen = true ->
               open_at obj q) ->
    prefix_free seen entries = true ->
    exists obj', unflatten_loop None obj entries = Ok obj'.
Proof.
  induction entries as [ | [k v] entries IH ]; intros seen obj Inv F.
  - simpl. eauto.
  - simpl in F. apply andb_true_iff in F as [F F3].
    apply andb_true_iff in F as [F1 F2].
    destruct (split_last_nonempty (key_path k)) as (init & last & S).
    { destruct (key_path k); [ discriminate | discriminate ]. }
    rewrite unflatten_loop_cons, (unflatten_entry_path _ _ _ _ _ S).
    assert (open_at obj init) as O.
    { apply Inv. rewrite forallb_forall in *. intros p Hp.
      specialize (F2 p Hp). unfold proper_prefix in F2.
      rewrite S in F2. exact F2. }
    destruct (set_path_ok init obj last v O) as (obj1 & E1).
    rewrite E1. simpl.
    apply (IH (key_path k :: seen)); trivial.
    intros q Hq. simpl in Hq. apply andb_true_iff in Hq as [Hq1 Hq2].
    apply (set_path_open init obj obj1 last v q); auto.
    rewrite <- (split_last_app _ _ _ S).
    apply negb_true_iff, Hq1.
Qed.

(** One step of the walk, on a plain dictionary. *)
Lemma set_path_cons_inv (d : dict) (ki : key) (init : list key) (last : key)
    (v obj' : value) :
  set_path None (VDict d) (ki :: init) last v = Ok obj' ->
  exists child',
    set_path None (match dict_get d ki with
                   | Some c => c
                   | None => VDict []
                   end) init last v = Ok child'
    /\ obj' = VDict (dict_set d ki child').
Proof.
  intros E. simpl in E. destruct (dict_get d ki) as [ c | ]; simpl in E.
  - destruct (set_path None c init last v) as [ c' | e ] eqn:E1;
      simpl in E; [ | discriminate ].
    inversion E; subst. eauto.
  - destruct (set_path None (VDict []) init last v) as [ c' | e ] eqn:E1;
      simpl in E; [ | discriminate ].
    inversion E; subst. rewrite dict_set_set. eauto.
Qed.

(** Nothing can be written into or below a sealed object. *)
Lemma set_path_sealed (c : value) (init : list key) (last : key)
    (v r : value) :
  sealed c = true -> set_path None c init last v <> Ok r.
Proof.
  destruct c; try discriminate; intros _; destruct init; discriminate.
Qed.

Lemma dict_tree_dict (obj : value) :
  dict_tree obj = true -> exists d, obj = VDict d.
Proof. destruct obj; try discriminate. eauto. Qed.

Lemma dict_tree_set (d : dict) (k : key) (c : value) :
  dict_tree (VDict d) = true ->
  (sealed c || dict_tree c)%bool = true ->
  dict_tree (VDict (dict_set d k c)) = true.
Proof.
  simpl. induction d as [ | [j w] d IH ]; simpl; intros H Hc.
  - rewrite Hc. reflexivity.
  - apply andb_true_iff in H as [Hw H].
    destruct (key_eqb j k); simpl.
    + rewrite Hc, H. reflexivity.
    + rewrite Hw, IH; trivial.
Qed.

Lemma dict_tree_get (d : dict) (k : key) (c : value) :
  dict_tree (VDict d) = true -> dict_get d k = Some c ->
  (sealed c || dict_tree c)%bool = true.
Proof.
  simpl. induction d as [ | [j w] d IH ]; simpl; try discriminate.
  intros H. apply andb_true_iff in H as [Hw H].
  destruct (key_eqb j k); auto. intros [= <-]. exact Hw.
Qed.

(** The dictionary the walk goes into next is a dictionary of the same
    kind. *)
Lemma dict_tree_child (d : dict) (ki : key) (init : list key) (last : key)
    (v c' : value) :
  dict_tree (VDict d) = true ->
  set_path None (match dict_get d ki with
                 | Some c => c
                 | None => VDict []
                 end) init last v = Ok c' ->
  dict_tree (match dict_get d ki with
             | Some c => c
             | None => VDict []
             end) = true.
Proof.
  intros T E. destruct (dict_get d ki) as [ c | ] eqn:G; trivial.
  pose proof (dict_tree_get _ _ _ T G) as H.
  apply orb_true_iff in H as [ H | H ]; trivial.
  destruct (set_path_sealed _ _ _ _ _ H E).
Qed.

Lemma set_path_dict_tree (init : list key) :
  forall (obj obj' : value) (last : key) (v : value),
    set_path None obj init last v = Ok obj' ->
    dict_tree obj = true -> sealed v = true ->
    dict_tree obj' = true.
Proof.
  induction init as [ | ki init IH ]; intros obj obj' last v E T Sv;
    destruct (dict_tree_dict _ T) as (d & ->).
  - simpl in E. inversion E; subst.
    apply dict_tree_set; trivial. rewrite Sv. reflexivity.
  - apply set_path_cons_inv in E as (c' & E1 & ->).
    apply dict_tree_set; trivial.
    rewrite (IH _ _ _ _ E1 (dict_tree_child _ _ _ _ _ _ T E1) Sv).
    apply orb_true_r.
Qed.

(** A walk that runs into a sealed object, or ends at one, fails. *)
Lemma set_path_blocked (init : list key) :
  forall (obj : value) (p : list key) (last : key) (v r : value),
    hits_sealed obj p -> is_prefix p init = true ->
    set_path None obj init last v <> Ok r.
Proof.
  induction init as [ | ki init IH ]; intros obj p last v r H P E;
    destruct p as [ | k p ]; try contradiction; try discriminate.
  destruct obj; try contradiction.
  simpl in H, P. apply andb_true_iff in P as [K P].
  destruct (dict_get items k) as [ child | ] eqn:G; [ | contradiction ].
  apply set_path_cons_inv in E as (c' & E1 & _).
  rewrite <- (dict_get_congr _ items k ki K), G in E1.
  destruct H as [ H | H ].
  - apply (set_path_sealed _ _ _ _ _ H E1).
  - apply (IH _ _ _ _ _ H P E1).
Qed.

(** After the walk a sealed object is met at the end of the path
    written. *)
Lemma set_path_hits_new (init : list key) :
  forall (obj obj' : value) (last : key) (v : value),
    set_path None obj init last v = Ok obj' ->
    dict_tree obj = true -> sealed v = true ->
    hits_sealed obj' (init ++ [last]).
Proof.
  induction init as [ | ki init IH ]; intros obj obj' last v E T Sv;
    destruct (dict_tree_dict _ T) as (d & ->).
  - simpl in E. inversion E; subst. simpl.
    rewrite dict_get_set_same. left. exact Sv.
  - apply set_path_cons_inv in E as (c' & E1 & ->).
    simpl. rewrite dict_get_set_same. right.
    apply (IH _ _ _ _ E1 (dict_tree_child _ _ _ _ _ _ T E1) Sv).
Qed.

(** The sealed objects met before the walk are still met after it. *)
Lemma set_path_hits_old (init : list key) :
  forall (obj obj' : value) (last : key) (v : value) (p : list key),
    set_path None obj init last v = Ok obj' ->
    dict_tree obj = true -> sealed v = true ->
    hits_sealed obj p -> hits_sealed obj' p.
Proof.
  induction init as [ | ki init IH ]; intros obj obj' last v p E T Sv H;
    destruct (dict_tree_dict _ T) as (d & ->);
    destruct p as [ | k p ]; try contradiction; simpl in H;
    destruct (dict_get d k) as [ child | ] eqn:G; try contradiction.
  - simpl in E. inversion E; subst. simpl. rewrite dict_get_set.
    destruct (key_eqb last k); [ left; exact Sv | rewrite G; exact H ].
  - apply set_path_cons_inv in E as (c' & E1 & ->).
    simpl. rewrite dict_get_set.
    destruct (key_eqb ki k) eqn:K; [ | rewrite G; exact H ].
    rewrite (dict_get_congr _ d ki k K), G in E1.
    destruct H as [ H | H ].
    + destruct (set_path_sealed _ _ _ _ _ H E1).
    + right. apply (IH _ _ _ _ _ E1); trivial.
      pose proof (dict_tree_get _ _ _ T G) as X.
      apply orb_true_iff in X as [ X | X ]; trivial.
      destruct (set_path_sealed _ _ _ _ _ X E1).
Qed.

(** With sealed values, the loop returns only on entries none of which
    properly extends the path of one before it. *)
Lemma unflatten_loop_ok_prefix_free (entries : dict) :
  forall (seen : list (list key)) (obj r : value),
    dict_tree obj = true ->
    (forall p, In p seen -> hits_sealed obj p) ->
    forallb (fun kv => sealed (snd kv)) entries = true ->
    unflatten_loop None obj entries = Ok r ->
    prefix_free seen entries = true.
Proof.
  induction entries as [ | [k v] entries IH ]; intros seen obj r T Hs Sv E;
    trivial.
  simpl in Sv. apply andb_true_iff in Sv as [Sv Svs].
  rewrite unflatten_loop_cons in E.
  destruct (unflatten_entry None obj k v) as [ obj1 | e ] eqn:E1;
    [ | discriminate ].
  simpl in E.
  assert (key_path k <> []) as N.
  { intros N. destruct k; try discriminate. simpl in N. subst ks.
    discriminate E1. }
  destruct (split_last_nonempty _ N) as (init & last & S).
  rewrite (unflatten_entry_path _ _ _ _ _ S) in E1.
  simpl. apply andb_true_iff. split; [ apply andb_true_iff; split | ].
  - destruct (key_path k); [ congruence | reflexivity ].
  - apply forallb_forall. intros p Hp. apply negb_true_iff.
    unfold proper_prefix. rewrite S.
    destruct (is_prefix p init) eqn:P; trivial.
    destruct (set_path_blocked init obj p last v obj1 (Hs p Hp) P E1).
  - apply (IH _ obj1 r); trivial.
    + apply (set_path_dict_tree _ _ _ _ _ E1 T Sv).
    + intros p [ <- | Hp ].
      * rewrite (split_last_app _ _ _ S).
        apply (set_path_hits_new _ _ _ _ _ E1 T Sv).
      * apply (set_path_hits_old _ _ _ _ _ _ E1 T Sv (Hs p Hp)).
Qed.

(** C3, as the code has it: [dict_to_flatdict] returns for every nested
    [dict] whose plain dictionaries are nested no deeper than its calls may
    nest, whatever the parent, and for every such [DotDict] obtained
    through its class, and raises [RecursionError] for a [dict] nested
    deeper; [flatdict_to_dict] returns on what [dict_to_flatdict] returns
    (giving the input back without the plain dictionaries that hold no
    leaf), and on every flat [dict] in which no [CompoundKey] is empty and
    no entry's path properly extends the path of an entry before it.  On a
    flat [dict] whose values are neither mappings nor lists these are the
    only ones it returns on.  A path may extend the path of an earlier
    entry that holds a [dict]: [{("a",): {}, ("a","b"): 1}] becomes
    [{"a": {"b": 1}}]. *)
Theorem flatten_unflatten_total :
  (forall (fuel : nat) (entries : dict) (parent : option (list key)),
      dict_depth (VDict entries) <= fuel ->
      exists flat, dict_to_flatdict fuel (VDict entries) parent = Ok flat)
  /\ (forall (fuel : nat) (entries : dict) (parent : option (list key)),
      fuel < dict_depth (VDict entries) ->
      dict_to_flatdict fuel (VDict entries) parent = Raise RecursionError)
  /\ (forall (fuel : nat) (self : DotDict.t) (parent : option (list key)),
      DotDict.reachable self ->
      dict_depth (VDict self) <= fuel ->
      exists flat, dict_to_flatdict fuel (VDotDict self) parent = Ok flat)
  /\ (forall (fuel : nat) (entries : dict),
      dict_depth (VDict entries) <= fuel ->
      wf_value (VDict entries) = true ->
      exists flat,
        dict_to_flatdict fuel (VDict entries) None = Ok (flat : dict)
        /\ flatdict_to_dict (VDict flat) None
           = Ok (VDict (prune entries)))
  /\ (forall flat : dict,
      prefix_free [] flat = true ->
      exists result, flatdict_to_dict (VDict flat) None = Ok result)
  /\ (forall flat : dict,
      forallb (fun kv => sealed (snd kv)) flat = true ->
      (exists result, flatdict_to_dict (VDict flat) None = Ok result) ->
      prefix_free [] flat = true)
  /\ flatdict_to_dict
       (VDict [(CompoundKey [KStr "a"], VDict []);
               (CompoundKey [KStr "a"; KStr "b"], VInt 1)]) None
     = Ok (VDict [(KStr "a", VDict [(KStr "b", VInt 1)])]).
Proof.
  split; [ | split; [ | split; [ | split; [ | split; [ | split ] ] ] ] ].
  - intros fuel entries parent D. apply dict_to_flatdict_total, D.
  - intros fuel entries parent D. apply dict_to_flatdict_deep, D.
  - intros fuel self parent R D.
    rewrite dict_to_flatdict_DotDict
      by (apply reachable_method; simpl; auto).
    apply dict_to_flatdict_total, D.
  - intros fuel entries D W.
    destruct (unflatten_flatten fuel entries D W) as [F U]. eauto.
  - intros flat F. unfold flatdict_to_dict. simpl.
    apply (unflatten_loop_prefix_free flat []); trivial.
    intros q _. apply open_at_empty.
  - intros flat Sv (result & E). unfold flatdict_to_dict in E. simpl in E.
    apply (unflatten_loop_ok_prefix_free flat [] (VDict []) result);
      trivial.
    intros p [].
  - reflexivity.
Qed.

(** [{"a": {}, "b": {"c": 1}}] goes through both functions and comes back
    as [{"b": {"c": 1}}]; the flat [{("a","b"): 2, ("a",): 1}] is accepted. *)
Lemma flatten_unflatten_total_witness :
  (exists flat,
      dict_to_flatdict recursion_limit
        (VDict [(KStr "a", VDict []); (KStr "b", VDict [(KStr "c", VInt 1)])])
        None = Ok (flat : dict)
      /\ flatdict_to_dict (VDict flat) None
         = Ok (VDict [(KStr "b", VDict [(KStr "c", VInt 1)])]))
  /\ (exists result,
        flatdict_to_dict
          (VDict [(CompoundKey [KStr "a"; KStr "b"], VInt 2);
                  (CompoundKey [KStr "a"], VInt 1)]) None = Ok result).
Proof.
  destruct flatten_unflatten_total as (_ & _ & _ & Hround & Hfree & _).
  split.
  - apply (Hround recursion_limit
             [(KStr "a", VDict []);
              (KStr "b", VDict [(KStr "c", VInt 1)])]);
      [ unfold recursion_limit; simpl; lia | reflexivity ].
  - apply (Hfree [(CompoundKey [KStr "a"; KStr "b"], VInt 2);
                  (CompoundKey [KStr "a"], VInt 1)]).
    reflexivity.
Defined.

(** C3 as stated fails: with [("a",)] before [("a","b")] the second entry
    is assigned into the value of the first, an [int]; with a third segment
    the walk calls [setdefault] on it; an empty [CompoundKey] has no last
    segment. *)
Lemma flatdict_to_dict_raises :
  flatdict_to_dict
    (VDict [(CompoundKey [KStr "a"], VInt 1);
            (CompoundKey [KStr "a"; KStr "b"], VInt 2)]) None
  = Raise TypeError
  /\ flatdict_to_dict
       (VDict [(CompoundKey [KStr "a"], VInt 1);
               (CompoundKey [KStr "a"; KStr "b"; KStr "c"], VInt 2)]) None
     = Raise AttributeError
  /\ flatdict_to_dict (VDict [(CompoundKey [], VInt 1)]) None
     = Raise IndexError
  /\ ~ (forall flat : dict,
          exists result, flatdict_to_dict (VDict flat) None = Ok result).
Proof.
  repeat split.
  intros H.
  destruct (H [(CompoundKey [], VInt 1)]) as (result & E). discriminate E.
Qed.

(* ================================================================== *)
(** ** merge_dicts *)
(* ================================================================== *)

Lemma setitem_mapping (m m' : value) (k : key) (x : value) :
  isinstance_MutableMapping m = true ->
  setitem m k x = Ok m' ->
  class_of_mapping m' = class_of_mapping m
  /\ forall k', mapping_get m' k'
                = if key_eqb k k' then Some x else mapping_get m k'.
Proof.
  destruct m; try discriminate; intros _; simpl.
  - intros [= <-]. split; trivial. intros k'. apply dict_get_set.
  - destruct (DotDict.__setitem__ items k x) as [ s | e ] eqn:E; simpl;
      [ | discriminate ].
    intros [= <-]. apply setitem_ok_inv in E as [_ ->].
    split; trivial. intros k'. apply dict_get_set.
Qed.

Lemma call_get_mapping (m : value) (k : key) (old : option value) :
  call_get m k = Ok old ->
  isinstance_MutableMapping m = true /\ old = mapping_get m k.
Proof.
  destruct m; simpl; try discriminate.
  - intros [= <-]. auto.
  - destruct (DotDict.method items "get"); simpl; try discriminate.
    intros [= <-]. auto.
Qed.

Lemma mapping_get_congr (m : value) (k k' : key) :
  key_eqb k k' = true -> mapping_get m k = mapping_get m k'.
Proof. destruct m; simpl; trivial; apply dict_get_congr. Qed.

(** What the loop of [merge_dicts] leaves in [new_dict]. *)
Lemma merge_loop_result (fuel : nat) (entries : dict) :
  forall new_dict r : value,
    keys_unique (map fst entries) = true ->
    merge_loop (merge_dicts fuel) new_dict entries = Ok r ->
    class_of_mapping r = class_of_mapping new_dict
    /\ forall k,
         match dict_get entries k with
         | None => mapping_get r k = mapping_get new_dict k
         | Some v2 =>
             exists x, mapping_get r k = Some x
                       /\ entry_merged fuel (mapping_get new_dict k) v2 x
         end.
Proof.
  induction entries as [ | [k0 v0] entries IH ]; intros nd r U E.
  - simpl in E. injection E as <-. simpl. auto.
  - simpl in U. apply andb_true_iff in U as [U0 U].
    apply negb_true_iff in U0.
    simpl in E.
    destruct (call_get nd k0) as [ old | e ] eqn:G; simpl in E;
      [ | discriminate ].
    apply call_get_mapping in G as [M ->].
    match type of E with
    | bind ?c _ = _ => destruct c as [ nd' | e ] eqn:S
    end; simpl in E; [ | discriminate ].
    assert (exists x, setitem nd k0 x = Ok nd'
                      /\ entry_merged fuel (mapping_get nd k0) v0 x)
      as (x0 & S' & Hx0).
    { unfold entry_merged.
      destruct (mapping_get nd k0) as [ v1 | ]; [ | eauto ].
      destruct (isinstance_MutableMapping v1 && isinstance_MutableMapping v0);
        [ | eauto ].
      destruct (merge_dicts fuel v1 v0) as [ merged | e ]; simpl in S;
        [ eauto | discriminate ]. }
    clear S.
    destruct (setitem_mapping _ _ _ _ M S') as [C Gnd'].
    destruct (IH _ _ U E) as [C' Hr].
    split; [ congruence | ].
    intros k. specialize (Hr k). simpl. rewrite Gnd' in Hr.
    destruct (key_eqb k0 k) eqn:K.
    + assert (dict_get entries k = None) as N.
      { apply dict_get_none_existsb.
        destruct (existsb (key_eqb k) (map fst entries)) eqn:X; trivial.
        apply existsb_exists in X as (k' & Hin & X).
        assert (existsb (key_eqb k0) (map fst entries) = true) as Y.
        { apply existsb_exists. exists k'. split; trivial.
          eapply key_eqb_trans; eassumption. }
        congruence. }
      rewrite N in Hr. exists x0. split; trivial.
      rewrite <- (mapping_get_congr nd _ _ K). exact Hx0.
    + exact Hr.
Qed.

Lemma call_copy_mapping (a c : value) :
  isinstance_MutableMapping a = true -> wf_value a = true ->
  call_copy a = Ok c -> c = a.
Proof.
  destruct a; try discriminate; intros _ W; simpl.
  - intros [= <-]. reflexivity.
  - destruct (DotDict.method items "copy"); simpl; try discriminate.
    destruct (DotDict.copy items) as [ self' | e ] eqn:E; simpl;
      [ | discriminate ].
    intros [= <-]. unfold DotDict.copy in E.
    simpl in W. apply andb_true_iff in W as [U _].
    pose proof (init_dict_ok_writable _ _ E) as Wr.
    assert (Ok self' = Ok items) as X
      by (rewrite <- E; apply init_dict_fresh; trivial).
    injection X as ->. reflexivity.
Qed.

Lemma merge_dicts_unfold (fuel : nat) (a b : value) (entries : dict) :
  b = VDict entries \/ b = VDotDict entries ->
  forall r, merge_dicts (S fuel) a b = Ok r ->
  exists new_dict,
    call_copy a = Ok new_dict
    /\ merge_loop (merge_dicts fuel) new_dict entries = Ok r.
Proof.
  intros [ -> | -> ] r E; cbn [merge_dicts] in E;
    destruct (call_copy a) as [ nd | e ]; simpl in E; try discriminate.
  - eauto.
  - destruct (DotDict.method entries "items"); simpl in E;
      [ eauto | discriminate ].
Qed.

Lemma dict_set_all_dict (d : dict) (k : key) (x : value) :
  all_dict (VDict d) = true -> all_dict x = true ->
  all_dict (VDict (dict_set d k x)) = true.
Proof.
  simpl. induction d as [ | [j w] d IH ]; simpl; intros H Hx.
  - rewrite Hx. reflexivity.
  - apply andb_true_iff in H as [Hw H].
    destruct (key_eqb j k); simpl.
    + rewrite Hx, H. reflexivity.
    + rewrite Hw, IH; trivial.
Qed.

Lemma dict_get_all_dict (d : dict) (k : key) (x : value) :
  all_dict (VDict d) = true -> dict_get d k = Some x -> all_dict x = true.
Proof.
  simpl. induction d as [ | [j w] d IH ]; simpl; try discriminate.
  intros H. apply andb_true_iff in H as [Hw H].
  destruct (key_eqb j k); auto. intros [= <-]. exact Hw.
Qed.

(** On plain dictionaries the loop of [merge_dicts] returns, given that the
    recursive calls on the values of the entries do. *)
Lemma merge_loop_total (recurse : value -> value -> res value)
    (entries : dict) :
  Forall (fun kv => forall d1 : dict,
            all_dict (VDict d1) = true -> all_dict (snd kv) = true ->
            isinstance_MutableMapping (snd kv) = true ->
            exists r, recurse (VDict d1) (snd kv) = Ok (VDict r)
                      /\ all_dict (VDict r) = true) entries ->
  forall nd : dict,
    all_dict (VDict nd) = true ->
    all_dict (VDict entries) = true ->
    exists r,
      merge_loop recurse (VDict nd) entries = Ok (VDict r)
      /\ all_dict (VDict r) = true.
Proof.
  induction 1 as [ | [k v] entries Hv _ IH ]; intros nd A B.
  - simpl. eauto.
  - change (all_dict (VDict ((k, v) :: entries)))
      with (all_dict v && all_dict (VDict entries))%bool in B.
    apply andb_true_iff in B as [Bv B].
    simpl in Hv. cbn [merge_loop call_get bind].
    destruct (dict_get nd k) as [ old | ] eqn:G.
    + destruct (isinstance_MutableMapping old && isinstance_MutableMapping v)
        eqn:M.
      * apply andb_true_iff in M as [M1 M2].
        pose proof (dict_get_all_dict _ _ _ A G) as Ao.
        destruct old; try discriminate.
        destruct (Hv items Ao Bv M2) as (m & -> & Am).
        cbn [bind setitem]. apply IH; trivial.
        apply dict_set_all_dict; trivial.
      * cbn [bind setitem]. apply IH; trivial.
        apply dict_set_all_dict; trivial.
    + cbn [bind setitem]. apply IH; trivial.
      apply dict_set_all_dict; trivial.
Qed.

Lemma mapping_depth_entry (entries : dict) (kv : key * value) (fuel : nat) :
  mapping_depth (VDict entries) <= S fuel -> In kv entries ->
  mapping_depth (snd kv) <= fuel.
Proof.
  intros D Hin.
  pose proof (list_max_map_In _ (fun kv => mapping_depth (snd kv)) entries
                kv Hin) as H.
  change (mapping_depth (VDict entries))
    with (S (list_max (map (fun kv => mapping_depth (snd kv)) entries))) in D.
  cbv beta in H. lia.
Qed.

(** On plain dictionaries, the second nested no deeper than the calls may
    nest, [merge_dicts] returns. *)
Lemma merge_dicts_total (fuel : nat) :
  forall (b : value) (d1 : dict),
    mapping_depth b <= fuel ->
    all_dict (VDict d1) = true -> all_dict b = true ->
    isinstance_MutableMapping b = true ->
    exists r, merge_dicts fuel (VDict d1) b = Ok (VDict r)
              /\ all_dict (VDict r) = true.
Proof.
  induction fuel as [ | fuel IH ]; intros b d1 D A B M.
  - destruct b; try discriminate; simpl in D; lia.
  - destruct b as [ | | | | | | | entries | entries ]; try discriminate.
    cbn [merge_dicts call_copy bind].
    apply merge_loop_total; trivial.
    apply Forall_forall. intros kv Hin d1' A' B' M'.
    apply IH; trivial.
    apply (mapping_depth_entry entries kv fuel D Hin).
Qed.

(** On plain dictionaries nothing but the nesting of the calls can go
    wrong. *)
Lemma merge_loop_raises_plain (recurse : value -> value -> res value)
    (entries : dict) (e : exn) :
  (forall (d1 : dict) (v r : value),
      all_dict (VDict d1) = true -> all_dict v = true ->
      recurse (VDict d1) v = Ok r ->
      exists d, r = VDict d /\ all_dict r = true) ->
  (forall (d1 : dict) (v : value),
      all_dict (VDict d1) = true -> all_dict v = true ->
      isinstance_MutableMapping v = true ->
      recurse (VDict d1) v = Raise e -> e = RecursionError) ->
  forall nd : dict,
    all_dict (VDict nd) = true ->
    all_dict (VDict entries) = true ->
    merge_loop recurse (VDict nd) entries = Raise e ->
    e = RecursionError.
Proof.
  intros Hok Hraise.
  induction entries as [ | [k v] entries IH ]; intros nd A B E;
    [ discriminate | ].
  change (all_dict (VDict ((k, v) :: entries)))
    with (all_dict v && all_dict (VDict entries))%bool in B.
  apply andb_true_iff in B as [Bv B].
  cbn [merge_loop call_get bind] in E.
  destruct (dict_get nd k) as [ old | ] eqn:G.
  - destruct (isinstance_MutableMapping old && isinstance_MutableMapping v)
      eqn:M.
    + apply andb_true_iff in M as [M1 M2].
      pose proof (dict_get_all_dict _ _ _ A G) as Ao.
      destruct old; try discriminate.
      destruct (recurse (VDict items) v) as [ m | e1 ] eqn:R.
      * destruct (Hok _ _ _ Ao Bv R) as (d & -> & Am).
        cbn [bind setitem] in E. apply (IH _ (dict_set_all_dict _ _ _ A Am) B E).
      * cbn [bind] in E. inversion E; subst.
        apply (Hraise _ _ Ao Bv M2 R).
    + cbn [bind setitem] in E.
      apply (IH _ (dict_set_all_dict _ _ _ A Bv) B E).
  - cbn [bind setitem] in E.
    apply (IH _ (dict_set_all_dict _ _ _ A Bv) B E).
Qed.

Lemma merge_loop_ok_plain (recurse : value -> value -> res value)
    (entries : dict) :
  (forall (d1 : dict) (v r : value),
      all_dict (VDict d1) = true -> all_dict v = true ->
      recurse (VDict d1) v = Ok r ->
      exists d, r = VDict d /\ all_dict r = true) ->
  forall (nd : dict) (r : value),
    all_dict (VDict nd) = true ->
    all_dict (VDict entries) = true ->
    merge_loop recurse (VDict nd) entries = Ok r ->
    exists d, r = VDict d /\ all_dict r = true.
Proof.
  intros Hok.
  induction entries as [ | [k v] entries IH ]; intros nd r A B E.
  - simpl in E. inversion E; subst. eauto.
  - change (all_dict (VDict ((k, v) :: entries)))
      with (all_dict v && all_dict (VDict entries))%bool in B.
    apply andb_true_iff in B as [Bv B].
    cbn [merge_loop call_get bind] in E.
    destruct (dict_get nd k) as [ old | ] eqn:G.
    + destruct (isinstance_MutableMapping old && isinstance_MutableMapping v)
        eqn:M.
      * apply andb_true_iff in M as [M1 M2].
        pose proof (dict_get_all_dict _ _ _ A G) as Ao.
        destruct old; try discriminate.
        destruct (recurse (VDict items) v) as [ m | e1 ] eqn:R;
          [ | discriminate ].
        destruct (Hok _ _ _ Ao Bv R) as (d & -> & Am).
        cbn [bind setitem] in E.
        apply (IH _ _ (dict_set_all_dict _ _ _ A Am) B E).
      * cbn [bind setitem] in E.
        apply (IH _ _ (dict_set_all_dict _ _ _ A Bv) B E).
    + cbn [bind setitem] in E.
      apply (IH _ _ (dict_set_all_dict _ _ _ A Bv) B E).
Qed.

Lemma merge_dicts_plain (fuel : nat) :
  forall (d1 : dict) (b : value),
    all_dict (VDict d1) = true -> all_dict b = true ->
    (forall r, merge_dicts fuel (VDict d1) b = Ok r ->
               exists d, r = VDict d /\ all_dict r = true)
    /\ (forall e, isinstance_MutableMapping b = true ->
                  merge_dicts fuel (VDict d1) b = Raise e ->
                  e = RecursionError).
Proof.
  induction fuel as [ | fuel IH ]; intros d1 b A B.
  - split; [ discriminate | ]. intros e _ E. inversion E; reflexivity.
  - split.
    + intros r E.
      destruct b as [ | | | | | | | entries | entries ]; try discriminate.
      cbn [merge_dicts call_copy bind] in E.
      apply (merge_loop_ok_plain (merge_dicts fuel) entries) with (nd := d1);
        trivial.
      intros d1' v r' A' B' E'. apply (proj1 (IH d1' v A' B') r' E').
    + intros e M E.
      destruct b as [ | | | | | | | entries | entries ]; try discriminate.
      cbn [merge_dicts call_copy bind] in E.
      apply (merge_loop_raises_plain (merge_dicts fuel) entries e)
        with (nd := d1); trivial.
      * intros d1' v r' A' B' E'. apply (proj1 (IH d1' v A' B') r' E').
      * intros d1' v A' B' Mv E'.
        apply (proj2 (IH d1' v A' B') e Mv E').
Qed.

(** C2, as the code has it.  Whenever [merge_dicts(a, b)] returns, on
    mappings [a] and [b], the result is a mapping of the type of [a] whose
    keys are those of [a] and those of [b]; under a key of [a] alone it
    holds the value of [a]; under a key of [b] it holds what
    [merge_dicts(a[k], b[k])] returns if both values are mappings, and
    [b[k]] otherwise.  It returns whenever neither argument holds a
    [DotDict] among its nested mappings and the mappings of [b] are nested
    no deeper than the calls of [merge_dicts] may nest; on such arguments
    nested deeper it can raise [RecursionError] and nothing else. *)
Theorem merge_dicts_result :
  (forall (fuel : nat) (a b r : value),
      isinstance_MutableMapping a = true ->
      isinstance_MutableMapping b = true ->
      wf_value a = true -> wf_value b = true ->
      merge_dicts (S fuel) a b = Ok r ->
      class_of_mapping r = class_of_mapping a
      /\ forall k,
           is_some (mapping_get r k)
           = (is_some (mapping_get a k) || is_some (mapping_get b k))%bool
           /\ match mapping_get b k with
              | None => mapping_get r k = mapping_get a k
              | Some v2 =>
                  exists x, mapping_get r k = Some x
                            /\ entry_merged fuel (mapping_get a k) v2 x
              end)
  /\ (forall (fuel : nat) (a b : dict),
      all_dict (VDict a) = true -> all_dict (VDict b) = true ->
      mapping_depth (VDict b) <= fuel ->
      exists r, merge_dicts fuel (VDict a) (VDict b) = Ok (VDict r))
  /\ (forall (fuel : nat) (a b : dict) (e : exn),
      all_dict (VDict a) = true -> all_dict (VDict b) = true ->
      merge_dicts fuel (VDict a) (VDict b) = Raise e ->
      e = RecursionError /\ fuel < mapping_depth (VDict b)).
Proof.
  split; [ | split ].
  - intros fuel a b r Ma Mb Wa Wb E.
    assert (exists entries,
               (b = VDict entries \/ b = VDotDict entries)
               /\ keys_unique (map fst entries) = true
               /\ forall k, mapping_get b k = dict_get entries k)
      as (entries & Hb & U & Gb).
    { destruct b; try discriminate; exists items; simpl in Wb;
        apply andb_true_iff in Wb as [U _]; auto. }
    destruct (merge_dicts_unfold fuel a b entries Hb r E) as (nd & Ec & El).
    apply call_copy_mapping in Ec; trivial. subst nd.
    destruct (merge_loop_result fuel entries a r U El) as [C H].
    split; trivial.
    intros k. specialize (H k). rewrite Gb.
    destruct (dict_get entries k) as [ v2 | ].
    + destruct H as (x & -> & Hx). simpl. rewrite orb_true_r. eauto.
    + rewrite H, orb_false_r. auto.
  - intros fuel a b A B D.
    destruct (merge_dicts_total fuel (VDict b) a D A B eq_refl) as (r & E & _).
    eauto.
  - intros fuel a b e A B E. split.
    + apply (proj2 (merge_dicts_plain fuel a (VDict b) A B) e eq_refl E).
    + destruct (Nat.lt_ge_cases fuel (mapping_depth (VDict b))) as [ H | H ];
        trivial.
      destruct (merge_dicts_total fuel (VDict b) a H A B eq_refl)
        as (r & E' & _).
      rewrite E' in E. discriminate E.
Qed.

(** [merge_dicts({"x": 1, "n": {"p": 1}}, {"x": 2, "n": {"q": 2}})] *)
Lemma merge_dicts_result_witness :
  (exists r,
      merge_dicts recursion_limit
        (VDict [(KStr "x", VInt 1); (KStr "n", VDict [(KStr "p", VInt 1)])])
        (VDict [(KStr "x", VInt 2); (KStr "n", VDict [(KStr "q", VInt 2)])])
      = Ok (VDict r))
  /\ class_of_mapping
       (VDict [(KStr "x", VInt 2);
               (KStr "n", VDict [(KStr "p", VInt 1); (KStr "q", VInt 2)])])
     = Some class_dict.
Proof.
  destruct merge_dicts_result as (Hres & Htotal & _). split.
  - apply (Htotal recursion_limit
             [(KStr "x", VInt 1); (KStr "n", VDict [(KStr "p", VInt 1)])]
             [(KStr "x", VInt 2); (KStr "n", VDict [(KStr "q", VInt 2)])]);
      [ reflexivity | reflexivity | unfold recursion_limit; simpl; lia ].
  - apply (Hres 1
             (VDict [(KStr "x", VInt 1);
                     (KStr "n", VDict [(KStr "p", VInt 1)])])
             (VDict [(KStr "x", VInt 2);
                     (KStr "n", VDict [(KStr "q", VInt 2)])])
             (VDict [(KStr "x", VInt 2);
                     (KStr "n", VDict [(KStr "p", VInt 1);
                                       (KStr "q", VInt 2)])]));
      reflexivity.
Defined.

(** C2 as stated fails where the copy of the first argument is a
    [DotDict]: a key of the second argument that [__setitem__] refuses ends
    the call, at the top or in a nested merge; and a [DotDict] holding an
    entry "copy" cannot be copied. *)
Lemma merge_dicts_raises :
  merge_dicts recursion_limit
    (VDotDict [(KStr "a", VInt 1)]) (VDict [(KStr "items", VInt 2)])
  = Raise ValueError
  /\ merge_dicts recursion_limit
       (VDict [(KStr "x", VDotDict [])])
       (VDict [(KStr "x", VDict [(KInt 1, VInt 2)])])
     = Raise TypeError
  /\ merge_dicts recursion_limit (VDotDict [(KStr "copy", VInt 1)]) (VDict [])
     = Raise TypeError
  /\ ~ (forall a b : value,
          isinstance_MutableMapping a = true ->
          isinstance_MutableMapping b = true ->
          exists r, merge_dicts recursion_limit a b = Ok r).
Proof.
  repeat split.
  intros H.
  destruct (H (VDotDict [(KStr "a", VInt 1)])
              (VDict [(KStr "items", VInt 2)]) eq_refl eq_refl) as (r & E).
  discriminate E.
Qed.

(* ================================================================== *)
(** ** merge_dicts and the objects in the store *)
(* ================================================================== *)

Section StoreFacts.
Variable leaf : Type.
Implicit Types (s : store leaf) (o : object leaf).

Lemma store_update_length s l o :
  List.length (store_update s l o) = List.length s.
Proof.
  revert l. induction s as [ | x s IH ]; intros [ | l ]; simpl; auto.
Qed.

Lemma store_update_other s l l' o :
  l <> l' -> nth_error (store_update s l o) l' = nth_error s l'.
Proof.
  revert l l'. induction s as [ | x s IH ]; intros [ | l ] [ | l' ] N;
    simpl; trivial; try congruence.
  apply IH. congruence.
Qed.

Lemma unchanged_below_refl n s : unchanged_below n s s.
Proof. split; auto. Qed.

Lemma unchanged_below_trans n s1 s2 s3 :
  unchanged_below n s1 s2 -> unchanged_below n s2 s3 ->
  unchanged_below n s1 s3.
Proof.
  intros [L1 H1] [L2 H2]. split; [ lia | ].
  intros l Hl. rewrite H2, H1; trivial.
Qed.

Lemma unchanged_below_weaken n m s s' :
  n <= m -> unchanged_below m s s' -> unchanged_below n s s'.
Proof. intros Hn [L H]. split; trivial. intros l Hl. apply H. lia. Qed.

Lemma unchanged_below_update n s l o :
  n <= l -> unchanged_below n s (store_update s l o).
Proof.
  intros Hl. split.
  - rewrite store_update_length. lia.
  - intros l' Hl'. apply store_update_other. lia.
Qed.

Lemma unchanged_below_alloc s o :
  unchanged_below (List.length s) s (fst (alloc s o)).
Proof.
  simpl. split.
  - rewrite length_app. simpl. lia.
  - intros l Hl. apply nth_error_app1, Hl.
Qed.

(** The loop writes to [new_dict] only, and the recursive calls leave the
    objects they find in place. *)
Lemma merge_loop_in_frame
    (recurse : store leaf -> nat -> nat -> store leaf * res nat)
    (new_dict n : nat) (entries : list (key * slot leaf)) :
  (forall s a b,
      unchanged_below (List.length s) s (fst (recurse s a b))) ->
  n <= new_dict ->
  forall s,
    n <= List.length s ->
    unchanged_below n s (fst (merge_loop_in recurse new_dict s entries)).
Proof.
  intros Hrec Hn.
  induction entries as [ | [k v] entries IH ]; intros s Hs;
    cbn [merge_loop_in].
  - apply unchanged_below_refl.
  - destruct (nth_error s new_dict) as [ o | ];
      [ | apply unchanged_below_refl ].
    destruct (method_of o "get"); [ | apply unchanged_below_refl ].
    assert (forall o',
               unchanged_below n s
                 (fst (merge_loop_in recurse new_dict
                         (store_update s new_dict o') entries))) as Hwrite.
    { intros o'.
      apply (unchanged_below_trans _ _ (store_update s new_dict o')).
      - apply unchanged_below_update, Hn.
      - apply IH. rewrite store_update_length. exact Hs. }
    assert (unchanged_below n s
              (fst (match object_setitem o k v with
                    | Raise e => (s, Raise e)
                    | Ok o' =>
                        merge_loop_in recurse new_dict
                          (store_update s new_dict o') entries
                    end))) as Helse.
    { destruct (object_setitem o k v); [ apply Hwrite | ].
      apply unchanged_below_refl. }
    destruct (is_mapping s (dict_get (entries_of o) k)) as [ old_l | ];
      [ | exact Helse ].
    destruct (is_mapping s (Some v)) as [ v_l | ]; [ | exact Helse ].
    pose proof (Hrec s old_l v_l) as Hr.
    destruct (recurse s old_l v_l) as [ s' [ merged | e ] ]; simpl in Hr.
    + assert (unchanged_below n s s') as Hs'
        by (apply (unchanged_below_weaken _ (List.length s)); trivial).
      destruct (nth_error s' new_dict) as [ o' | ]; [ | exact Hs' ].
      destruct (object_setitem o' k (Ref leaf merged)) as [ o'' | e ];
        [ | exact Hs' ].
      apply (unchanged_below_trans _ _ s'); trivial.
      apply (unchanged_below_trans _ _ (store_update s' new_dict o'')).
      * apply unchanged_below_update, Hn.
      * apply IH. rewrite store_update_length. destruct Hs'. lia.
    + simpl. apply (unchanged_below_weaken _ (List.length s)); trivial.
Qed.

Lemma merge_dicts_in_unchanged (fuel : nat) :
  forall s d1 d2,
    unchanged_below (List.length s) s (fst (merge_dicts_in fuel s d1 d2)).
Proof.
  induction fuel as [ | fuel IH ]; intros s d1 d2; simpl.
  - apply unchanged_below_refl.
  - destruct (nth_error s d1) as [ o1 | ]; [ | apply unchanged_below_refl ].
    destruct (nth_error s d2) as [ o2 | ]; [ | apply unchanged_below_refl ].
    destruct (object_copy o1) as [ c | e ]; [ | apply unchanged_below_refl ].
    pose proof (unchanged_below_alloc s c) as Ha. simpl in Ha.
    destruct (method_of o2 "items"); [ | exact Ha ].
    pose proof (merge_loop_in_frame (merge_dicts_in fuel)
                  (List.length s) (List.length s) (entries_of o2) IH
                  (le_n _) (s ++ [c])) as Hl.
    assert (List.length s <= List.length (s ++ [c])) as Hlen
      by (rewrite length_app; lia).
    specialize (Hl Hlen).
    destruct (merge_loop_in _ _ _ _) as [ s2 [ u | e ] ]; simpl in *;
      apply (unchanged_below_trans _ _ (s ++ [c])); trivial.
Qed.

Lemma merge_dicts_in_fresh (fuel : nat) s d1 d2 (new_dict : nat) :
  snd (merge_dicts_in fuel s d1 d2) = Ok new_dict ->
  new_dict = List.length s.
Proof.
  destruct fuel as [ | fuel ]; simpl; [ discriminate | ].
  destruct (nth_error s d1) as [ o1 | ]; [ | discriminate ].
  destruct (nth_error s d2) as [ o2 | ]; [ | discriminate ].
  destruct (object_copy o1) as [ c | e ]; [ | discriminate ].
  destruct (method_of o2 "items"); [ | discriminate ].
  destruct (merge_loop_in _ _ _ _) as [ s2 [ u | e ] ]; simpl;
    [ | discriminate ].
  intros [= <-]. reflexivity.
Qed.
End StoreFacts.

Lemma read_entries_ext (read read' : nat -> option value)
    (entries : list (key * slot value)) :
  (forall k l, In (k, Ref value l) entries -> read l = read' l) ->
  read_entries read entries = read_entries read' entries.
Proof.
  induction entries as [ | [k x] entries IH ]; intros H; simpl; trivial.
  rewrite IH by (intros k' l Hin; apply (H k'); right; exact Hin).
  destruct x as [ v | l ]; trivial.
  rewrite (H k l) by (left; reflexivity). reflexivity.
Qed.

(** In a store without dangling references, objects left unchanged have
    unchanged values, however deep. *)
Lemma value_at_unchanged (s s' : store value) :
  closed s -> unchanged_below (List.length s) s s' ->
  forall fuel l, l < List.length s -> value_at fuel s' l = value_at fuel s l.
Proof.
  intros C [_ U]. induction fuel as [ | fuel IH ]; intros l Hl; simpl; trivial.
  rewrite (U l Hl).
  destruct (nth_error s l) as [ o | ] eqn:E; trivial.
  rewrite (read_entries_ext (value_at fuel s') (value_at fuel s)); trivial.
  intros k l' Hin. apply IH. eapply C; eassumption.
Qed.

(** A value that can be read stays readable, and the same, while the
    objects present stay as they are. *)
Lemma value_at_stable (s s' : store value) :
  unchanged_below (List.length s) s s' ->
  forall depth l t, value_at depth s l = Some t -> value_at depth s' l = Some t.
Proof.
  intros [_ U]. induction depth as [ | depth IH ]; intros l t; simpl;
    [ discriminate | ].
  destruct (nth_error s l) as [ o | ] eqn:E; [ | discriminate ].
  rewrite U, E by (apply nth_error_Some; congruence).
  assert (forall d, read_entries (value_at depth s) (entries_of o) = Some d ->
                    read_entries (value_at depth s') (entries_of o) = Some d)
    as R.
  { generalize (entries_of o). intros entries.
    induction entries as [ | [k x] entries IHe ]; simpl; trivial.
    intros d.
    destruct x as [ v | l' ].
    - destruct (read_entries (value_at depth s) entries) as [ d0 | ];
        [ | discriminate ].
      rewrite (IHe d0 eq_refl). trivial.
    - destruct (value_at depth s l') as [ v | ] eqn:V; [ | discriminate ].
      rewrite (IH _ _ V).
      destruct (read_entries (value_at depth s) entries) as [ d0 | ];
        [ | discriminate ].
      rewrite (IHe d0 eq_refl). trivial. }
  destruct (read_entries (value_at depth s) (entries_of o)) as [ d | ];
    [ | discriminate ].
  rewrite (R d eq_refl). trivial.
Qed.

Lemma read_entries_ref (read : nat -> option value)
    (entries : list (key * slot value)) (d : dict) (k : key) (l : nat) :
  read_entries read entries = Some d ->
  In (k, Ref value l) entries -> exists t, read l = Some t.
Proof.
  revert d. induction entries as [ | [k' x] entries IH ]; intros d E Hin;
    simpl in *; [ contradiction | ].
  destruct (match x with Leaf v => Some v | Ref _ l0 => read l0 end)
    as [ v | ] eqn:X; [ | discriminate ].
  destruct (read_entries read entries) as [ d0 | ]; [ | discriminate ].
  destruct Hin as [ [= -> ->] | Hin ]; eauto.
Qed.

Lemma is_mapping_ref (leaf : Type) (s : store leaf) (x : slot leaf) (l : nat) :
  is_mapping s (Some x) = Some l -> x = Ref leaf l.
Proof.
  destruct x as [ v | l' ]; simpl; [ discriminate | ].
  destruct (nth_error s l'); [ | discriminate ].
  intros [= ->]. reflexivity.
Qed.

Lemma object_setitem_raises (leaf : Type) (o : object leaf) (k : key)
    (x : slot leaf) (e : exn) :
  object_setitem o k x = Raise e -> e = ValueError \/ e = TypeError.
Proof.
  unfold object_setitem. destruct (class_of o); [ discriminate | ].
  destruct k; try (intros [= <-]; auto).
  destruct (hasattr_MutableMapping s); [ intros [= <-]; auto | discriminate ].
Qed.

Lemma object_copy_raises (leaf : Type) (o : object leaf) (e : exn) :
  object_copy o = Raise e -> e = ValueError \/ e = TypeError.
Proof.
  unfold object_copy, method_of.
  destruct (class_of o); simpl; [ discriminate | ].
  destruct (dict_get (entries_of o) (KStr "copy")); simpl;
    [ intros [= <-]; auto | ].
  generalize (Object class_DotDict (@nil (key * slot leaf))).
  induction (entries_of o) as [ | [k x] entries IH ]; intros o0; simpl;
    [ discriminate | ].
  destruct (object_setitem o0 k x) as [ o1 | e1 ] eqn:E1; simpl.
  - apply IH.
  - intros [= <-]. eapply object_setitem_raises, E1.
Qed.

Lemma method_of_raises (leaf : Type) (o : object leaf) (name : string)
    (e : exn) :
  method_of o name = Raise e -> e = TypeError.
Proof.
  unfold method_of. destruct (class_of o); [ discriminate | ].
  destruct (dict_get _ _); [ intros [= <-]; trivial | discriminate ].
Qed.

(** The loop does not exceed the recursion limit where the recursive calls
    on the mappings held by the entries do not. *)
Lemma merge_loop_in_fuel
    (recurse : store value -> nat -> nat -> store value * res nat)
    (s0 : store value) (new_dict depth : nat)
    (entries : list (key * slot value)) :
  (forall s a b,
      unchanged_below (List.length s) s (fst (recurse s a b))) ->
  (forall s a b t,
      value_at depth s b = Some t ->
      snd (recurse s a b) <> Raise RecursionError) ->
  List.length s0 <= new_dict ->
  (forall k l, In (k, Ref value l) entries ->
               exists t, value_at depth s0 l = Some t) ->
  forall s,
    unchanged_below (List.length s0) s0 s ->
    snd (merge_loop_in recurse new_dict s entries) <> Raise RecursionError.
Proof.
  intros Hframe Hrec Hn.
  induction entries as [ | [k v] entries IH ]; intros Hv s U;
    cbn [merge_loop_in]; [ discriminate | ].
  assert (forall k l, In (k, Ref value l) entries ->
                      exists t, value_at depth s0 l = Some t) as Hv'
    by (intros k' l Hin; apply (Hv k'); right; exact Hin).
  specialize (IH Hv').
  destruct (nth_error s new_dict) as [ o | ]; [ | discriminate ].
  destruct (method_of o "get") as [ u | e ] eqn:M;
    [ | apply method_of_raises in M; subst; discriminate ].
  assert (snd (match object_setitem o k v with
               | Raise e => (s, Raise e)
               | Ok o' =>
                   merge_loop_in recurse new_dict
                     (store_update s new_dict o') entries
               end) <> Raise RecursionError) as Helse.
  { destruct (object_setitem o k v) as [ o' | e ] eqn:S.
    - apply IH.
      apply (unchanged_below_trans _ _ _ s); trivial.
      apply unchanged_below_update, Hn.
    - apply object_setitem_raises in S. simpl.
      destruct S; subst; discriminate. }
  destruct (is_mapping s (dict_get (entries_of o) k)) as [ old_l | ];
    [ | exact Helse ].
  destruct (is_mapping s (Some v)) as [ v_l | ] eqn:Mv; [ | exact Helse ].
  apply is_mapping_ref in Mv. subst v.
  destruct (Hv k v_l (or_introl eq_refl)) as (t & Ht).
  apply (value_at_stable _ _ U) in Ht.
  pose proof (Hrec s old_l v_l t Ht) as Hr.
  pose proof (Hframe s old_l v_l) as Hf.
  destruct (recurse s old_l v_l) as [ s' [ merged | e ] ]; simpl in *;
    [ | intros [= ->]; apply Hr; reflexivity ].
  destruct (nth_error s' new_dict) as [ o' | ]; [ | discriminate ].
  destruct (object_setitem o' k (Ref value merged)) as [ o'' | e ] eqn:S.
  - apply IH.
    apply (unchanged_below_trans _ _ _ s); trivial.
    apply (unchanged_below_trans _ _ _ s').
    + apply (unchanged_below_weaken _ _ (List.length s)); trivial.
      destruct U. exact H.
    + apply unchanged_below_update, Hn.
  - apply object_setitem_raises in S. simpl. destruct S; subst; discriminate.
Qed.

(** With at least as much fuel as the second argument is deep, the call
    does not run out of it. *)
Lemma merge_dicts_in_fuel (fuel : nat) :
  forall (s : store value) (d1 d2 depth : nat) (b : value),
    value_at depth s d2 = Some b -> depth <= fuel ->
    snd (merge_dicts_in fuel s d1 d2) <> Raise RecursionError.
Proof.
  induction fuel as [ | fuel IH ]; intros s d1 d2 depth b V Hd.
  - assert (depth = 0) as -> by lia. discriminate V.
  - destruct depth as [ | depth ]; [ discriminate V | ].
    simpl in V. simpl.
    destruct (nth_error s d1) as [ o1 | ]; [ | discriminate ].
    destruct (nth_error s d2) as [ o2 | ]; [ | discriminate ].
    destruct (object_copy o1) as [ c | e ] eqn:C;
      [ | apply object_copy_raises in C; simpl; destruct C; subst;
          discriminate ].
    destruct (method_of o2 "items") as [ u | e ] eqn:M;
      [ | apply method_of_raises in M; subst; discriminate ].
    destruct (read_entries (value_at depth s) (entries_of o2)) as [ d | ] eqn:R;
      [ | discriminate ].
    pose proof (merge_loop_in_fuel (merge_dicts_in fuel) s (List.length s)
                  depth (entries_of o2)
                  (merge_dicts_in_unchanged value fuel)) as L.
    assert (snd (merge_loop_in (merge_dicts_in fuel) (List.length s)
                   (s ++ [c]) (entries_of o2)) <> Raise RecursionError) as X.
    { apply L.
      - intros s1 a1 b1 t Ht. apply (IH s1 a1 b1 depth t Ht). lia.
      - apply le_n.
      - intros k l Hin. eapply read_entries_ref; eassumption.
      - apply (unchanged_below_alloc value s c). }
    destruct (merge_loop_in _ _ _ _) as [ s2 [ u' | e ] ]; simpl in *;
      [ discriminate | intros [= ->]; apply X; reflexivity ].
Qed.

(** C6: [merge_dicts(a, b)] changes no object that exists when it is
    called, whether it returns or raises: every mapping of the store, so
    [a], [b] and every mapping nested in them, has the same entries
    afterwards, and hence the same value however deep; the mapping returned
    is a new object.  The bound on the recursion is reached only when it
    is smaller than the depth of [b].  [merge({"x": 1}, {"x": 2})] returns
    a new [{"x": 2}] and leaves [{"x": 1}] as it was. *)
Theorem merge_dicts_keeps_arguments :
  (forall (leaf : Type) (fuel : nat) (s : store leaf) (d1 d2 l : nat)
          (o : object leaf),
      nth_error s l = Some o ->
      nth_error (fst (merge_dicts_in fuel s d1 d2)) l = Some o)
  /\ (forall (leaf : Type) (fuel : nat) (s : store leaf)
             (d1 d2 new_dict : nat),
      snd (merge_dicts_in fuel s d1 d2) = Ok new_dict ->
      nth_error s new_dict = None)
  /\ (forall (fuel depth : nat) (s : store value) (d1 d2 l : nat),
      closed s -> l < List.length s ->
      value_at depth (fst (merge_dicts_in fuel s d1 d2)) l
      = value_at depth s l)
  /\ (forall (fuel depth : nat) (s : store value) (d1 d2 : nat) (b : value),
      value_at depth s d2 = Some b -> depth <= fuel ->
      snd (merge_dicts_in fuel s d1 d2) <> Raise RecursionError)
  /\ merge_dicts_in 1
       [ Object class_dict [(KStr "x", Leaf 1%Z)];
         Object class_dict [(KStr "x", Leaf 2%Z)] ] 0 1
     = ([ Object class_dict [(KStr "x", Leaf 1%Z)];
          Object class_dict [(KStr "x", Leaf 2%Z)];
          Object class_dict [(KStr "x", Leaf 2%Z)] ], Ok 2).
Proof.
  split; [ | split; [ | split; [ | split ] ] ].
  - intros leaf fuel s d1 d2 l o E.
    destruct (merge_dicts_in_unchanged leaf fuel s d1 d2) as [_ U].
    rewrite U; trivial.
    apply nth_error_Some. congruence.
  - intros leaf fuel s d1 d2 new_dict E.
    apply merge_dicts_in_fresh in E. subst new_dict.
    apply nth_error_None. lia.
  - intros fuel depth s d1 d2 l C Hl.
    apply value_at_unchanged; trivial.
    apply merge_dicts_in_unchanged.
  - intros fuel depth s d1 d2 b V Hd.
    eapply merge_dicts_in_fuel; eassumption.
  - reflexivity.
Qed.

(** A nested merge: [a = {"n": {"p": 1}, "k": 0}] at 0 and 1 and
    [b = {"n": {"q": 2}}] at 2 and 3.  The call adds the objects 4 and 5;
    [a] and its nested mapping are still what they were. *)
Lemma merge_dicts_keeps_arguments_witness :
  nth_error
    (fst (merge_dicts_in 2
            [ Object class_dict [(KStr "n", Ref Z 1); (KStr "k", Leaf 0%Z)];
              Object class_dict [(KStr "p", Leaf 1%Z)];
              Object class_dict [(KStr "n", Ref Z 3)];
              Object class_dict [(KStr "q", Leaf 2%Z)] ] 0 2)) 1
  = Some (Object class_dict [(KStr "p", Leaf 1%Z)])
  /\ merge_dicts_in 2
       [ Object class_dict [(KStr "n", Ref Z 1); (KStr "k", Leaf 0%Z)];
         Object class_dict [(KStr "p", Leaf 1%Z)];
         Object class_dict [(KStr "n", Ref Z 3)];
         Object class_dict [(KStr "q", Leaf 2%Z)] ] 0 2
     = ([ Object class_dict [(KStr "n", Ref Z 1); (KStr "k", Leaf 0%Z)];
          Object class_dict [(KStr "p", Leaf 1%Z)];
          Object class_dict [(KStr "n", Ref Z 3)];
          Object class_dict [(KStr "q", Leaf 2%Z)];
          Object class_dict [(KStr "n", Ref Z 5); (KStr "k", Leaf 0%Z)];
          Object class_dict [(KStr "p", Leaf 1%Z); (KStr "q", Leaf 2%Z)] ],
        Ok 4).
Proof.
  split.
  - apply (proj1 merge_dicts_keeps_arguments Z 2
             [ Object class_dict [(KStr "n", Ref Z 1); (KStr "k", Leaf 0%Z)];
               Object class_dict [(KStr "p", Leaf 1%Z)];
               Object class_dict [(KStr "n", Ref Z 3)];
               Object class_dict [(KStr "q", Leaf 2%Z)] ] 0 2 1).
    reflexivity.
  - reflexivity.
Defined.

(** The two models of [merge_dicts] on the arguments
    [{"n": {"p": 1}, "k": 0}] and [{"n": {"q": 2}}], with room for two
    nested calls: the value of the object returned in the store is the tree
    returned on the trees. *)
Lemma merge_dicts_models_agree :
  exists a b r,
    value_at 2
      [ Object class_dict [(KStr "n", Ref value 1); (KStr "k", Leaf (VInt 0))];
        Object class_dict [(KStr "p", Leaf (VInt 1))];
        Object class_dict [(KStr "n", Ref value 3)];
        Object class_dict [(KStr "q", Leaf (VInt 2))] ] 0 = Some a
    /\ value_at 2
         [ Object class_dict [(KStr "n", Ref value 1);
                              (KStr "k", Leaf (VInt 0))];
           Object class_dict [(KStr "p", Leaf (VInt 1))];
           Object class_dict [(KStr "n", Ref value 3)];
           Object class_dict [(KStr "q", Leaf (VInt 2))] ] 2 = Some b
    /\ merge_dicts 2 a b = Ok r
    /\ value_at 2
         (fst (merge_dicts_in 2
                 [ Object class_dict [(KStr "n", Ref value 1);
                                      (KStr "k", Leaf (VInt 0))];
                   Object class_dict [(KStr "p", Leaf (VInt 1))];
                   Object class_dict [(KStr "n", Ref value 3)];
                   Object class_dict [(KStr "q", Leaf (VInt 2))] ] 0 2)) 4
       = Some r.
Proof.
  exists (VDict [(KStr "n", VDict [(KStr "p", VInt 1)]); (KStr "k", VInt 0)]),
         (VDict [(KStr "n", VDict [(KStr "q", VInt 2)])]),
         (VDict [(KStr "n", VDict [(KStr "p", VInt 1); (KStr "q", VInt 2)]);
                 (KStr "k", VInt 0)]).
  repeat split.
Qed.

(* ================================================================== *)
(** * Further properties *)
(* ================================================================== *)

(** ** DotDict: writing, deleting, building and copying *)

Lemma dict_set_keys_unique (V : Type) (d : list (key * V)) (k : key) (v : V) :
  keys_unique (map fst d) = true ->
  keys_unique (map fst (dict_set d k v)) = true.
Proof.
  intros U. rewrite dict_set_keys.
  destruct (existsb (key_eqb k) (map fst d)) eqn:E; trivial.
  apply keys_unique_app. repeat split; trivial.
  intros a b Ha [ <- | [] ].
  destruct (key_eqb a k) eqn:K; trivial.
  assert (existsb (key_eqb k) (map fst d) = true) as X.
  { apply existsb_exists. exists a. split; trivial.
    rewrite key_eqb_sym. exact K. }
  congruence.
Qed.

Lemma dict_del_keys_In (V : Type) (d : list (key * V)) (k x : key) :
  In x (map fst (dict_del d k)) -> In x (map fst d).
Proof.
  induction d as [ | [j w] d IH ]; simpl; trivial.
  destruct (key_eqb j k); simpl; tauto.
Qed.

Lemma dict_del_keys_unique (V : Type) (d : list (key * V)) (k : key) :
  keys_unique (map fst d) = true ->
  keys_unique (map fst (dict_del d k)) = true.
Proof.
  induction d as [ | [j w] d IH ]; simpl; trivial.
  intros U. apply andb_true_iff in U as [U1 U2].
  destruct (key_eqb j k); simpl; trivial.
  rewrite IH by exact U2. rewrite andb_true_r.
  apply negb_true_iff in U1. apply negb_true_iff.
  destruct (existsb (key_eqb j) (map fst (dict_del d k))) eqn:E; trivial.
  apply existsb_exists in E as (x & Hin & E).
  apply dict_del_keys_In in Hin.
  assert (existsb (key_eqb j) (map fst d) = true) as X
    by (apply existsb_exists; eauto).
  congruence.
Qed.

Lemma update_keys_unique (other : dict) :
  forall self : DotDict.t,
    keys_unique (map fst self) = true ->
    keys_unique (map fst (fst (DotDict.update self other))) = true.
Proof.
  induction other as [ | [k v] other IH ]; intros self U; simpl; trivial.
  destruct (DotDict.__setitem__ self k v) as [ self' | e ] eqn:E; trivial.
  apply IH. apply setitem_ok_inv in E as [_ ->].
  apply dict_set_keys_unique, U.
Qed.

Lemma init_keys_unique (init_dict : option dict)
    (kwargs : list (string * value)) (self : DotDict.t) :
  DotDict.__init__ init_dict kwargs = Ok self ->
  keys_unique (map fst self) = true.
Proof.
  unfold DotDict.__init__.
  destruct (DotDict.binds_parameter kwargs); [ discriminate | ].
  set (kw := map _ kwargs). clearbody kw.
  assert (forall s0 : DotDict.t, keys_unique (map fst s0) = true ->
            match DotDict.update s0 kw with
            | (self', None) => Ok self'
            | (_, Some e) => Raise e
            end = Ok self -> keys_unique (map fst self) = true) as Hkw.
  { intros s0 H0 E. pose proof (update_keys_unique kw s0 H0) as H.
    destruct (DotDict.update s0 kw) as [s1 [e | ]]; simpl in *;
      try discriminate.
    inversion E; subst. exact H. }
  destruct init_dict as [ [ | kv d ] | ].
  - apply Hkw. reflexivity.
  - pose proof (update_keys_unique (kv :: d) [] eq_refl) as H.
    destruct (DotDict.update [] (kv :: d)) as [s1 [e | ]]; unfold bind.
    + discriminate.
    + apply Hkw. exact H.
  - apply Hkw. reflexivity.
Qed.

(** No key occurs twice in an instance obtained through the class. *)
Lemma reachable_keys_unique (self : DotDict.t) :
  DotDict.reachable self -> keys_unique (map fst self) = true.
Proof.
  induction 1 as
    [ init_dict kwargs self E
    | self k v self' _ IH E
    | self attr v self' _ IH E
    | self k self' _ IH E
    | self other _ IH
    | self k dflt self' v _ IH E
    | self k self' v _ IH E
    | self self' kv _ IH E
    | self _ IH
    | self self' _ IH E ].
  - eapply init_keys_unique, E.
  - apply setitem_ok_inv in E as [_ ->]. apply dict_set_keys_unique, IH.
  - unfold DotDict.__setattr__ in E.
    apply setitem_ok_inv in E as [_ ->]. apply dict_set_keys_unique, IH.
  - unfold DotDict.__delitem__ in E.
    destruct (dict_get self k); try discriminate.
    inversion E; subst. apply dict_del_keys_unique, IH.
  - apply update_keys_unique, IH.
  - unfold DotDict.setdefault in E.
    destruct (dict_get self k).
    + inversion E; subst. exact IH.
    + destruct (DotDict.__setitem__ self k dflt) as [s1 | e] eqn:E1;
        simpl in E; try discriminate.
      inversion E; subst.
      apply setitem_ok_inv in E1 as [_ ->]. apply dict_set_keys_unique, IH.
  - unfold DotDict.pop, DotDict.__getitem__, DotDict.__delitem__ in E.
    destruct (dict_get self k); simpl in E; try discriminate.
    inversion E; subst. apply dict_del_keys_unique, IH.
  - unfold DotDict.popitem, DotDict.__getitem__, DotDict.__delitem__ in E.
    destruct (DotDict.__iter__ self) as [ | k ks ]; try discriminate.
    destruct (dict_get self k); simpl in E; try discriminate.
    inversion E; subst. apply dict_del_keys_unique, IH.
  - reflexivity.
  - unfold DotDict.copy in E. eapply init_keys_unique, E.
Qed.

Lemma dict_get_del_same (V : Type) (d : list (key * V)) (k : key) :
  keys_unique (map fst d) = true -> dict_get (dict_del d k) k = None.
Proof.
  induction d as [ | [j w] d IH ]; simpl; trivial.
  intros U. apply andb_true_iff in U as [U1 U2].
  destruct (key_eqb j k) eqn:E; simpl.
  - apply dict_get_none_existsb.
    apply negb_true_iff in U1.
    destruct (existsb (key_eqb k) (map fst d)) eqn:X; trivial.
    apply existsb_exists in X as (x & Hin & X).
    assert (existsb (key_eqb j) (map fst d) = true) as Y.
    { apply existsb_exists. exists x. split; trivial.
      eapply key_eqb_trans; eassumption. }
    congruence.
  - rewrite E. auto.
Qed.

Lemma dict_get_del_other (V : Type) (d : list (key * V)) (k k' : key) :
  key_eqb k k' = false -> dict_get (dict_del d k) k' = dict_get d k'.
Proof.
  intros N. induction d as [ | [j w] d IH ]; simpl; trivial.
  destruct (key_eqb j k) eqn:E; simpl.
  - assert (key_eqb j k' = false) as ->; trivial.
    destruct (key_eqb j k') eqn:E'; trivial.
    rewrite key_eqb_sym in E.
    rewrite (key_eqb_trans _ _ _ E E') in N. discriminate.
  - rewrite IH. reflexivity.
Qed.

Lemma dict_del_length (V : Type) (d : list (key * V)) (k : key) (v : V) :
  dict_get d k = Some v -> S (List.length (dict_del d k)) = List.length d.
Proof.
  induction d as [ | [j w] d IH ]; simpl; try discriminate.
  destruct (key_eqb j k); simpl; auto.
Qed.

(** X1: an accepted write [m[k] = v] is read back by [m[k]], leaves every
    other entry as it was, keeps the place of [k] in the iteration when [k]
    was present and puts it last when it was not, and changes the length
    accordingly. *)
Theorem DotDict_setitem_effect (self self' : DotDict.t) (k : key) (v : value) :
  DotDict.__setitem__ self k v = Ok self' ->
  DotDict.__getitem__ self' k = Ok v
  /\ (forall k', key_eqb k k' = false ->
        DotDict.__getitem__ self' k' = DotDict.__getitem__ self k')
  /\ DotDict.__iter__ self'
     = match dict_get self k with
       | Some _ => DotDict.__iter__ self
       | None => DotDict.__iter__ self ++ [k]
       end
  /\ DotDict.__len__ self'
     = match dict_get self k with
       | Some _ => DotDict.__len__ self
       | None => S (DotDict.__len__ self)
       end.
Proof.
  intros E. apply setitem_ok_inv in E as [_ ->].
  assert (DotDict.__iter__ (dict_set self k v)
          = match dict_get self k with
            | Some _ => DotDict.__iter__ self
            | None => DotDict.__iter__ self ++ [k]
            end) as Hiter.
  { unfold DotDict.__iter__, dict_keys. rewrite dict_set_keys.
    destruct (dict_get self k) as [ w | ] eqn:G.
    - destruct (existsb (key_eqb k) (map fst self)) eqn:X; trivial.
      apply dict_get_none_existsb in X. congruence.
    - apply dict_get_none_existsb in G. rewrite G. reflexivity. }
  unfold DotDict.__getitem__. repeat split.
  - rewrite dict_get_set_same. reflexivity.
  - intros k' N. rewrite dict_get_set_other; trivial.
  - exact Hiter.
  - unfold DotDict.__len__.
    rewrite <- (length_map fst (dict_set self k v)).
    unfold DotDict.__iter__, dict_keys in Hiter. rewrite Hiter.
    destruct (dict_get self k).
    + apply length_map.
    + rewrite length_app, length_map. simpl. lia.
Qed.

(** [m["b"] = 2] on the instance holding [a]. *)
Lemma DotDict_setitem_effect_witness :
  DotDict.__getitem__ [(KStr "a", VInt 1); (KStr "b", VInt 2)] (KStr "b")
  = Ok (VInt 2)
  /\ DotDict.__iter__ [(KStr "a", VInt 1); (KStr "b", VInt 2)]
     = [KStr "a"; KStr "b"].
Proof.
  destruct (DotDict_setitem_effect [(KStr "a", VInt 1)]
              [(KStr "a", VInt 1); (KStr "b", VInt 2)] (KStr "b") (VInt 2)
              eq_refl) as (Hget & _ & Hiter & _).
  split; [ exact Hget | exact Hiter ].
Defined.

(** X2: in an instance obtained through the class, after [del m[k]] the
    key is gone ([m[k]] and a second [del m[k]] raise [KeyError]), every
    other entry is as it was and the length is one less; deleting a key
    that is not there raises [KeyError]. *)
Theorem DotDict_delitem_effect (self : DotDict.t) (k : key) :
  DotDict.reachable self ->
  match DotDict.__delitem__ self k with
  | Ok self' =>
      DotDict.__getitem__ self' k = Raise KeyError
      /\ DotDict.__delitem__ self' k = Raise KeyError
      /\ (forall k', key_eqb k k' = false ->
            DotDict.__getitem__ self' k' = DotDict.__getitem__ self k')
      /\ S (DotDict.__len__ self') = DotDict.__len__ self
  | Raise e =>
      e = KeyError /\ DotDict.__getitem__ self k = Raise KeyError
  end.
Proof.
  intros R. apply reachable_keys_unique in R.
  unfold DotDict.__delitem__, DotDict.__getitem__, DotDict.__len__.
  destruct (dict_get self k) as [ w | ] eqn:G; [ | auto ].
  rewrite (dict_get_del_same _ self k R). repeat split.
  - intros k' N. rewrite dict_get_del_other; trivial.
  - eapply dict_del_length, G.
Qed.

(** [del m["a"]] on the instance built by [DotDict(a=1, b=2)]. *)
Lemma DotDict_delitem_effect_witness :
  DotDict.__getitem__ [(KStr "b", VInt 2)] (KStr "a") = Raise KeyError
  /\ DotDict.__getitem__ [(KStr "b", VInt 2)] (KStr "b") = Ok (VInt 2).
Proof.
  assert (DotDict.reachable [(KStr "a", VInt 1); (KStr "b", VInt 2)]) as R
    by (apply (@DotDict.reach_init None [("a", VInt 1); ("b", VInt 2)]);
        reflexivity).
  pose proof (DotDict_delitem_effect
                [(KStr "a", VInt 1); (KStr "b", VInt 2)] (KStr "a") R) as H.
  simpl in H. destruct H as (Hget & _ & Hother & _).
  split; [ exact Hget | ].
  rewrite (Hother (KStr "b") eq_refl). reflexivity.
Defined.

Lemma update_total (other : dict) :
  forall self : DotDict.t,
    forallb (fun kv => writableb (fst kv)) other = true ->
    exists self', DotDict.update self other = (self', None).
Proof.
  induction other as [ | [k v] other IH ]; intros self W; simpl.
  - eauto.
  - simpl in W. apply andb_true_iff in W as [Wk W].
    rewrite setitem_writable by (apply writableb_spec, Wk). apply IH, W.
Qed.

Lemma update_not_writable (other : dict) (self : DotDict.t) :
  forallb (fun kv => writableb (fst kv)) other = false ->
  exists self' e,
    DotDict.update self other = (self', Some e)
    /\ (e = ValueError \/ e = TypeError).
Proof.
  intros W.
  destruct (DotDict.update self other) as [ self' [ e | ] ] eqn:E.
  - exists self', e. split; trivial. eapply update_raises, E.
  - apply update_ok_writable in E. congruence.
Qed.

(** What an instance holds after an [update] that went through. *)
Lemma update_lookup (other : dict) :
  forall self self' : DotDict.t,
    keys_unique (map fst other) = true ->
    DotDict.update self other = (self', None) ->
    forall k,
      dict_get self' k
      = match dict_get other k with
        | Some v => Some v
        | None => dict_get self k
        end.
Proof.
  induction other as [ | [k0 v0] other IH ]; intros self self' U E k.
  - simpl in E. inversion E; subst. reflexivity.
  - simpl in U. apply andb_true_iff in U as [U0 U].
    apply negb_true_iff in U0. simpl in E.
    destruct (DotDict.__setitem__ self k0 v0) as [ s1 | e ] eqn:S;
      [ | discriminate ].
    apply setitem_ok_inv in S as [_ ->].
    rewrite (IH _ _ U E k). simpl. rewrite dict_get_set.
    destruct (key_eqb k0 k) eqn:K; trivial.
    assert (dict_get other k = None) as ->; trivial.
    apply dict_get_none_existsb.
    destruct (existsb (key_eqb k) (map fst other)) eqn:X; trivial.
    apply existsb_exists in X as (k' & Hin & X).
    assert (existsb (key_eqb k0) (map fst other) = true) as Y.
    { apply existsb_exists. exists k'. split; trivial.
      eapply key_eqb_trans; eassumption. }
    congruence.
Qed.

(** X3: [DotDict(init_dict, **kwargs)] returns exactly when no keyword
    is named like a parameter of [__init__] ("self", "init_dict") and every
    key of [init_dict] and every keyword is a string that names no
    attribute of [MutableMapping]; otherwise it raises [TypeError] (always
    so for a keyword named like a parameter) or [ValueError].  The
    instance built holds the keyword values, and under every other key
    what [init_dict] holds: the keywords are written last and win.  An
    empty [init_dict] is as good as none. *)
Theorem DotDict_init_entries (d : dict) (kwargs : list (string * value)) :
  keys_unique (map fst d) = true ->
  keys_unique (map (fun kv => KStr (fst kv)) kwargs) = true ->
  match DotDict.__init__ (Some d) kwargs with
  | Ok self =>
      DotDict.binds_parameter kwargs = false
      /\ forallb (fun kv => writableb (fst kv)) d = true
      /\ forallb (fun kv => negb (hasattr_MutableMapping (fst kv))) kwargs
         = true
      /\ forall k,
           dict_get self k
           = match dict_get (map (fun kv => (KStr (fst kv), snd kv)) kwargs)
                     k with
             | Some v => Some v
             | None => dict_get d k
             end
  | Raise e =>
      (e = ValueError \/ e = TypeError)
      /\ (DotDict.binds_parameter kwargs = true -> e = TypeError)
      /\ (DotDict.binds_parameter kwargs = true
          \/ forallb (fun kv => writableb (fst kv)) d = false
          \/ forallb (fun kv => negb (hasattr_MutableMapping (fst kv))) kwargs
             = false)
  end
  /\ DotDict.__init__ None kwargs = DotDict.__init__ (Some []) kwargs.
Proof.
  intros Ud Uk. split; [ | reflexivity ].
  set (kw := map (fun kv => (KStr (fst kv), snd kv)) kwargs).
  assert (map fst kw = map (fun kv => KStr (fst kv)) kwargs) as Hkeys
    by (unfold kw; rewrite map_map; reflexivity).
  assert (forallb (fun kv => writableb (fst kv)) kw
          = forallb (fun kv => negb (hasattr_MutableMapping (fst kv))) kwargs)
    as Hw.
  { unfold kw. clear. induction kwargs as [ | [n v] l IH ]; simpl; congruence. }
  rewrite <- Hkeys in Uk. rewrite <- Hw.
  destruct (DotDict.binds_parameter kwargs) eqn:B.
  { assert (DotDict.__init__ (Some d) kwargs = Raise TypeError) as ->
      by (unfold DotDict.__init__; rewrite B; reflexivity).
    split; [ right; reflexivity | ]. split; [ reflexivity | ].
    left. reflexivity. }
  assert (exists s1 r1,
             DotDict.update [] d = (s1, r1)
             /\ DotDict.__init__ (Some d) kwargs
                = match r1 with
                  | None =>
                      match DotDict.update s1 kw with
                      | (self', None) => Ok self'
                      | (_, Some e) => Raise e
                      end
                  | Some e => Raise e
                  end) as (s1 & r1 & E1 & ->).
  { unfold DotDict.__init__. rewrite B. fold kw. destruct d as [ | kv d ].
    - exists [], None. split; reflexivity.
    - destruct (DotDict.update [] (kv :: d)) as [ s1 r1 ].
      exists s1, r1. split; trivial. destruct r1; reflexivity. }
  destruct r1 as [ e | ].
  - split; [ eapply update_raises, E1 | ].
    split; [ discriminate | ]. right. left.
    destruct (forallb (fun kv => writableb (fst kv)) d) eqn:W; trivial.
    destruct (update_total d [] W) as (s & E). congruence.
  - pose proof (update_ok_writable _ _ _ E1) as W1.
    destruct (DotDict.update s1 kw) as [ s2 [ e | ] ] eqn:E2.
    + split; [ eapply update_raises, E2 | ].
      split; [ discriminate | ]. right. right.
      destruct (forallb (fun kv => writableb (fst kv)) kw) eqn:W; trivial.
      destruct (update_total kw s1 W) as (s & E). congruence.
    + pose proof (update_ok_writable _ _ _ E2) as W2.
      repeat split; trivial.
      intros k. rewrite (update_lookup kw _ _ Uk E2 k).
      rewrite (update_lookup d _ _ Ud E1 k). simpl.
      destruct (dict_get kw k); trivial. destruct (dict_get d k); trivial.
Qed.

(** [DotDict({"a": 34, "b": 0}, b=56)] holds 34 under "a" and 56 under "b";
    a keyword named "self" is refused. *)
Lemma DotDict_init_entries_witness :
  DotDict.__init__ (Some [(KStr "a", VInt 34); (KStr "b", VInt 0)])
                   [("b", VInt 56)]
  = Ok [(KStr "a", VInt 34); (KStr "b", VInt 56)]
  /\ DotDict.__init__ None [("self", VInt 1)] = Raise TypeError
  /\ DotDict.__init__ None [("b", VInt 56)]
     = DotDict.__init__ (Some []) [("b", VInt 56)].
Proof.
  split; [ reflexivity | split; [ reflexivity | ] ].
  apply (DotDict_init_entries [] [("b", VInt 56)]); reflexivity.
Defined.

(** X4: [copy] of an instance obtained through the class returns an
    instance with the same entries in the same order, and never raises;
    the call [m.copy()] does the same unless [m] holds an entry "copy",
    which hides the method and makes the call a [TypeError]. *)
Theorem DotDict_copy_same_entries (self : DotDict.t) :
  DotDict.reachable self ->
  DotDict.copy self = Ok self
  /\ call_copy (VDotDict self)
     = match dict_get self (KStr "copy") with
       | None => Ok (VDotDict self)
       | Some _ => Raise TypeError
       end.
Proof.
  intros R.
  assert (DotDict.copy self = Ok self) as C.
  { unfold DotDict.copy. apply init_dict_fresh.
    - apply reachable_keys_unique, R.
    - apply reachable_keys in R. rewrite Forall_forall in R.
      apply forallb_forall. intros kv Hin. apply writableb_spec, R.
      unfold dict_keys. apply in_map, Hin. }
  split; trivial.
  unfold call_copy, DotDict.method, DotDict.__getattribute__. simpl.
  destruct (dict_get self (KStr "copy")); simpl; trivial.
  rewrite C. reflexivity.
Qed.

(** The copy of [DotDict(a=1, copy=2)] has the same entries, and calling
    [copy] on that instance fails. *)
Lemma DotDict_copy_same_entries_witness :
  DotDict.copy [(KStr "a", VInt 1); (KStr "copy", VInt 2)]
  = Ok [(KStr "a", VInt 1); (KStr "copy", VInt 2)]
  /\ call_copy (VDotDict [(KStr "a", VInt 1); (KStr "copy", VInt 2)])
     = Raise TypeError.
Proof.
  apply (DotDict_copy_same_entries [(KStr "a", VInt 1); (KStr "copy", VInt 2)]).
  apply (@DotDict.reach_init None [("a", VInt 1); ("copy", VInt 2)]).
  reflexivity.
Defined.

(** ** to_dotdict: converting twice, and reading the result *)

Lemma map_res_fixed (f : value -> res value) (l l' : list value) :
  map_res f l = Ok l' ->
  Forall (fun v => forall r, f v = Ok r -> f r = Ok r) l ->
  map_res f l' = Ok l'.
Proof.
  revert l'. induction l as [ | v l IH ]; intros l' E H; simpl in E.
  - inversion E; subst. reflexivity.
  - destruct (f v) as [ r | e ] eqn:Ev; simpl in E; [ | discriminate ].
    destruct (map_res f l) as [ l1 | e ] eqn:El; simpl in E;
      [ | discriminate ].
    inversion E; subst. inversion H; subst. simpl.
    rewrite (H2 r Ev). simpl. rewrite (IH l1 eq_refl H3). reflexivity.
Qed.

(** X5: converting a converted object changes nothing:
    [to_dotdict(to_dotdict(x))] is [to_dotdict(x)] whenever the latter
    returns. *)
Theorem to_dotdict_idempotent (fuel : nat) (obj r : value) :
  to_dotdict fuel obj = Ok r -> to_dotdict fuel r = Ok r.
Proof.
  revert obj r.
  induction fuel as [ | fuel IH ]; intros obj r E; [ discriminate | ].
  destruct obj as [ | n | s | vs | vs | vs | vs | items | items ];
    simpl in E; try (inversion E; subst; reflexivity).
  1-4: destruct (map_res (to_dotdict fuel) vs) as [ vs' | e ] eqn:E1;
       simpl in E; [ | discriminate ]; inversion E; subst; simpl;
       rewrite (map_res_fixed _ _ _ E1);
       [ reflexivity | apply Forall_forall; intros v _ r1; apply IH ].
  destruct (map_res_items (to_dotdict fuel) items) as [ items' | e ];
    simpl in E; [ | discriminate ].
  destruct (DotDict.__init__ (Some items') []) as [ self | e ]; simpl in E;
    [ | discriminate ].
  inversion E; subst. reflexivity.
Qed.

(** [to_dotdict([{"a": 1}])] converted again. *)
Lemma to_dotdict_idempotent_witness :
  to_dotdict recursion_limit (VList [VDotDict [(KStr "a", VInt 1)]])
  = Ok (VList [VDotDict [(KStr "a", VInt 1)]]).
Proof.
  apply (to_dotdict_idempotent recursion_limit
           (VList [VDict [(KStr "a", VInt 1)]])).
  reflexivity.
Defined.

Lemma dict_get_map_values (g : value -> value) (d : dict) (k : key) :
  dict_get (map (fun kv => (fst kv, g (snd kv))) d) k
  = option_map g (dict_get d k).
Proof.
  induction d as [ | [j w] d IH ]; simpl; trivial.
  destruct (key_eqb j k); trivial.
Qed.

Lemma dict_get_In (V : Type) (d : list (key * V)) (k : key) (v : V) :
  dict_get d k = Some v -> exists k', In (k', v) d /\ key_eqb k' k = true.
Proof.
  induction d as [ | [j w] d IH ]; simpl; try discriminate.
  destruct (key_eqb j k) eqn:E.
  - intros [= <-]. eauto.
  - intros H. destruct (IH H) as (k' & Hin & Hk). eauto.
Qed.

(** X6: what the docstring promises.  When [to_dotdict] returns for a
    [dict], every entry [obj[name]] of the [dict], other than one named
    "__weakref__", is found both as the entry and as the field of the
    result, [result[name]] and [result.name], converted in its turn. *)
Theorem to_dotdict_dot_access (fuel : nat) (items : dict) (r : value)
    (name : string) (v : value) :
  wf_value (VDict items) = true ->
  to_dotdict fuel (VDict items) = Ok r ->
  dict_get items (KStr name) = Some v ->
  name <> "__weakref__" ->
  exists self v',
    r = VDotDict self
    /\ to_dotdict fuel v = Ok v'
    /\ DotDict.__getitem__ self (KStr name) = Ok v'
    /\ DotDict.__getattribute__ self name = Ok (AValue v').
Proof.
  intros W E G Nw.
  destruct (to_dotdict_ok_convertible _ _ _ E) as [C D].
  rewrite (to_dotdict_convertible _ _ D W C) in E. inversion E; subst. clear E.
  simpl in W, C.
  apply andb_true_iff in W as [_ W]. apply andb_true_iff in C as [C K].
  destruct (dict_get_In _ _ _ _ G) as (k' & Hin & Hk).
  apply key_eqb_KStr in Hk. subst k'.
  pose proof (list_max_map_In _ (fun kv => conversion_depth (snd kv))
                items _ Hin) as Dv.
  change (conversion_depth (VDict items))
    with (S (list_max (map (fun kv => conversion_depth (snd kv)) items)))
    in D.
  cbv beta in Dv. cbn [snd] in Dv.
  rewrite forallb_forall in W, C, K.
  specialize (W _ Hin). specialize (C _ Hin). specialize (K _ Hin).
  simpl in W, C, K. apply negb_true_iff in K.
  assert (dict_get (map (fun kv => (fst kv, converted (snd kv))) items)
                   (KStr name) = Some (converted v)) as G'
    by (rewrite dict_get_map_values, G; reflexivity).
  exists (map (fun kv => (fst kv, converted (snd kv))) items), (converted v).
  repeat split.
  - apply to_dotdict_convertible; trivial. lia.
  - unfold DotDict.__getitem__. rewrite G'. reflexivity.
  - apply getattribute_entry; trivial; intros ->; discriminate.
Qed.

(** [obj["data"]["child"]] and [obj.data.child], first step. *)
Lemma to_dotdict_dot_access_witness :
  exists self v',
    VDotDict [(KStr "data", VDotDict [(KStr "child", VInt 1)])]
    = VDotDict self
    /\ to_dotdict recursion_limit (VDict [(KStr "child", VInt 1)]) = Ok v'
    /\ DotDict.__getitem__ self (KStr "data") = Ok v'
    /\ DotDict.__getattribute__ self "data" = Ok (AValue v').
Proof.
  apply (to_dotdict_dot_access recursion_limit
           [(KStr "data", VDict [(KStr "child", VInt 1)])]
           (VDotDict [(KStr "data", VDotDict [(KStr "child", VInt 1)])])
           "data" (VDict [(KStr "child", VInt 1)])).
  - reflexivity.
  - reflexivity.
  - reflexivity.
  - discriminate.
Defined.

(** ** dict_to_flatdict: the parent, and the shape of the result *)

Lemma leaves_parent (p : list key) (entries : dict) :
  leaves p entries = map (fun pv => (p ++ fst pv, snd pv)) (leaves [] entries).
Proof.
  unfold leaves. induction entries as [ | [k v] entries IH ]; simpl; trivial.
  rewrite map_app, <- IH. f_equal.
  pose proof (entry_leaves_below v p [] k) as H.
  rewrite app_nil_r in H. exact H.
Qed.

(** X7: flattening below a parent is flattening and then putting the
    parent in front of every key: for a nested [dict] no deeper than the
    calls may nest, [dict_to_flatdict(d, parent=p)] holds, in the same
    order, the entries of [dict_to_flatdict(d)] with [p + key] for
    [key]. *)
Theorem dict_to_flatdict_parent (fuel : nat) (entries : dict)
    (p : list key) :
  wf_value (VDict entries) = true ->
  dict_depth (VDict entries) <= fuel ->
  exists flat,
    dict_to_flatdict fuel (VDict entries) None = Ok flat
    /\ dict_to_flatdict fuel (VDict entries) (Some p)
       = Ok (map (fun kv => (CompoundKey (p ++ key_path (fst kv)), snd kv))
                 flat).
Proof.
  intros W D. exists (map flat_entry (leaves [] entries)). split.
  - apply (proj1 (unflatten_flatten fuel entries D W)).
  - rewrite (dict_to_flatdict_leaves fuel entries p); trivial.
    rewrite leaves_parent, !map_map. reflexivity.
Qed.

(** [dict_to_flatdict({"b": {"c": 1}}, parent=("a",))] *)
Lemma dict_to_flatdict_parent_witness :
  exists flat,
    dict_to_flatdict recursion_limit
      (VDict [(KStr "b", VDict [(KStr "c", VInt 1)])]) None
    = Ok flat
    /\ dict_to_flatdict recursion_limit
         (VDict [(KStr "b", VDict [(KStr "c", VInt 1)])])
         (Some [KStr "a"])
       = Ok (map (fun kv =>
                    (CompoundKey ([KStr "a"] ++ key_path (fst kv)), snd kv))
                 flat).
Proof.
  apply (dict_to_flatdict_parent recursion_limit
           [(KStr "b", VDict [(KStr "c", VInt 1)])] [KStr "a"]);
    [ reflexivity | unfold recursion_limit; simpl; lia ].
Defined.

Lemma antichain_app (l1 l2 : list (list key)) :
  antichain (l1 ++ l2) = true <->
  antichain l1 = true /\ antichain l2 = true
  /\ (forall a b, In a l1 -> In b l2 ->
        is_prefix a b = false /\ is_prefix b a = false).
Proof.
  induction l1 as [ | p l1 IH ]; simpl.
  - intuition.
  - rewrite !andb_true_iff, forallb_app, andb_true_iff, IH. split.
    + intros ((F1 & F2) & A1 & A2 & D).
      split; [ split; trivial | ]. split; trivial.
      intros a b [ <- | Ha ] Hb; [ | apply D; assumption ].
      rewrite forallb_forall in F2. specialize (F2 b Hb).
      apply andb_true_iff in F2 as [X Y].
      apply negb_true_iff in X, Y. split; assumption.
    + intros ((F1 & A1) & A2 & D).
      split; [ split; trivial | ].
      * apply forallb_forall. intros q Hq.
        destruct (D p q (or_introl eq_refl) Hq) as [X Y].
        rewrite X, Y. reflexivity.
      * split; trivial. split; trivial.
        intros a b Ha Hb. apply D; auto.
Qed.

Lemma is_prefix_common (p : list key) :
  forall (k k' : key) (r r' : list key),
    is_prefix (p ++ k :: r) (p ++ k' :: r') = true -> key_eqb k k' = true.
Proof.
  induction p as [ | a p IH ]; simpl; intros k k' r r' E;
    apply andb_true_iff in E as [E1 E2]; eauto.
Qed.

Lemma leaves_antichain_entries (parent : list key) (entries : dict) :
  Forall (fun kv => forall parent k,
            wf_value (snd kv) = true ->
            antichain (map fst (entry_leaves parent k (snd kv))) = true)
         entries ->
  wf_value (VDict entries) = true ->
  antichain (map fst (leaves parent entries)) = true.
Proof.
  unfold leaves.
  induction 1 as [ | [k v] entries Hv _ IH ]; intros W; trivial.
  simpl in W. apply andb_true_iff in W as [U W].
  apply andb_true_iff in U as [Uk U]. apply andb_true_iff in W as [Wv W].
  simpl. rewrite map_app. apply antichain_app. split; [ | split ].
  - apply Hv, Wv.
  - apply IH. simpl. rewrite U, W. reflexivity.
  - intros a b Ha Hb.
    apply in_map_iff in Ha as (pa & <- & Ha).
    apply in_map_iff in Hb as (pb & <- & Hb).
    apply in_flat_map in Hb as ([k' v'] & Hin' & Hb).
    apply entry_leaves_path in Ha as (ra & ->).
    apply entry_leaves_path in Hb as (rb & ->).
    apply negb_true_iff in Uk.
    assert (existsb (key_eqb k) (map fst entries) = true ->
            False) as X by congruence.
    assert (key_eqb k k' = true -> False) as Y.
    { intros E. apply X, existsb_exists. exists k'. split; trivial.
      apply in_map_iff. exists (k', v'). auto. }
    simpl. split.
    + destruct (is_prefix _ _) eqn:E; trivial.
      apply is_prefix_common in E. destruct (Y E).
    + destruct (is_prefix _ _) eqn:E; trivial.
      apply is_prefix_common in E. rewrite key_eqb_sym in E.
      destruct (Y E).
Qed.

Lemma entry_leaves_antichain (v : value) :
  forall parent k,
    wf_value v = true ->
    antichain (map fst (entry_leaves parent k v)) = true.
Proof.
  induction v as [ | n | s | vs IH | vs IH | vs IH | vs IH | sub IH
                 | sub IH ] using value_nested_ind;
    intros parent k W; trivial.
  apply (leaves_antichain_entries (parent ++ [k]) sub); trivial.
Qed.

Lemma leaves_nonempty_path (parent : list key) (entries : dict)
    (pv : list key * value) :
  In pv (leaves parent entries) -> fst pv <> [].
Proof.
  unfold leaves. intros Hin.
  apply in_flat_map in Hin as ([k v] & _ & Hpv).
  apply entry_leaves_path in Hpv as (rest & ->).
  destruct parent; discriminate.
Qed.

(** X8: every key of the flat mapping returned for a nested [dict] is a
    non-empty [CompoundKey], and no key's path is an initial part of
    another key's path (in particular no two keys are equal): the result
    is one that [flatdict_to_dict] accepts. *)
Theorem dict_to_flatdict_keys (fuel : nat) (entries : dict)
    (parent : option (list key)) (flat : dict) :
  wf_value (VDict entries) = true ->
  dict_to_flatdict fuel (VDict entries) parent = Ok flat ->
  forallb (fun kv => is_CompoundKey (fst kv)
                     && match key_path (fst kv) with
                        | [] => false
                        | _ => true
                        end) flat = true
  /\ antichain (map (fun kv => key_path (fst kv)) flat) = true
  /\ prefix_free [] flat = true.
Proof.
  intros W E.
  set (p := match parent with Some p => p | None => [] end).
  assert (dict_to_flatdict fuel (VDict entries) parent
          = dict_to_flatdict fuel (VDict entries) (Some p)) as X
    by (destruct fuel; destruct parent; reflexivity).
  pose proof (dict_to_flatdict_ok_depth _ _ _ _ E) as D.
  rewrite X, (dict_to_flatdict_leaves fuel entries p) in E; trivial.
  inversion E; subst flat. clear E X.
  assert (antichain (map (fun kv => key_path (fst kv))
                         (map flat_entry (leaves p entries))) = true) as A.
  { rewrite map_map. simpl.
    apply (leaves_antichain_entries p entries); trivial.
    apply Forall_forall. intros kv _ q k. apply entry_leaves_antichain. }
  assert (forall pv, In pv (leaves p entries) -> fst pv <> []) as N
    by (intros pv; apply leaves_nonempty_path).
  revert A N. generalize (leaves p entries). intros l A N.
  repeat split; trivial.
  - apply forallb_forall. intros kv Hin.
    apply in_map_iff in Hin as (pv & <- & Hin). simpl.
    specialize (N pv Hin). destruct (fst pv); congruence.
  - assert (forall seen,
              (forall s, In s seen ->
                 forallb (fun pv => negb (is_prefix s (fst pv))) l = true) ->
              prefix_free seen (map flat_entry l) = true) as G.
    { induction l as [ | pv l IH ]; intros seen Hseen; trivial.
      simpl in A. apply andb_true_iff in A as [A1 A2].
      assert (fst pv <> []) as Npv by (apply N; left; reflexivity).
      destruct (split_last_nonempty _ Npv) as (init & last & S).
      simpl. apply andb_true_iff. split; [ apply andb_true_iff; split | ].
      - destruct (fst pv); congruence.
      - apply forallb_forall. intros s Hs.
        specialize (Hseen s Hs). simpl in Hseen.
        apply andb_true_iff in Hseen as [Hs1 _].
        unfold proper_prefix. rewrite S.
        apply negb_true_iff. apply negb_true_iff in Hs1.
        destruct (is_prefix s init) eqn:P; trivial.
        rewrite (split_last_app _ _ _ S) in Hs1.
        assert (forall a b c, is_prefix a b = true ->
                              is_prefix a (b ++ c) = true) as Happ.
        { induction a as [ | x a IHa ]; intros [ | y b ] c; simpl; trivial;
            try discriminate.
          intros H. apply andb_true_iff in H as [H1 H2].
          rewrite H1. simpl. apply IHa, H2. }
        rewrite (Happ _ _ _ P) in Hs1. discriminate.
      - apply IH; trivial.
        + intros pv' Hin. apply N. right. exact Hin.
        + intros s [ <- | Hs ].
          * apply forallb_forall. intros q Hq.
            rewrite forallb_forall in A1.
            specialize (A1 (key_path (fst (flat_entry q)))).
            simpl in A1.
            assert (In (fst q)
                       (map (fun kv => key_path (fst kv))
                            (map flat_entry l))) as Hq'.
            { rewrite map_map. simpl. apply in_map, Hq. }
            specialize (A1 Hq'). apply andb_true_iff in A1 as [A1 _].
            exact A1.
          * specialize (Hseen s Hs). simpl in Hseen.
            apply andb_true_iff in Hseen as [_ Hseen]. exact Hseen. }
    apply G. intros s [].
Qed.

(** The keys of the flat form of [{"a": {"b": 1}, "e": 3}]. *)
Lemma dict_to_flatdict_keys_witness :
  antichain
    (map (fun kv => key_path (fst kv))
         [(CompoundKey [KStr "a"; KStr "b"], VInt 1);
          (CompoundKey [KStr "e"], VInt 3)]) = true.
Proof.
  apply (dict_to_flatdict_keys recursion_limit
           [(KStr "a", VDict [(KStr "b", VInt 1)]); (KStr "e", VInt 3)]
           None
           [(CompoundKey [KStr "a"; KStr "b"], VInt 1);
            (CompoundKey [KStr "e"], VInt 3)]); reflexivity.
Defined.

(** ** flatdict_to_dict: plain keys, and where the values end up *)

Lemma unflatten_loop_plain_keys (dct_class : option mapping_class) (d : dict) :
  forall acc : dict,
    keys_unique (map fst acc ++ map fst d) = true ->
    forallb (fun kv => negb (is_CompoundKey (fst kv))) d = true ->
    unflatten_loop dct_class (VDict acc) d = Ok (VDict (acc ++ d)).
Proof.
  induction d as [ | [k v] d IH ]; intros acc U N.
  - simpl. rewrite app_nil_r. reflexivity.
  - simpl in N. apply andb_true_iff in N as [Nk N].
    rewrite unflatten_loop_cons.
    assert (unflatten_entry dct_class (VDict acc) k v
            = Ok (VDict (acc ++ [(k, v)]))) as ->.
    { simpl in U.
      pose proof (keys_unique_mid _ _ _ U) as X.
      apply dict_get_none_existsb in X.
      destruct k; simpl in *; try discriminate;
        rewrite dict_set_absent; trivial. }
    simpl. rewrite IH; trivial.
    + rewrite <- app_assoc. reflexivity.
    + rewrite map_app, <- app_assoc. exact U.
Qed.

(** X9: with [dct_class] left at its default or given as [dict], a flat
    mapping none of whose keys is a [CompoundKey] is returned as a new
    [dict] with the same entries in the same order: every entry is set at
    the top level under its own key, a plain tuple included. *)
Theorem flatdict_to_dict_plain_keys (d : dict)
    (dct_class : option mapping_class) :
  dct_class = None \/ dct_class = Some class_dict ->
  keys_unique (map fst d) = true ->
  forallb (fun kv => negb (is_CompoundKey (fst kv))) d = true ->
  flatdict_to_dict (VDict d) dct_class = Ok (VDict d).
Proof.
  intros C U N. unfold flatdict_to_dict. simpl.
  assert (new_mapping dct_class = VDict []) as ->
    by (destruct C as [ -> | -> ]; reflexivity).
  apply (unflatten_loop_plain_keys dct_class d []); trivial.
Qed.

(** [flatdict_to_dict({"a": 1, ("b", "c"): 2})] *)
Lemma flatdict_to_dict_plain_keys_witness :
  flatdict_to_dict
    (VDict [(KStr "a", VInt 1); (KTuple [KStr "b"; KStr "c"], VInt 2)]) None
  = Ok (VDict [(KStr "a", VInt 1); (KTuple [KStr "b"; KStr "c"], VInt 2)]).
Proof.
  apply (flatdict_to_dict_plain_keys
           [(KStr "a", VInt 1); (KTuple [KStr "b"; KStr "c"], VInt 2)] None).
  - left. reflexivity.
  - reflexivity.
  - reflexivity.
Defined.

(** After the walk the value is found at the end of the path. *)
Lemma set_path_get_same (init : list key) :
  forall (obj obj' : value) (last : key) (v : value),
    open_at obj init ->
    set_path None obj init last v = Ok obj' ->
    get_path obj' (init ++ [last]) = Some v.
Proof.
  induction init as [ | ki init IH ]; intros obj obj' last v O E.
  - destruct (open_at_dict _ _ O) as (d & ->).
    simpl in E. inversion E; subst. simpl.
    rewrite dict_get_set_same. reflexivity.
  - destruct (open_at_dict _ _ O) as (d & ->).
    apply open_at_cons in O.
    apply set_path_cons_inv in E as (c' & E1 & ->).
    simpl. rewrite dict_get_set_same.
    apply (IH _ _ _ _) in E1; trivial.
    destruct (dict_get d ki); trivial. apply open_at_empty.
Qed.

(** The walk leaves alone what is found along every path that neither
    starts with the written one nor is an initial part of it. *)
Lemma set_path_get_other (init : list key) :
  forall (obj obj' : value) (last : key) (v : value) (q : list key),
    open_at obj init ->
    set_path None obj init last v = Ok obj' ->
    is_prefix (init ++ [last]) q = false ->
    is_prefix q (init ++ [last]) = false ->
    get_path obj' q = get_path obj q.
Proof.
  induction init as [ | ki init IH ]; intros obj obj' last v q O E N1 N2.
  - destruct (open_at_dict _ _ O) as (d & ->).
    simpl in E. inversion E; subst.
    destruct q as [ | k q ]; [ discriminate | ].
    simpl in N1. rewrite andb_true_r in N1.
    simpl. rewrite dict_get_set_other; trivial.
  - destruct (open_at_dict _ _ O) as (d & ->).
    apply open_at_cons in O.
    apply set_path_cons_inv in E as (c' & E1 & ->).
    destruct q as [ | k q ]; [ discriminate | ].
    simpl in N1, N2. simpl. rewrite dict_get_set.
    destruct (key_eqb ki k) eqn:K; trivial.
    rewrite (key_eqb_sym k ki), K in N2. simpl in N1, N2.
    rewrite <- (dict_get_congr _ _ _ _ K).
    destruct (dict_get d ki) as [ c | ].
    + apply (IH c c' last v q); trivial.
    + rewrite (IH (VDict []) c' last v q); trivial.
      * destruct q; [ discriminate | reflexivity ].
      * apply open_at_empty.
Qed.

Lemma is_prefix_app (a : list key) :
  forall b c, is_prefix a b = true -> is_prefix a (b ++ c) = true.
Proof.
  induction a as [ | x a IH ]; intros [ | y b ] c; simpl; trivial;
    try discriminate.
  intros H. apply andb_true_iff in H as [H1 H2].
  rewrite H1. simpl. apply IH, H2.
Qed.

(** The loop on entries whose paths are pairwise unrelated, and unrelated
    to the paths written before. *)
Lemma unflatten_loop_stores (entries : dict) :
  forall (seen : list (list key)) (obj : value),
    (forall q, forallb (fun p => negb (is_prefix p q)) seen = true ->
               open_at obj q) ->
    forallb (fun kv => match key_path (fst kv) with
                       | [] => false
                       | _ => true
                       end) entries = true ->
    antichain (seen ++ map (fun kv => key_path (fst kv)) entries) = true ->
    exists obj',
      unflatten_loop None obj entries = Ok obj'
      /\ (forall k v, In (k, v) entries ->
            get_path obj' (key_path k) = Some v)
      /\ (forall p, In p seen -> get_path obj' p = get_path obj p).
Proof.
  induction entries as [ | [k v] entries IH ]; intros seen obj Inv N A.
  - simpl. exists obj. repeat split; trivial. intros k v [].
  - simpl in N. apply andb_true_iff in N as [Nk N].
    destruct (split_last_nonempty (key_path k)) as (init & last & S).
    { destruct (key_path k); [ discriminate | discriminate ]. }
    pose proof (split_last_app _ _ _ S) as Hp.
    simpl in A.
    pose proof A as A'.
    apply antichain_app in A' as (As & Ae & Across).
    simpl in Ae. apply andb_true_iff in Ae as [Ak Ae].
    assert (open_at obj init) as O.
    { apply Inv. apply forallb_forall. intros p Hp'.
      destruct (Across p (key_path k) Hp' (or_introl eq_refl)) as [X _].
      apply negb_true_iff.
      destruct (is_prefix p init) eqn:P; trivial.
      rewrite Hp, (is_prefix_app _ _ _ P) in X. discriminate. }
    destruct (set_path_ok init obj last v O) as (obj1 & E1).
    rewrite unflatten_loop_cons, (unflatten_entry_path _ _ _ _ _ S), E1.
    simpl.
    destruct (IH (seen ++ [key_path k]) obj1) as (obj' & E' & Hent & Hseen).
    + intros q Hq. rewrite forallb_app in Hq.
      apply andb_true_iff in Hq as [Hq1 Hq2]. simpl in Hq2.
      rewrite andb_true_r in Hq2. apply negb_true_iff in Hq2.
      apply (set_path_open init obj obj1 last v q); auto.
      rewrite <- Hp. exact Hq2.
    + exact N.
    + rewrite <- app_assoc. exact A.
    + exists obj'. split; [ exact E' | split ].
      * intros k' v' [ [= <- <-] | Hin ]; [ | eauto ].
        rewrite Hseen by (apply in_or_app; right; left; reflexivity).
        rewrite Hp. eapply set_path_get_same; eassumption.
      * intros p Hin.
        rewrite Hseen by (apply in_or_app; left; exact Hin).
        destruct (Across p (key_path k) Hin (or_introl eq_refl)) as [X Y].
        apply (set_path_get_other init obj obj1 last v p); trivial;
          rewrite <- Hp; assumption.
Qed.

(** X10: on a flat mapping in which no path is empty and none is an
    initial part of another (a key that is not a [CompoundKey] counting as
    a path of length one), [flatdict_to_dict] returns, and in the result
    every value is found by following its path:
    [result[k1]...[kn] is v] for every entry [(k1, ..., kn) -> v]. *)
Theorem flatdict_to_dict_stores (flat : dict) :
  forallb (fun kv => match key_path (fst kv) with
                     | [] => false
                     | _ => true
                     end) flat = true ->
  antichain (map (fun kv => key_path (fst kv)) flat) = true ->
  exists result,
    flatdict_to_dict (VDict flat) None = Ok result
    /\ forall k v, In (k, v) flat -> get_path result (key_path k) = Some v.
Proof.
  intros N A. unfold flatdict_to_dict. simpl.
  destruct (unflatten_loop_stores flat [] (VDict [])) as (obj' & E & H & _);
    trivial.
  - intros q _. apply open_at_empty.
  - eauto.
Qed.

(** [flatdict_to_dict({("a","b"): 1, "e": 3, ("a","c"): [2]})] *)
Lemma flatdict_to_dict_stores_witness :
  exists result,
    flatdict_to_dict
      (VDict [(CompoundKey [KStr "a"; KStr "b"], VInt 1);
              (KStr "e", VInt 3);
              (CompoundKey [KStr "a"; KStr "c"], VList [VInt 2])]) None
    = Ok result
    /\ forall k v,
         In (k, v) [(CompoundKey [KStr "a"; KStr "b"], VInt 1);
                    (KStr "e", VInt 3);
                    (CompoundKey [KStr "a"; KStr "c"], VList [VInt 2])] ->
         get_path result (key_path k) = Some v.
Proof.
  apply (flatdict_to_dict_stores
           [(CompoundKey [KStr "a"; KStr "b"], VInt 1);
            (KStr "e", VInt 3);
            (CompoundKey [KStr "a"; KStr "c"], VList [VInt 2])]);
    reflexivity.
Defined.

(** ** flatdict_to_dict with dct_class=DotDict *)

Lemma writable_keys_method (d : DotDict.t) (name : string) :
  Forall writable (dict_keys d) ->
  In name ["setdefault"; "items"; "get"] ->
  DotDict.method d name = Ok tt.
Proof.
  intros W Hin.
  assert (dict_get d (KStr name) = None) as G.
  { destruct (dict_get d (KStr name)) as [ v | ] eqn:G; trivial.
    destruct (dict_get_In_keys _ _ _ _ G) as (k' & Hk' & Hk).
    apply key_eqb_KStr in Hk. subst k'.
    rewrite Forall_forall in W.
    destruct (W _ Hk') as (n & [= <-] & Hn).
    simpl in Hin. intuition (subst; discriminate). }
  unfold DotDict.method, DotDict.__getattribute__. rewrite G.
  simpl in Hin. intuition (subst; reflexivity).
Qed.

Lemma unflatten_entry_below_present_dot (dct_class : option mapping_class)
    (k : key) (d : dict) (child c1 : value) (path : list key) (v : value) :
  Forall writable (dict_keys d) ->
  dict_get d k = Some child ->
  unflatten_entry dct_class child (CompoundKey path) v = Ok c1 ->
  unflatten_entry dct_class (VDotDict d) (CompoundKey (k :: path)) v
  = Ok (VDotDict (dict_set d k c1)).
Proof.
  intros W G E. unfold unflatten_entry in *.
  destruct (split_last path) as [ [init last] | ] eqn:S; [ | discriminate ].
  rewrite (split_last_cons k _ _ _ S).
  cbn [set_path call_setdefault].
  rewrite writable_keys_method by (trivial; simpl; auto).
  unfold DotDict.setdefault. rewrite G. simpl. rewrite E. reflexivity.
Qed.

Lemma unflatten_entry_below_absent_dot (k : key) (d : dict) (c1 : value)
    (path : list key) (v : value) :
  Forall writable (dict_keys d) ->
  writableb k = true ->
  dict_get d k = None ->
  unflatten_entry (Some class_DotDict) (VDotDict []) (CompoundKey path) v
  = Ok c1 ->
  unflatten_entry (Some class_DotDict) (VDotDict d) (CompoundKey (k :: path)) v
  = Ok (VDotDict (dict_set d k c1)).
Proof.
  intros W Wk G E. unfold unflatten_entry in *.
  destruct (split_last path) as [ [init last] | ] eqn:S; [ | discriminate ].
  rewrite (split_last_cons k _ _ _ S).
  cbn [set_path call_setdefault].
  rewrite writable_keys_method by (trivial; simpl; auto).
  unfold DotDict.setdefault. rewrite G.
  rewrite setitem_writable by (apply writableb_spec, Wk).
  simpl. rewrite E. simpl. rewrite dict_set_set. reflexivity.
Qed.

Lemma unflatten_below_present_dot (dct_class : option mapping_class)
    (k : key) (es : list (list key * value)) :
  forall (d : dict) (child child' : value),
    Forall writable (dict_keys d) -> writableb k = true ->
    dict_get d k = Some child ->
    unflatten_loop dct_class child (map flat_entry es) = Ok child' ->
    unflatten_loop dct_class (VDotDict d) (map flat_entry (map (below k) es))
    = Ok (VDotDict (dict_set d k child')).
Proof.
  induction es as [ | [path v] es IH ]; intros d child child' W Wk G E.
  - simpl in *. inversion E; subst. rewrite dict_set_same_value; trivial.
  - change (map flat_entry ((path, v) :: es))
      with ((CompoundKey path, v) :: map flat_entry es) in E.
    change (map flat_entry (map (below k) ((path, v) :: es)))
      with ((CompoundKey (k :: path), v)
              :: map flat_entry (map (below k) es)).
    rewrite unflatten_loop_cons in *.
    destruct (unflatten_entry dct_class child (CompoundKey path) v)
      as [ c1 | e ] eqn:E1; [ | discriminate ].
    rewrite (unflatten_entry_below_present_dot _ _ _ _ _ _ _ W G E1).
    simpl in *. rewrite (IH _ c1 child'); trivial.
    + rewrite dict_set_set. reflexivity.
    + apply dict_set_keys_Forall; trivial. apply writableb_spec, Wk.
    + apply dict_get_set_same.
Qed.

Lemma unflatten_below_absent_dot (k : key) (es : list (list key * value)) :
  forall (d : dict) (child' : value),
    es <> [] ->
    Forall writable (dict_keys d) -> writableb k = true ->
    dict_get d k = None ->
    unflatten_loop (Some class_DotDict) (VDotDict []) (map flat_entry es)
    = Ok child' ->
    unflatten_loop (Some class_DotDict) (VDotDict d)
      (map flat_entry (map (below k) es))
    = Ok (VDotDict (d ++ [(k, child')])).
Proof.
  intros d child' N W Wk G E.
  destruct es as [ | [path v] es ]; [ congruence | ].
  change (map flat_entry ((path, v) :: es))
    with ((CompoundKey path, v) :: map flat_entry es) in E.
  change (map flat_entry (map (below k) ((path, v) :: es)))
    with ((CompoundKey (k :: path), v)
            :: map flat_entry (map (below k) es)).
  rewrite unflatten_loop_cons in *.
  destruct (unflatten_entry (Some class_DotDict) (VDotDict [])
              (CompoundKey path) v) as [ c1 | e ] eqn:E1; [ | discriminate ].
  rewrite (unflatten_entry_below_absent_dot _ _ _ _ _ W Wk G E1).
  simpl in *.
  rewrite (unflatten_below_present_dot (Some class_DotDict) k es _ c1 child');
    trivial.
  - rewrite dict_set_set, dict_set_absent; trivial.
  - apply dict_set_keys_Forall; trivial. apply writableb_spec, Wk.
  - apply dict_get_set_same.
Qed.

Lemma unflatten_leaves_entries_dot (entries : dict) :
  Forall (fun kv => forall k acc,
            dict_get acc k = None -> Forall writable (dict_keys acc) ->
            writableb k = true ->
            wf_value (snd kv) = true -> spine_writable (snd kv) = true ->
            unflatten_loop (Some class_DotDict) (VDotDict acc)
              (map flat_entry (entry_leaves [] k (snd kv)))
            = Ok (VDotDict (acc ++ dot_entries (prune_entry k (snd kv)))))
         entries ->
  forall acc,
    (forall kv, In kv entries -> dict_get acc (fst kv) = None) ->
    Forall writable (dict_keys acc) ->
    wf_value (VDict entries) = true ->
    spine_writable (VDict entries) = true ->
    unflatten_loop (Some class_DotDict) (VDotDict acc)
      (map flat_entry (leaves [] entries))
    = Ok (VDotDict (acc ++ dot_entries (prune entries))).
Proof.
  unfold leaves, prune.
  induction 1 as [ | [k v] entries Hv _ IH ]; intros acc G Wa W Sw; simpl.
  - rewrite app_nil_r. reflexivity.
  - simpl in W. apply andb_true_iff in W as [U W].
    apply andb_true_iff in U as [Uk U]. apply andb_true_iff in W as [Wv W].
    simpl in Sw. apply andb_true_iff in Sw as [Sk Sw].
    apply andb_true_iff in Sk as [Wk Sv].
    rewrite map_app, unflatten_loop_app. simpl in Hv.
    rewrite Hv; trivial; [ | apply (G (k, v)); left; reflexivity ].
    simpl. unfold dot_entries in *. rewrite map_app, app_assoc.
    destruct (prune_entry_shape k v) as [ Ep | (v' & Ep) ]; rewrite Ep in *.
    + simpl. rewrite app_nil_r. apply IH; trivial.
      * intros kv Hin. apply G. right. exact Hin.
      * simpl. rewrite U, W. reflexivity.
    + simpl. apply IH; trivial.
      * intros kv Hin. rewrite dict_get_app, G by (right; exact Hin).
        simpl. apply negb_true_iff in Uk.
        destruct (key_eqb k (fst kv)) eqn:E; trivial.
        assert (existsb (key_eqb k) (map fst entries) = true) as X.
        { apply existsb_exists. exists (fst kv). split; trivial.
          apply in_map, Hin. }
        congruence.
      * unfold dict_keys in *. rewrite map_app. apply Forall_app. split;
          trivial. simpl. constructor; [ | constructor ].
        apply writableb_spec, Wk.
      * simpl. rewrite U, W. reflexivity.
Qed.

Lemma unflatten_entry_leaves_dot (v : value) :
  forall k acc,
    dict_get acc k = None -> Forall writable (dict_keys acc) ->
    writableb k = true ->
    wf_value v = true -> spine_writable v = true ->
    unflatten_loop (Some class_DotDict) (VDotDict acc)
      (map flat_entry (entry_leaves [] k v))
    = Ok (VDotDict (acc ++ dot_entries (prune_entry k v))).
Proof.
  induction v as [ | n | s | vs IH | vs IH | vs IH | vs IH | sub IH
                 | sub IH ] using value_nested_ind;
    intros k acc G Wa Wk W Sw;
    try (simpl; rewrite setitem_writable by (apply writableb_spec, Wk);
         simpl; rewrite dict_set_absent by exact G; reflexivity).
  pose proof (unflatten_leaves_entries_dot sub IH []
                (fun _ _ => eq_refl) (Forall_nil _) W Sw) as Q.
  rewrite entry_leaves_dict, prune_entry_dict. simpl app in *.
  rewrite leaves_below.
  destruct (leaves [] sub) as [ | e es ] eqn:L.
  - simpl in Q. inversion Q as [Hq].
    assert (prune sub = []) as -> by
      (unfold dot_entries in Hq; destruct (prune sub);
       [ reflexivity | discriminate ]).
    simpl. rewrite app_nil_r. reflexivity.
  - rewrite (unflatten_below_absent_dot k (e :: es) acc
               (VDotDict (dot_entries (prune sub)))); trivial;
      try discriminate.
    destruct (prune sub) eqn:P; trivial.
    exfalso.
    assert (prune_entry k (VDict sub) = []) as X
      by (rewrite prune_entry_dict, P; reflexivity).
    apply (prune_entry_nil (VDict sub) [] k) in X.
    rewrite entry_leaves_dict in X. simpl app in X.
    rewrite leaves_below, L in X. discriminate.
Qed.

(** X11: with [dct_class=DotDict] the round trip turns the nested [dict]
    into nested [DotDict]s.  For a nested [dict] all of whose keys are
    strings that name no attribute of [MutableMapping], nested no deeper
    than the calls of [dict_to_flatdict] may nest,
    [flatdict_to_dict(dict_to_flatdict(m), DotDict)] returns [m] with every
    plain dictionary replaced by a [DotDict] holding the same keys in the
    same order (and without the dictionaries that hold no leaf). *)
Theorem flatten_unflatten_DotDict (fuel : nat) (entries : dict) :
  wf_value (VDict entries) = true ->
  spine_writable (VDict entries) = true ->
  dict_depth (VDict entries) <= fuel ->
  exists flat,
    dict_to_flatdict fuel (VDict entries) None = Ok (flat : dict)
    /\ flatdict_to_dict (VDict flat) (Some class_DotDict)
       = Ok (dot_spine (VDict (prune entries))).
Proof.
  intros W Sw D. exists (map flat_entry (leaves [] entries)). split.
  - apply (proj1 (unflatten_flatten fuel entries D W)).
  - unfold flatdict_to_dict. simpl.
    apply (unflatten_leaves_entries_dot entries); trivial.
    apply Forall_forall. intros kv _. apply unflatten_entry_leaves_dot.
Qed.

(** [flatdict_to_dict(dict_to_flatdict({"a": {"b": 1}, "e": 3}), DotDict)] *)
Lemma flatten_unflatten_DotDict_witness :
  exists flat,
    dict_to_flatdict recursion_limit
      (VDict [(KStr "a", VDict [(KStr "b", VInt 1)]); (KStr "e", VInt 3)])
      None = Ok (flat : dict)
    /\ flatdict_to_dict (VDict flat) (Some class_DotDict)
       = Ok (VDotDict [(KStr "a", VDotDict [(KStr "b", VInt 1)]);
                       (KStr "e", VInt 3)]).
Proof.
  apply (flatten_unflatten_DotDict recursion_limit
           [(KStr "a", VDict [(KStr "b", VInt 1)]); (KStr "e", VInt 3)]);
    [ reflexivity | reflexivity | unfold recursion_limit; simpl; lia ].
Defined.

(** ** merge_dicts: empty arguments, merging with itself, order of keys *)

Lemma merge_loop_into_fresh (recurse : value -> value -> res value)
    (entries : dict) :
  forall acc : dict,
    keys_unique (map fst acc ++ map fst entries) = true ->
    merge_loop recurse (VDict acc) entries = Ok (VDict (acc ++ entries)).
Proof.
  induction entries as [ | [k v] entries IH ]; intros acc U.
  - simpl. rewrite app_nil_r. reflexivity.
  - simpl in U.
    pose proof (keys_unique_mid _ _ _ U) as X.
    apply dict_get_none_existsb in X.
    cbn [merge_loop call_get bind]. rewrite X. cbn [setitem bind].
    rewrite dict_set_absent by exact X.
    rewrite IH.
    + rewrite <- app_assoc. reflexivity.
    + rewrite map_app, <- app_assoc. exact U.
Qed.

(** X12: the empty mapping is neutral on both sides.  Merging a [dict]
    into an empty one returns a [dict] with the same entries in the same
    order, the values being the very values of the argument; merging an
    empty [dict] into a [dict] returns its copy.  Neither call makes a
    nested call, so this holds wherever the call itself can be made. *)
Theorem merge_dicts_empty (fuel : nat) (b : dict) :
  keys_unique (map fst b) = true ->
  merge_dicts (S fuel) (VDict []) (VDict b) = Ok (VDict b)
  /\ merge_dicts (S fuel) (VDict b) (VDict []) = Ok (VDict b).
Proof.
  intros U. split; [ | reflexivity ].
  cbn [merge_dicts call_copy bind].
  apply (merge_loop_into_fresh _ b []). exact U.
Qed.

(** [merge_dicts({}, {"x": {"y": 1}})] *)
Lemma merge_dicts_empty_witness :
  merge_dicts 1 (VDict []) (VDict [(KStr "x", VDict [(KStr "y", VInt 1)])])
  = Ok (VDict [(KStr "x", VDict [(KStr "y", VInt 1)])])
  /\ merge_dicts 1 (VDict [(KStr "x", VDict [(KStr "y", VInt 1)])]) (VDict [])
     = Ok (VDict [(KStr "x", VDict [(KStr "y", VInt 1)])]).
Proof.
  apply (merge_dicts_empty 0 [(KStr "x", VDict [(KStr "y", VInt 1)])]).
  reflexivity.
Defined.

Lemma dict_get_In_unique (V : Type) (d : list (key * V)) (k : key) (v : V) :
  keys_unique (map fst d) = true -> In (k, v) d -> dict_get d k = Some v.
Proof.
  induction d as [ | [j w] d IH ]; simpl; [ contradiction | ].
  intros U. apply andb_true_iff in U as [U1 U2].
  intros [ [= -> ->] | Hin ].
  - rewrite key_eqb_refl. reflexivity.
  - apply negb_true_iff in U1.
    destruct (key_eqb j k) eqn:E; auto.
    assert (existsb (key_eqb j) (map fst d) = true) as X.
    { apply existsb_exists. exists k. split; trivial.
      apply (in_map fst _ _ Hin). }
    congruence.
Qed.

Lemma merge_loop_same (recurse : value -> value -> res value)
    (a entries : dict) :
  (forall kv, In kv entries ->
     isinstance_MutableMapping (snd kv) = true ->
     recurse (snd kv) (snd kv) = Ok (snd kv)) ->
  (forall kv, In kv entries -> dict_get a (fst kv) = Some (snd kv)) ->
  merge_loop recurse (VDict a) entries = Ok (VDict a).
Proof.
  induction entries as [ | [k v] entries IH ]; intros Hv H; trivial.
  pose proof (H (k, v) (or_introl eq_refl)) as G. simpl in G.
  pose proof (Hv (k, v) (or_introl eq_refl)) as R. simpl in R.
  cbn [merge_loop call_get bind]. rewrite G.
  destruct (isinstance_MutableMapping v) eqn:M; cbn [andb].
  - rewrite (R eq_refl). simpl.
    rewrite dict_set_same_value by exact G.
    apply IH; intros kv Hin; [ apply Hv | apply H ]; right; exact Hin.
  - simpl. rewrite dict_set_same_value by exact G.
    apply IH; intros kv Hin; [ apply Hv | apply H ]; right; exact Hin.
Qed.

(** X13: merging a nested [dict] that is no deeper than the calls of
    [merge_dicts] may nest with itself returns its copy:
    [merge_dicts(a, a) == a], at every level. *)
Theorem merge_dicts_idempotent (fuel : nat) (a : value) :
  isinstance_MutableMapping a = true ->
  all_dict a = true -> wf_value a = true ->
  mapping_depth a <= fuel ->
  merge_dicts fuel a a = Ok a.
Proof.
  revert a.
  induction fuel as [ | fuel IH ]; intros a M A W D.
  - destruct a; try discriminate; simpl in D; lia.
  - destruct a as [ | | | | | | | entries | entries ]; try discriminate.
    cbn [merge_dicts call_copy bind].
    simpl in A, W. apply andb_true_iff in W as [U W].
    rewrite forallb_forall in A, W.
    apply merge_loop_same.
    + intros kv Hin Mv. apply IH; auto.
      apply (mapping_depth_entry entries kv fuel D Hin).
    + intros [k v] Hin. apply dict_get_In_unique; trivial.
Qed.

(** [merge_dicts(a, a)] for [a = {"x": 1, "n": {"p": [2]}}] *)
Lemma merge_dicts_idempotent_witness :
  merge_dicts recursion_limit
    (VDict [(KStr "x", VInt 1); (KStr "n", VDict [(KStr "p", VList [VInt 2])])])
    (VDict [(KStr "x", VInt 1); (KStr "n", VDict [(KStr "p", VList [VInt 2])])])
  = Ok (VDict [(KStr "x", VInt 1);
               (KStr "n", VDict [(KStr "p", VList [VInt 2])])]).
Proof.
  apply (merge_dicts_idempotent recursion_limit
           (VDict [(KStr "x", VInt 1);
                   (KStr "n", VDict [(KStr "p", VList [VInt 2])])]));
    [ reflexivity | reflexivity | reflexivity
    | unfold recursion_limit; simpl; lia ].
Defined.

Lemma setitem_keys (m m' : value) (k : key) (x : value) :
  isinstance_MutableMapping m = true ->
  setitem m k x = Ok m' ->
  isinstance_MutableMapping m' = true
  /\ map fst (entries_of_mapping m')
     = if existsb (key_eqb k) (map fst (entries_of_mapping m))
       then map fst (entries_of_mapping m)
       else map fst (entries_of_mapping m) ++ [k].
Proof.
  destruct m; try discriminate; intros _; simpl.
  - intros [= <-]. split; trivial. apply dict_set_keys.
  - destruct (DotDict.__setitem__ items k x) as [ s | e ] eqn:E; simpl;
      [ | discriminate ].
    intros [= <-]. apply setitem_ok_inv in E as [_ ->].
    split; trivial. apply dict_set_keys.
Qed.

Lemma merge_loop_keys (recurse : value -> value -> res value)
    (entries : dict) :
  forall new_dict r : value,
    keys_unique (map fst entries) = true ->
    merge_loop recurse new_dict entries = Ok r ->
    (entries = [] \/ isinstance_MutableMapping new_dict = true) ->
    map fst (entries_of_mapping r)
    = map fst (entries_of_mapping new_dict)
      ++ filter (fun k => negb (existsb (key_eqb k)
                                  (map fst (entries_of_mapping new_dict))))
           (map fst entries).
Proof.
  induction entries as [ | [k0 v0] entries IH ]; intros nd r U E Hm.
  - simpl in E. inversion E; subst. simpl. rewrite app_nil_r. reflexivity.
  - simpl in U. apply andb_true_iff in U as [U0 U].
    apply negb_true_iff in U0. simpl in E.
    destruct (call_get nd k0) as [ old | e ] eqn:G; simpl in E;
      [ | discriminate ].
    apply call_get_mapping in G as [M _].
    match type of E with
    | bind ?c _ = _ => destruct c as [ nd' | e ] eqn:S
    end; simpl in E; [ | discriminate ].
    assert (exists x, setitem nd k0 x = Ok nd') as (x0 & S').
    { destruct old as [ v1 | ]; [ | eauto ].
      destruct (isinstance_MutableMapping v1 && isinstance_MutableMapping v0);
        [ | eauto ].
      destruct (recurse v1 v0) as [ merged | e ]; simpl in S;
        [ eauto | discriminate ]. }
    clear S.
    destruct (setitem_keys _ _ _ _ M S') as [M' K'].
    rewrite (IH _ _ U E (or_intror M')), K'. simpl.
    destruct (existsb (key_eqb k0) (map fst (entries_of_mapping nd))) eqn:X;
      simpl; trivial.
    rewrite <- app_assoc. simpl. f_equal. f_equal.
    apply filter_ext_in. intros k Hk. f_equal.
    rewrite existsb_app. simpl. rewrite orb_false_r.
    assert (key_eqb k k0 = false) as ->; [ | apply orb_false_r ].
    destruct (key_eqb k k0) eqn:K; trivial.
    assert (existsb (key_eqb k0) (map fst entries) = true) as Y.
    { apply existsb_exists. exists k. split; trivial.
      rewrite key_eqb_sym. exact K. }
    congruence.
Qed.

(** X14: the order of the result.  When [merge_dicts(a, b)] returns, the
    result iterates the keys of [a] first, in the order of [a], and then
    the keys of [b] that [a] does not have, in the order of [b]. *)
Theorem merge_dicts_key_order (fuel : nat) (a b r : value) :
  isinstance_MutableMapping a = true ->
  isinstance_MutableMapping b = true ->
  wf_value a = true -> wf_value b = true ->
  merge_dicts fuel a b = Ok r ->
  map fst (entries_of_mapping r)
  = map fst (entries_of_mapping a)
    ++ filter (fun k => negb (existsb (key_eqb k)
                                (map fst (entries_of_mapping a))))
         (map fst (entries_of_mapping b)).
Proof.
  intros Ma Mb Wa Wb E.
  destruct fuel as [ | fuel ]; [ discriminate | ].
  assert (exists entries,
             (b = VDict entries \/ b = VDotDict entries)
             /\ keys_unique (map fst entries) = true
             /\ entries_of_mapping b = entries)
    as (entries & Hb & U & Eb).
  { destruct b; try discriminate; exists items; simpl in Wb;
      apply andb_true_iff in Wb as [U _]; auto. }
  destruct (merge_dicts_unfold fuel a b entries Hb r E) as (nd & Ec & El).
  apply call_copy_mapping in Ec; trivial. subst nd. rewrite Eb.
  apply (merge_loop_keys _ entries a r U El). right. exact Ma.
Qed.

(** [merge_dicts({"x": 1, "y": 2}, {"z": 3, "x": 4})] iterates x, y, z. *)
Lemma merge_dicts_key_order_witness :
  map fst (entries_of_mapping
             (VDict [(KStr "x", VInt 4); (KStr "y", VInt 2);
                     (KStr "z", VInt 3)]))
  = [KStr "x"; KStr "y"; KStr "z"].
Proof.
  apply (merge_dicts_key_order recursion_limit
           (VDict [(KStr "x", VInt 1); (KStr "y", VInt 2)])
           (VDict [(KStr "z", VInt 3); (KStr "x", VInt 4)])
           (VDict [(KStr "x", VInt 4); (KStr "y", VInt 2);
                   (KStr "z", VInt 3)])); reflexivity.
Defined.

(** ** merge_dicts on the store: what the result shares with its arguments *)

Section StoreSharing.
Variable leaf : Type.
Implicit Types (s : store leaf) (o : object leaf).

Lemma store_update_same s l o :
  l < List.length s -> nth_error (store_update s l o) l = Some o.
Proof.
  revert l. induction s as [ | x s IH ]; intros [ | l ]; simpl; try lia;
    trivial.
  intros H. apply IH. lia.
Qed.

Lemma object_setitem_ok o k (x : slot leaf) o' :
  object_setitem o k x = Ok o' ->
  class_of o' = class_of o
  /\ entries_of o' = dict_set (entries_of o) k x.
Proof.
  unfold object_setitem. destruct (class_of o).
  - intros [= <-]. auto.
  - destruct k; try discriminate.
    destruct (hasattr_MutableMapping s); [ discriminate | ].
    intros [= <-]. auto.
Qed.

Lemma unique_head_rest (k0 k : key) (v0 : slot leaf)
    (rest : list (key * slot leaf)) :
  keys_unique (map fst ((k0, v0) :: rest)) = true ->
  key_eqb k0 k = true -> dict_get rest k = None.
Proof.
  simpl. intros U E. apply andb_true_iff in U as [U _].
  apply negb_true_iff in U. apply dict_get_none_existsb in U.
  rewrite <- (dict_get_congr _ rest k0 k E). exact U.
Qed.

Lemma object_update_lookup (es : list (key * slot leaf)) :
  forall o o',
    keys_unique (map fst es) = true ->
    object_update o es = Ok o' ->
    class_of o' = class_of o
    /\ forall k, dict_get (entries_of o') k
                 = match dict_get es k with
                   | Some x => Some x
                   | None => dict_get (entries_of o) k
                   end.
Proof.
  induction es as [ | [k0 x0] es IH ]; intros o o' U E.
  - simpl in E. inversion E; subst. auto.
  - simpl in E.
    destruct (object_setitem o k0 x0) as [ o1 | e ] eqn:S; simpl in E;
      [ | discriminate ].
    apply object_setitem_ok in S as [Sc Se].
    pose proof (fun k => unique_head_rest k0 k x0 es U) as Hk0.
    simpl in U. apply andb_true_iff in U as [_ U].
    destruct (IH _ _ U E) as [Hc Hk]. split; [ congruence | ].
    intros k. rewrite Hk, Se, dict_get_set. simpl.
    destruct (key_eqb k0 k) eqn:K; trivial.
    rewrite (Hk0 k K). reflexivity.
Qed.

Lemma object_copy_lookup o c :
  keys_unique (map fst (entries_of o)) = true ->
  object_copy o = Ok c ->
  class_of c = class_of o
  /\ forall k, dict_get (entries_of c) k = dict_get (entries_of o) k.
Proof.
  intros U. unfold object_copy.
  destruct (method_of o "copy"); simpl; [ | discriminate ].
  destruct (class_of o) eqn:C.
  - intros [= <-]. auto.
  - intros E. apply object_update_lookup in E as [Hc Hk]; trivial.
    split; trivial.
    intros k. rewrite Hk. destruct (dict_get (entries_of o) k); trivial.
Qed.

Lemma is_mapping_below n s0 s (x : option (slot leaf)) :
  unchanged_below n s0 s ->
  (forall l, x = Some (Ref leaf l) -> l < n) ->
  is_mapping s x = is_mapping s0 x.
Proof.
  destruct x as [ [ v | l ] | ]; simpl; trivial.
  intros [_ H] Hl. rewrite H; auto.
Qed.

Lemma merge_loop_in_slots
    (recurse : store leaf -> nat -> nat -> store leaf * res nat)
    (n : nat) s0 :
  (forall s a b,
      unchanged_below (List.length s) s (fst (recurse s a b))) ->
  (forall s a b m, snd (recurse s a b) = Ok m -> m = List.length s) ->
  forall (es : list (key * slot leaf)) s o s',
    keys_unique (map fst es) = true ->
    unchanged_below n s0 s ->
    nth_error s n = Some o ->
    (forall k l, In (k, Ref leaf l) es -> l < n) ->
    (forall k l, dict_get es k <> None ->
                 dict_get (entries_of o) k = Some (Ref leaf l) -> l < n) ->
    merge_loop_in recurse n s es = (s', Ok tt) ->
    exists o',
      nth_error s' n = Some o'
      /\ class_of o' = class_of o
      /\ forall k, merged_slot s0 n (dict_get (entries_of o) k)
                     (dict_get es k) (dict_get (entries_of o') k).
Proof.
  intros Hfr Hfresh.
  induction es as [ | [k0 v0] es IH ]; intros s o s' U Hs Ho Hes Hold E.
  - simpl in E. inversion E; subst. exists o. repeat split; trivial.
  - cbn [merge_loop_in] in E. rewrite Ho in E.
    destruct (method_of o "get"); [ | discriminate ].
    assert (n < List.length s) as Hn by (apply nth_error_Some; congruence).
    pose proof (fun k => unique_head_rest k0 k v0 es U) as Hk0.
    assert (keys_unique (map fst es) = true) as U'
      by (simpl in U; apply andb_true_iff in U; tauto).
    rewrite (is_mapping_below n s0 s (dict_get (entries_of o) k0)) in E;
      trivial;
      [ | intros l Hl; apply (Hold k0 l); trivial;
          simpl; rewrite key_eqb_refl; discriminate ].
    rewrite (is_mapping_below n s0 s (Some v0)) in E; trivial;
      [ | intros l [= ->]; apply (Hes k0 l); left; reflexivity ].
    assert (forall s1 o1 x,
               unchanged_below n s0 s1 -> n < List.length s1 ->
               object_setitem o k0 x = Ok o1 ->
               merge_loop_in recurse n (store_update s1 n o1) es
               = (s', Ok tt) ->
               exists o',
                 nth_error s' n = Some o'
                 /\ class_of o' = class_of o
                 /\ forall k,
                      if key_eqb k0 k
                      then dict_get (entries_of o') k = Some x
                      else merged_slot s0 n (dict_get (entries_of o) k)
                             (dict_get es k) (dict_get (entries_of o') k))
      as Step.
    { intros s1 o1 x Hs1 Hn1 Hset El.
      apply object_setitem_ok in Hset as [Hc He].
      destruct (IH (store_update s1 n o1) o1 s' U') as (o' & Ho' & Hc' & Hk);
        trivial.
      - apply (unchanged_below_trans _ _ _ s1); trivial.
        apply unchanged_below_update. lia.
      - apply store_update_same. exact Hn1.
      - intros k l Hin. apply (Hes k l). right. exact Hin.
      - intros k l Hne Hg. rewrite He, dict_get_set in Hg.
        destruct (key_eqb k0 k) eqn:K.
        + exfalso. apply Hne, Hk0, K.
        + apply (Hold k l); trivial. simpl. rewrite K. exact Hne.
      - exists o'. split; trivial. split; [ congruence | ].
        intros k. specialize (Hk k). rewrite He, dict_get_set in Hk.
        destruct (key_eqb k0 k) eqn:K; trivial.
        rewrite (Hk0 k K) in Hk. exact Hk. }
    assert (forall o' x,
               (forall k,
                   if key_eqb k0 k
                   then dict_get (entries_of o') k = Some x
                   else merged_slot s0 n (dict_get (entries_of o) k)
                          (dict_get es k) (dict_get (entries_of o') k)) ->
               merged_slot s0 n (dict_get (entries_of o) k0) (Some v0)
                 (Some x) ->
               forall k,
                 merged_slot s0 n (dict_get (entries_of o) k)
                   (dict_get ((k0, v0) :: es) k)
                   (dict_get (entries_of o') k)) as Fin.
    { intros o' x Hk Hx k. specialize (Hk k). simpl.
      destruct (key_eqb k0 k) eqn:K; trivial.
      rewrite <- (dict_get_congr _ (entries_of o) k0 k K), Hk. exact Hx. }
    revert E.
    destruct (is_mapping s0 (dict_get (entries_of o) k0)) as [ old_l | ]
      eqn:Mo;
      destruct (is_mapping s0 (Some v0)) as [ v_l | ] eqn:Mv; intros E.
    + destruct (recurse s old_l v_l) as [ s1 [ merged | e ] ] eqn:R;
        [ | discriminate ].
      pose proof (Hfr s old_l v_l) as F. rewrite R in F. simpl in F.
      pose proof (Hfresh s old_l v_l merged) as Fm. rewrite R in Fm.
      specialize (Fm eq_refl).
      assert (nth_error s1 n = Some o) as Ho1
        by (destruct F as [_ F]; rewrite F; trivial).
      rewrite Ho1 in E.
      destruct (object_setitem o k0 (Ref leaf merged)) as [ o1 | e ] eqn:Hset;
        [ | discriminate ].
      destruct (Step s1 o1 (Ref leaf merged)) as (o' & Ho' & Hc' & Hk);
        trivial.
      * apply (unchanged_below_trans _ _ _ s); trivial.
        apply (unchanged_below_weaken _ n (List.length s)); [ lia | exact F ].
      * destruct F. lia.
      * exists o'. split; trivial. split; trivial.
        apply (Fin o' _ Hk). unfold merged_slot. rewrite Mo, Mv.
        exists merged. split; trivial. lia.
    + destruct (object_setitem o k0 v0) as [ o1 | e ] eqn:Hset;
        [ | discriminate ].
      destruct (Step s o1 _ Hs Hn Hset E) as (o' & Ho' & Hc' & Hk).
      exists o'. split; trivial. split; trivial.
      apply (Fin o' _ Hk). unfold merged_slot. rewrite Mo, Mv. reflexivity.
    + destruct (object_setitem o k0 v0) as [ o1 | e ] eqn:Hset;
        [ | discriminate ].
      destruct (Step s o1 _ Hs Hn Hset E) as (o' & Ho' & Hc' & Hk).
      exists o'. split; trivial. split; trivial.
      apply (Fin o' _ Hk). unfold merged_slot. rewrite Mo. reflexivity.
    + destruct (object_setitem o k0 v0) as [ o1 | e ] eqn:Hset;
        [ | discriminate ].
      destruct (Step s o1 _ Hs Hn Hset E) as (o' & Ho' & Hc' & Hk).
      exists o'. split; trivial. split; trivial.
      apply (Fin o' _ Hk). unfold merged_slot. rewrite Mo. reflexivity.
Qed.
End StoreSharing.

(** X15: what the result shares with the arguments.  On a store without
    dangling references, when [merge_dicts(d1, d2)] returns, the result is
    a new object of the class of [d1] that holds, under every key: the
    very slot of [d1] (the same object, not a copy) where [d2] has no such
    key; a reference to an object created by the call where both hold a
    mapping; and the very slot of [d2] otherwise. *)
Theorem merge_dicts_in_shares (leaf : Type) (fuel : nat) (s s' : store leaf)
    (d1 d2 n : nat) (o1 o2 : object leaf) :
  closed s ->
  nth_error s d1 = Some o1 -> nth_error s d2 = Some o2 ->
  keys_unique (map fst (entries_of o1)) = true ->
  keys_unique (map fst (entries_of o2)) = true ->
  merge_dicts_in fuel s d1 d2 = (s', Ok n) ->
  n = List.length s
  /\ exists o,
       nth_error s' n = Some o
       /\ class_of o = class_of o1
       /\ forall k, merged_slot s n (dict_get (entries_of o1) k)
                      (dict_get (entries_of o2) k)
                      (dict_get (entries_of o) k).
Proof.
  intros Hcl H1 H2 U1 U2 E.
  destruct fuel as [ | fuel ]; [ discriminate | ].
  simpl in E. rewrite H1, H2 in E.
  destruct (object_copy o1) as [ c | e ] eqn:C; [ | discriminate ].
  destruct (method_of o2 "items"); [ | discriminate ].
  destruct (merge_loop_in _ _ _ _) as [ s2 [ [] | e ] ] eqn:L;
    inversion E; subst. clear E.
  split; trivial.
  destruct (object_copy_lookup leaf o1 c U1 C) as [Cc Ck].
  destruct (merge_loop_in_slots leaf (merge_dicts_in fuel) (List.length s) s
              (merge_dicts_in_unchanged leaf fuel)
              (merge_dicts_in_fresh leaf fuel)
              (entries_of o2) (s ++ [c]) c s' U2)
    as (o' & Ho' & Hc' & Hk); trivial.
  - apply (unchanged_below_alloc leaf s c).
  - rewrite nth_error_app2, Nat.sub_diag; trivial.
  - intros k l Hin. apply (Hcl d2 o2 k l H2 Hin).
  - intros k l _ Hg. rewrite Ck in Hg.
    apply dict_get_In in Hg as (k' & Hin & _).
    apply (Hcl d1 o1 k' l H1 Hin).
  - exists o'. split; trivial. split; [ congruence | ].
    intros k. rewrite <- Ck. apply Hk.
Qed.

(** [merge_dicts(a, b)] for [a = {"x": 1, "n": p, "m": p}] and
    [b = {"n": q, "y": 2}] with [p = {"p": 1}] and [q = {"q": 2}]: the
    result holds [p] itself under ["m"]. *)
Lemma merge_dicts_in_shares_witness :
  exists o,
    nth_error
      (fst (merge_dicts_in 5
              [Object class_dict [(KStr "x", Leaf 1%Z); (KStr "n", Ref Z 2);
                                  (KStr "m", Ref Z 2)];
               Object class_dict [(KStr "n", Ref Z 3); (KStr "y", Leaf 2%Z)];
               Object class_dict [(KStr "p", Leaf 1%Z)];
               Object class_dict [(KStr "q", Leaf 2%Z)]] 0 1)) 4 = Some o
    /\ dict_get (entries_of o) (KStr "m") = Some (Ref Z 2).
Proof.
  destruct (merge_dicts_in_shares Z 5
              [Object class_dict [(KStr "x", Leaf 1%Z); (KStr "n", Ref Z 2);
                                  (KStr "m", Ref Z 2)];
               Object class_dict [(KStr "n", Ref Z 3); (KStr "y", Leaf 2%Z)];
               Object class_dict [(KStr "p", Leaf 1%Z)];
               Object class_dict [(KStr "q", Leaf 2%Z)]]
              (fst (merge_dicts_in 5
                 [Object class_dict [(KStr "x", Leaf 1%Z);
                                     (KStr "n", Ref Z 2);
                                     (KStr "m", Ref Z 2)];
                  Object class_dict [(KStr "n", Ref Z 3);
                                     (KStr "y", Leaf 2%Z)];
                  Object class_dict [(KStr "p", Leaf 1%Z)];
                  Object class_dict [(KStr "q", Leaf 2%Z)]] 0 1))
              0 1 4
              (Object class_dict [(KStr "x", Leaf 1%Z); (KStr "n", Ref Z 2);
                                  (KStr "m", Ref Z 2)])
              (Object class_dict [(KStr "n", Ref Z 3); (KStr "y", Leaf 2%Z)]))
    as (_ & o & Ho & _ & Hk); try reflexivity.
  - intros [ | [ | [ | [ | [ | l ] ] ] ] ] o k l' H Hin; simpl in H;
      try discriminate; inversion H; subst; simpl in Hin;
      repeat (destruct Hin as [ Hin | Hin ];
              [ try discriminate; inversion Hin; subst; simpl; lia | ]);
      contradiction.
  - exists o. split; trivial. exact (Hk (KStr "m")).
Defined.
